(** * Slide rendering and timeline assembly of [final2cli.py]

    A shallow embedding of the command-line video generator
    ([src/final2cli.py]): the greedy line breaker and the vertical anchor of
    [render_text_image], the background selection of [generate_images], the
    narration tasks of [generate_all_audios], the per-slide durations,
    overlays, progress bar and fades of [assemble_video], the preset
    resolution of [main], and the command line that [src/app.py] builds.

    Conventions.
    - A passage is a Python [str]: a list of Unicode code points ([text]).
      Configuration strings (paths, colours, option values) are [string].
    - Python [int] is [Z].  Python [float] is a rational: every finite double
      is one.  Where the result of a computation depends on the rounding of
      double arithmetic (the width test of the line breaker, the progress
      bar width, the box alpha) the rounding is written out with
      [Float64.rnd], which [Float64Check] compares with the binary64 numbers
      of the kernel; the positions of pen and box in [render_text_image]
      are read in exact rationals.
    - What the program obtains from its libraries and from the outside
      (HarfBuzz shaping, FreeType and PIL metrics, [textwrap.wrap],
      [ImageColor.getrgb], [random.choice], the file system, the durations of
      the narration files) is a field of the record [World].
    - Exceptions and the effects a caller can observe (images saved, lines
      printed, the video written) are explicit: a computation is a function
      from the trace so far to an outcome and the extended trace.  The only
      loop that is not bounded by its input, the [while words] loop of the
      line breaker, takes fuel. *)

From Stdlib Require Import ZArith QArith Qround Qabs Qpower List String Ascii Bool.
From Stdlib Require Import Qminmax DecimalString DecimalNat FinFun Lia Lqa.
From Stdlib Require Import Uint63 PrimFloat SpecFloat FloatOps.
Import ListNotations.

Open Scope Z_scope.

(* ================================================================== *)
(** * Part I: definitions                                              *)
(* ================================================================== *)

(** ** Double-precision arithmetic *)

Module Float64.

(** Quotient [n / d] ([d > 0]) rounded to the nearest integer, ties to
    even. *)
Definition div_rne (n d : Z) : Z :=
  let q := n / d in
  let r := n mod d in
  match 2 * r ?= d with
  | Lt => q
  | Gt => q + 1
  | Eq => if Z.even q then q else q + 1
  end.

Definition rne (x : Q) : Z := div_rne (Qnum x) (Zpos (Qden x)).

Definition pow2 (k : Z) : Q := Qpower 2 k.

(** Exponent of the unit in the last place of a positive [q]: the [s] with
    [2^(s+52) <= q < 2^(s+53)]. *)
Definition ulp_exp (q : Q) : Z :=
  let k := Z.log2 (Qnum q) - Z.log2 (Zpos (Qden q)) in
  (if Qle_bool (pow2 k) q then k else k - 1) - 52.

(** Nearest number with a 53-bit significand, ties to even.  Exponent range
    is not modelled: no quantity of this program comes near the overflow or
    subnormal range of binary64. *)
Definition rnd_pos (q : Q) : Q :=
  let s := ulp_exp q in inject_Z (rne (q / pow2 s)) * pow2 s.

Definition rnd (q : Q) : Q :=
  let r := Qred q in
  match Qnum r with
  | Z0 => 0
  | Zpos _ => Qred (rnd_pos r)
  | Zneg _ => Qred (- rnd_pos (- r))
  end.

(** [float(n)] for a Python int [n]. *)
Definition of_int (n : Z) : Q := rnd (inject_Z n).

Definition mul (x y : Q) : Q := rnd (x * y).
Definition div (x y : Q) : Q := rnd (x / y).

(** [int(x)]: truncation toward zero. *)
Definition to_int (x : Q) : Z := Z.quot (Qnum x) (Zpos (Qden x)).

(** A float literal of the source text. *)
Definition lit (q : Q) : Q := rnd q.

(** The unit roundoff, [2^-53]. *)
Definition u53 : Q := pow2 (-53).

End Float64.

(** The same operations on the kernel's binary64 numbers, to test
    [Float64.rnd] against. *)
Module Float64Check.

(** The rational a finite double stands for. *)
Definition Q_of_double (f : float) : Q :=
  match Prim2SF f with
  | S754_finite s m e =>
      ((if s then -1 else 1) * inject_Z (Zpos m) * Float64.pow2 e)%Q
  | _ => 0%Q
  end.

Definition double_of_int (n : Z) : float := PrimFloat.of_uint63 (Uint63.of_Z n).

(** [size[0] * (float(idx + 1) / total_slides)] on doubles. *)
Definition bar_product_double (width : Z) (idx n : nat) : Q :=
  Q_of_double
    (PrimFloat.mul (double_of_int width)
       (PrimFloat.div (double_of_int (Z.of_nat idx + 1))
                      (double_of_int (Z.of_nat n)))).

Definition bar_product (width : Z) (idx n : nat) : Q :=
  Float64.mul (Float64.of_int width)
    (Float64.div (Float64.of_int (Z.of_nat idx + 1))
                 (Float64.of_int (Z.of_nat n))).

(** [advances / upem * size_px] on doubles. *)
Definition width_double (advances units_per_em size_px : Z) : Q :=
  Q_of_double
    (PrimFloat.mul (PrimFloat.div (double_of_int advances)
                                  (double_of_int units_per_em))
                   (double_of_int size_px)).

(** Agreement on every slide of every run of up to [nmax] slides. *)
Definition agree_upto (width : Z) (nmax : nat) : bool :=
  forallb (fun n =>
             forallb (fun i => Qeq_bool (bar_product_double width i n)
                                        (bar_product width i n))
                     (seq 0 n))
          (seq 1 nmax).

End Float64Check.

(** ** Python strings *)

(** A [str] is a sequence of code points. *)
Definition text := list Z.

Definition of_ascii (s : string) : text :=
  map (fun a => Z.of_N (N_of_ascii a)) (list_ascii_of_string s).

Definition truthy (s : text) : bool :=
  match s with [] => false | _ => true end.

(** [str.isspace] of one code point: the characters [str.split()] and
    [str.strip()] treat as separators. *)
Definition is_space (c : Z) : bool :=
  ((9 <=? c) && (c <=? 13)) || ((28 <=? c) && (c <=? 32))
  || (c =? 133) || (c =? 160) || (c =? 5760)
  || ((8192 <=? c) && (c <=? 8202))
  || (c =? 8232) || (c =? 8233) || (c =? 8239) || (c =? 8287) || (c =? 12288).

(** [text.split()]: the maximal runs of non-space characters, [cur] being the
    run read so far. *)
Fixpoint split_from (cur s : text) : list text :=
  match s with
  | [] => if truthy cur then [cur] else []
  | c :: r =>
      if is_space c
      then (if truthy cur then cur :: split_from [] r else split_from [] r)
      else split_from (cur ++ [c]) r
  end.

Definition split (s : text) : list text := split_from [] s.

Fixpoint lstrip (s : text) : text :=
  match s with
  | c :: r => if is_space c then lstrip r else s
  | [] => []
  end.

Definition strip (s : text) : text := rev (lstrip (rev (lstrip s))).

Definition space : text := [32].

(** [" ".join(ws)] *)
Fixpoint join_space (ws : list text) : text :=
  match ws with
  | [] => []
  | [w] => w
  | w :: r => w ++ space ++ join_space r
  end.

(** [contains_complex_script] *)
Definition contains_complex_script (t : text) : bool :=
  existsb (fun ch => (2304 <=? ch) && (ch <=? 4095)) t.

(** Configuration strings. *)
Definition lower_ascii (a : ascii) : ascii :=
  let n := N_of_ascii a in
  if ((65 <=? n) && (n <=? 90))%N then ascii_of_N (n + 32) else a.

Fixpoint lower (s : string) : string :=
  match s with
  | EmptyString => EmptyString
  | String a r => String (lower_ascii a) (lower r)
  end.

Fixpoint rev_string (acc s : string) : string :=
  match s with
  | EmptyString => acc
  | String a r => rev_string (String a acc) r
  end.

Definition endswith (s suffix : string) : bool :=
  prefix (rev_string EmptyString suffix) (rev_string EmptyString s).

Definition endswith_any (s : string) (l : list string) : bool :=
  existsb (endswith s) l.

(** [sub in s] for strings. *)
Fixpoint contains (sub s : string) : bool :=
  prefix sub s ||
  match s with
  | EmptyString => false
  | String _ r => contains sub r
  end.

(** ** Outcomes: return, exception, or no answer within the fuel *)

Inductive exn : Type :=
| IsADirectoryError
| UnidentifiedImageError
| FileNotFoundError
| FT_Exception
| ValueError
| OSError.

Inductive outcome (A : Type) : Type :=
| Done (a : A)
| Raised (e : exn)
| OutOfFuel.
Arguments Done {A} a.
Arguments Raised {A} e.
Arguments OutOfFuel {A}.

Definition bind {A B : Type} (m : outcome A) (k : A -> outcome B) : outcome B :=
  match m with
  | Done a => k a
  | Raised e => Raised e
  | OutOfFuel => OutOfFuel
  end.

Notation "x <- m ;; k" := (bind m (fun x => k))
  (at level 61, m at next level, right associativity).

(** [try: m  except: h] with a bare [except]. *)
Definition try_except {A : Type} (m : outcome A) (h : outcome A) : outcome A :=
  match m with
  | Raised _ => h
  | _ => m
  end.

(** ** The world outside the program *)

Inductive fnode : Type :=
| FImage                      (* a file PIL can open as an image *)
| FFont                       (* a file FreeType and PIL can open as a font *)
| FOther                      (* any other regular file *)
| FDir (names : list string). (* a directory and what [os.listdir] returns *)

(** One shaped glyph: [glyph_infos[i].codepoint] and [glyph_positions[i]]. *)
Record glyph : Type := {
  gid : Z;
  x_advance : Z;
  x_offset : Z;
  y_offset : Z
}.

Inductive font : Type :=
| TrueType (path : string) (size : Z)
| DefaultFont.

Definition rgb : Type := Z * Z * Z.
Definition rgba : Type := Z * Z * Z * Z.

(** What an audio clip delivers at one instant. *)
Inductive sound : Type :=
| Sample (file : string) (t : Q)   (* the recording in [file] at time [t] *)
| Silence.

Record World : Type := {
  fs : string -> option fnode;
  (** HarfBuzz on the font of the run: [hb_face.upem] and the shaped buffer. *)
  upem : positive;
  hb_shape : text -> list glyph;
  (** FreeType: [bitmap_left] and [bitmap_top] of a glyph id at a size. *)
  ft_bitmap : Z -> Z -> Z * Z;
  (** PIL: [font.getsize] and [draw.textsize]. *)
  pil_getsize : font -> text -> Z * Z;
  pil_textsize : font -> text -> Z * Z;
  (** [textwrap.wrap(text, width=28)] *)
  textwrap_wrap : text -> list text;
  (** [ImageColor.getrgb]; [None] is its [ValueError]. *)
  getrgb : string -> option rgb;
  (** The draw of [random.choice] made for slide [i] from [n] files. *)
  random_index : nat -> nat -> nat;
  (** Duration of a narration or music file as moviepy reports it. *)
  audio_file_duration : string -> Q;
  (** What moviepy's reader of such a file delivers for an instant at or
      after the end of the file; [None] is an error of the reader. *)
  audio_past_end : string -> Q -> option sound
}.

Definition exists_path (w : World) (p : string) : bool :=
  match fs w p with Some _ => true | None => false end.

Definition isdir (w : World) (p : string) : bool :=
  match fs w p with Some (FDir _) => true | _ => false end.

Definition listdir (w : World) (p : string) : list string :=
  match fs w p with Some (FDir names) => names | _ => [] end.

(** [os.path.join(d, f)] for a relative [f]. *)
Definition path_join (d f : string) : string :=
  if endswith d "/" || (d =? "")%string then (d ++ f)%string
  else (d ++ "/" ++ f)%string.

(** A Python value used as a condition: [None] and the empty string are
    false. *)
Definition given (p : option string) : bool :=
  match p with
  | Some s => negb (s =? "")%string
  | None => false
  end.

Definition path_of (p : option string) : string :=
  match p with Some s => s | None => EmptyString end.

Definition color (w : World) (c : string) : outcome rgb :=
  match getrgb w c with
  | Some v => Done v
  | None => Raised ValueError
  end.

(** [Image.open(p)] on a path that exists. *)
Definition image_open (w : World) (p : string) : outcome unit :=
  match fs w p with
  | Some FImage => Done tt
  | Some (FDir _) => Raised IsADirectoryError
  | Some _ => Raised UnidentifiedImageError
  | None => Raised FileNotFoundError
  end.

(** [freetype.Face(p)] followed by [open(p, "rb").read()]. *)
Definition load_face (w : World) (p : string) : outcome unit :=
  match fs w p with
  | Some FFont => Done tt
  | _ => Raised FT_Exception
  end.

(** [ImageFont.truetype(p, size)] *)
Definition truetype (w : World) (p : string) (size : Z) : outcome font :=
  match fs w p with
  | Some FFont => Done (TrueType p size)
  | _ => Raised OSError
  end.

(** ** [render_text_image] *)

(** The style arguments of [render_text_image], as [generate_images] hands
    them through. *)
Record Style : Type := {
  font_size : Z;
  font_color : string;
  box_color : string;
  box_alpha : Q;
  text_position : string;
  enable_shadow : bool;
  shadow_color : string;
  shadow_offset_x : Z;
  shadow_offset_y : Z
}.

Inductive background : Type :=
| BgImage (path : string)   (* the file, converted and resized to the canvas *)
| BgSolid (fill : rgba).

Inductive draw_op : Type :=
| Paste (g : Z) (fill : rgb) (x y : Z)                      (* one glyph bitmap *)
| DrawText (x y : Q) (line : text) (f : font) (fill : rgb). (* [draw.text] *)

(** What is composited and saved: background, the box rectangle
    [[30, box_top, width - 30, box_bottom]] with its fill, and the text. *)
Record frame : Type := {
  fr_size : Z * Z;
  fr_bg : background;
  fr_box : Z * Q * Z * Q;
  fr_box_fill : rgba;
  fr_ops : list draw_op
}.

(** Python's [min] and [max] of two numbers return the first argument on a
    tie. *)
Definition py_min (a b : Q) : Q := if Qle_bool a b then a else b.
Definition py_max (a b : Q) : Q := if Qle_bool b a then a else b.

(** [int(max(0.0, min(1.0, box_alpha)) * 255)] *)
Definition box_alpha_255 (alpha : Q) : Z :=
  Float64.to_int (Float64.mul (py_max 0%Q (py_min 1%Q alpha)) 255%Q).

Definition advance_sum (buf : list glyph) : Z :=
  fold_right Z.add 0 (map x_advance buf).

(** [sum(pos.x_advance) / upem * size_px] on doubles: the quotient of the
    two integers rounded, then its product with [float(size_px)] rounded. *)
Definition shaped_width (advances : Z) (units_per_em : positive) (size_px : Z)
  : Q :=
  Float64.mul
    (Float64.div (inject_Z advances) (inject_Z (Zpos units_per_em)))
    (Float64.of_int size_px).

(** [shape_line]: the shaped buffer and its width. *)
Definition shape_line (w : World) (txt : text) (size_px : Z)
  : list glyph * Q :=
  let buf := hb_shape w txt in
  (buf, shaped_width (advance_sum buf) (upem w) size_px).

(** [w <= max_width]: Python compares the double with the integer exactly. *)
Definition fits (w : World) (size_px max_width : Z) (txt : text) : bool :=
  Qle_bool (snd (shape_line w txt size_px)) (inject_Z max_width).

(** The [while words:] loop.  One unit of fuel per test of the loop
    condition. *)
Fixpoint wrap_loop (w : World) (size_px max_width : Z) (fuel : nat)
    (words lines : list text) (current : text) : outcome (list text) :=
  match fuel with
  | O => OutOfFuel
  | S fuel' =>
      match words with
      | [] => Done (if truthy current then lines ++ [current] else lines)
      | w0 :: rest =>
          let trial := if truthy current then current ++ space ++ w0 else w0 in
          if fits w size_px max_width trial
          then wrap_loop w size_px max_width fuel' rest lines trial
          else wrap_loop w size_px max_width fuel' words (lines ++ [current]) []
      end
  end.

(** Lines of a passage on the complex path: [text.split()] and the loop. *)
Definition complex_lines (w : World) (size_px width : Z) (fuel : nat)
    (txt : text) : outcome (list text) :=
  wrap_loop w size_px (width - 100) fuel (split txt) [] [].

Definition line_spacing : Q := 13 # 10.

(** [total_h] of the complex path. *)
Definition total_h_complex (nlines : nat) (size_px : Z) : Q :=
  (inject_Z (Z.of_nat nlines) * inject_Z size_px * line_spacing + 40)%Q.

(** [total_h] of the simple path. *)
Definition total_h_simple (nlines : nat) (line_h : Z) : Z :=
  Z.of_nat nlines * (line_h + 10).

(** The vertical anchor [y] of the complex path. *)
Definition anchor_complex (position : string) (height : Z) (total_h : Q) : Q :=
  if (position =? "top")%string then 60%Q
  else if (position =? "bottom")%string
  then inject_Z (Z.max (height - Float64.to_int total_h - 60) 30)
  else inject_Z (Z.max (Qfloor ((inject_Z height - total_h) / 2)%Q) 30).

(** The vertical anchor [y] of the simple path. *)
Definition anchor_simple (position : string) (height total_h : Z) : Z :=
  if (position =? "top")%string then 60
  else if (position =? "bottom")%string
  then Z.max (height - total_h - 60) 30
  else Z.max ((height - total_h) / 2) 30.

(** Glyphs of one shaped line, from pen position [x] on baseline row [y]. *)
Fixpoint stamp_glyphs (w : World) (st : Style) (font_rgb shadow_rgb : rgb)
    (y x : Q) (buf : list glyph) : list draw_op :=
  match buf with
  | [] => []
  | g :: rest =>
      let size_px := font_size st in
      let u := inject_Z (Zpos (upem w)) in
      let '(bmp_left, bmp_top) := ft_bitmap w size_px (gid g) in
      let pos_x :=
        Float64.to_int (x + (inject_Z (x_offset g) / u) * inject_Z size_px)%Q + bmp_left in
      let pos_y :=
        Float64.to_int (y + inject_Z (size_px - bmp_top)
                        + (inject_Z (y_offset g) / u) * inject_Z size_px)%Q in
      (if enable_shadow st
       then [Paste (gid g) shadow_rgb
               (pos_x + shadow_offset_x st) (pos_y + shadow_offset_y st)]
       else [])
      ++ Paste (gid g) font_rgb pos_x pos_y
      :: stamp_glyphs w st font_rgb shadow_rgb y
           (x + (inject_Z (x_advance g) / u) * inject_Z size_px)%Q rest
  end.

Fixpoint stamp_lines (w : World) (st : Style) (font_rgb shadow_rgb : rgb)
    (width : Z) (y : Q) (lines : list text) : list draw_op :=
  match lines with
  | [] => []
  | line :: rest =>
      let '(buf, line_width) := shape_line w line (font_size st) in
      let x := ((inject_Z width - line_width) / 2)%Q in
      stamp_glyphs w st font_rgb shadow_rgb y x buf
      ++ stamp_lines w st font_rgb shadow_rgb width
           (y + inject_Z (font_size st) * line_spacing)%Q rest
  end.

Fixpoint draw_lines (w : World) (st : Style) (f : font)
    (font_rgb shadow_rgb : rgb) (width line_h y : Z) (lines : list text)
  : list draw_op :=
  match lines with
  | [] => []
  | line :: rest =>
      let x := ((inject_Z width - inject_Z (fst (pil_textsize w f line))) / 2)%Q in
      (if enable_shadow st
       then [DrawText (x + inject_Z (shadow_offset_x st))%Q
               (inject_Z (y + shadow_offset_y st)) line f shadow_rgb]
       else [])
      ++ DrawText x (inject_Z y) line f font_rgb
      :: draw_lines w st f font_rgb shadow_rgb width line_h (y + (line_h + 10)) rest
  end.

Definition solid_fill : rgba := (40, 40, 40, 255).

(** The background of one slide: [Image.open] when the path is given and
    exists, the solid fill otherwise. *)
Definition load_background (w : World) (bg_path : option string)
  : outcome background :=
  if given bg_path && exists_path w (path_of bg_path)
  then _ <- image_open w (path_of bg_path) ;; Done (BgImage (path_of bg_path))
  else Done (BgSolid solid_fill).

(** The font of the simple path: [ImageFont.truetype], and
    [ImageFont.load_default()] under the bare [except]. *)
Definition load_simple_font (w : World) (font_path : string) (size_px : Z)
  : outcome font :=
  try_except (truetype w font_path size_px) (Done DefaultFont).

Definition render_text_image (w : World) (fuel : nat) (txt : text)
    (font_path : string) (size : Z * Z) (bg_path : option string) (st : Style)
  : outcome frame :=
  let '(width, height) := size in
  bg <- load_background w bg_path ;;
  box_rgb <- color w (box_color st) ;;
  let box_rgba : rgba := (box_rgb, box_alpha_255 (box_alpha st)) in
  shadow_rgb <- color w (shadow_color st) ;;
  if contains_complex_script txt then
    _ <- load_face w font_path ;;
    font_rgb <- color w (font_color st) ;;
    lines <- complex_lines w (font_size st) width fuel txt ;;
    let total_h := total_h_complex (List.length lines) (font_size st) in
    let y := anchor_complex (text_position st) height total_h in
    Done {| fr_size := size;
            fr_bg := bg;
            fr_box := (30, (y - 20)%Q, width - 30, (y + total_h)%Q);
            fr_box_fill := box_rgba;
            fr_ops := stamp_lines w st font_rgb shadow_rgb width y lines |}
  else
    f <- load_simple_font w font_path (font_size st) ;;
    let wrapped := textwrap_wrap w txt in
    let lines := match wrapped with [] => [txt] | _ => wrapped end in
    let line_h := snd (pil_getsize w f (of_ascii "A")) in
    let total_h := total_h_simple (List.length lines) line_h in
    let y := anchor_simple (text_position st) height total_h in
    font_rgb <- color w (font_color st) ;;
    Done {| fr_size := size;
            fr_bg := bg;
            fr_box := (30, inject_Z (y - 20), width - 30, inject_Z (y + total_h + 20));
            fr_box_fill := box_rgba;
            fr_ops := draw_lines w st f font_rgb shadow_rgb width line_h y lines |}.

(** ** moviepy clips *)

Definition Qlt_bool (a b : Q) : bool := negb (Qle_bool b a).

(** An audio clip: the file it reads, the length of that file, and the clip's
    [duration] attribute.  [set_duration] changes the attribute only: the
    file holds no samples between its end and [a_duration]. *)
Record aclip : Type := {
  a_path : string;
  a_file_duration : Q;
  a_duration : Q
}.

Definition AudioFileClip (w : World) (p : string) : aclip :=
  {| a_path := p;
     a_file_duration := audio_file_duration w p;
     a_duration := audio_file_duration w p |}.

Definition a_set_duration (a : aclip) (d : Q) : aclip :=
  {| a_path := a_path a; a_file_duration := a_file_duration a; a_duration := d |}.


(** [ImageClip(img).set_duration(d).set_audio(a).resize(size)] *)
Record image_clip : Type := {
  ic_image : string;
  ic_duration : Q;
  ic_audio : aclip;
  ic_size : Z * Z
}.

(** [ColorClip(size, color).set_duration(d).set_position(pos)] *)
Record color_clip : Type := {
  cc_size : Z * Z;
  cc_color : rgb;
  cc_duration : Q;
  cc_position : string * string
}.

(** [AudioFileClip(p).volumex(v)] looped to a duration. *)
Record music_clip : Type := {
  mu_path : string;
  mu_volume : Q;
  mu_duration : Q
}.

Record logo_clip : Type := {
  lg_path : string;
  lg_width : Q;
  lg_opacity : Q;
  lg_margins : list (string * Z);
  lg_duration : Q;
  lg_position : string * string
}.

(** One element of a concatenation: a slide, or
    [CompositeVideoClip([base_clip, bar_bg, bar_fg])]. *)
Inductive unit_clip : Type :=
| Plain (c : image_clip)
| WithBar (c : image_clip) (bar_bg bar_fg : color_clip).

Inductive vclip : Type :=
| Concatenate (units : list unit_clip)
| MixAudio (c : vclip) (m : music_clip)   (* [set_audio(CompositeAudioClip([c.audio, m]))] *)
| Overlay (c : vclip) (l : logo_clip)     (* [CompositeVideoClip([c, l])] *)
| FadeIn (c : vclip) (d : Q)
| FadeOut (c : vclip) (d : Q).

Definition base_clip (u : unit_clip) : image_clip :=
  match u with Plain c => c | WithBar c _ _ => c end.

Definition unit_duration (u : unit_clip) : Q := ic_duration (base_clip u).

Definition Qsum (l : list Q) : Q := fold_right Qplus 0%Q l.

Fixpoint duration (c : vclip) : Q :=
  match c with
  | Concatenate units => Qsum (map unit_duration units)
  | MixAudio c _ | Overlay c _ | FadeIn c _ | FadeOut c _ => duration c
  end.

(** [str(n)] of a slide index. *)
Definition dec (n : nat) : string := NilEmpty.string_of_uint (Nat.to_uint n).

(** ** [generate_all_audios] *)

(** One call of [generate_tts]: the text to speak and the file to save. *)
Record tts_task : Type := {
  tts_text : text;
  tts_out : string;
  tts_voice : string;
  tts_rate : string
}.

(** The [for i, text in enumerate(chunks)] loop, from chunk [i] on. *)
Fixpoint tts_tasks (voice rate out_dir : string) (i : nat) (chunks : list text)
  : list tts_task :=
  match chunks with
  | [] => []
  | txt :: rest =>
      {| tts_text := txt;
         tts_out := path_join out_dir ("chunk_" ++ dec i ++ ".mp3")%string;
         tts_voice := voice;
         tts_rate := rate |}
      :: tts_tasks voice rate out_dir (S i) rest
  end.

(** The tasks [generate_all_audios] gathers. *)
Definition generate_all_audios (chunks : list text) (voice rate out_dir : string)
  : list tts_task :=
  tts_tasks voice rate out_dir 0 chunks.

(** ** Effects a caller can observe *)

Inductive event : Type :=
| Printed (msg : string)
| Narrated (tasks : list tts_task)         (* [asyncio.gather] of the tasks *)
| Saved (path : string) (f : frame)        (* [final.save(out_path)] *)
| Written (path : string) (v : vclip).     (* [write_videofile] *)

Definition trace : Type := list event.

(** ** [generate_images] *)

Definition image_exts : list string :=
  [".png"; ".jpg"; ".jpeg"; ".webp"; ".bmp"]%string.

(** [bg_files]: the image files of a background folder, [None] when the
    background is no folder or the folder holds none. *)
Definition bg_files_of (w : World) (bg_img : option string)
  : option (list string) :=
  if given bg_img && isdir w (path_of bg_img) then
    match
      map (path_join (path_of bg_img))
          (filter (fun f => endswith_any (lower f) image_exts)
                  (listdir w (path_of bg_img)))
    with
    | [] => None
    | files => Some files
    end
  else None.

(** [chosen_bg] for slide [i]. *)
Definition chosen_bg (w : World) (bg_img : option string)
    (bg_files : option (list string)) (i : nat) : option string :=
  match bg_files with
  | Some files =>
      Some (nth (random_index w i (List.length files) mod List.length files)%nat
                files EmptyString)
  | None => bg_img
  end.

(** The [for i, txt in enumerate(chunks)] loop, from slide [i] on. *)
Fixpoint generate_loop (w : World) (fuel : nat) (font_path image_dir : string)
    (bg_img : option string) (bg_files : option (list string)) (st : Style)
    (size : Z * Z) (i : nat) (chunks : list text) (paths : list string)
    (tr : trace) : outcome (list string) * trace :=
  match chunks with
  | [] => (Done paths, tr)
  | txt :: rest =>
      let out := path_join image_dir ("img_" ++ dec i ++ ".png")%string in
      match render_text_image w fuel txt font_path size
              (chosen_bg w bg_img bg_files i) st with
      | Done f =>
          generate_loop w fuel font_path image_dir bg_img bg_files st size
            (S i) rest (paths ++ [out]) (tr ++ [Saved out f])
      | Raised e => (Raised e, tr)
      | OutOfFuel => (OutOfFuel, tr)
      end
  end.

Definition generate_images (w : World) (fuel : nat) (chunks : list text)
    (font_path image_dir : string) (bg_img : option string) (st : Style)
    (size : Z * Z) (tr : trace) : outcome (list string) * trace :=
  generate_loop w fuel font_path image_dir bg_img (bg_files_of w bg_img) st
    size 0%nat chunks [] tr.

(** ** [assemble_video] *)

(** The clip of slide [i]: the narration, its duration raised to
    [min_duration], and the image. *)
Definition slide_clip (w : World) (audio_dir : string) (size : Z * Z)
    (min_duration : Q) (i : nat) (img : string) : image_clip :=
  let audio := AudioFileClip w (path_join audio_dir ("chunk_" ++ dec i ++ ".mp3")%string) in
  let d := a_duration audio in
  if Qlt_bool 0 min_duration && Qlt_bool d min_duration
  then {| ic_image := img; ic_duration := min_duration;
          ic_audio := a_set_duration audio min_duration; ic_size := size |}
  else {| ic_image := img; ic_duration := d; ic_audio := audio; ic_size := size |}.

Fixpoint slide_clips (w : World) (audio_dir : string) (size : Z * Z)
    (min_duration : Q) (i : nat) (images : list string) : list image_clip :=
  match images with
  | [] => []
  | img :: rest =>
      slide_clip w audio_dir size min_duration i img
      :: slide_clips w audio_dir size min_duration (S i) rest
  end.

(** [int(size[0] * (float(idx + 1) / total_slides))] *)
Definition bar_width (width : Z) (idx total_slides : nat) : Z :=
  Float64.to_int
    (Float64.mul (Float64.of_int width)
       (Float64.div (Float64.of_int (Z.of_nat idx + 1))
                    (Float64.of_int (Z.of_nat total_slides)))).

Definition with_bar (size : Z * Z) (bar_rgb : rgb) (progress_height : Z)
    (total_slides idx : nat) (c : image_clip) : unit_clip :=
  WithBar c
    {| cc_size := (fst size, progress_height); cc_color := (30, 30, 30);
       cc_duration := ic_duration c; cc_position := ("center", "bottom")%string |}
    {| cc_size := (bar_width (fst size) idx total_slides, progress_height);
       cc_color := bar_rgb;
       cc_duration := ic_duration c; cc_position := ("left", "bottom")%string |}.

Fixpoint with_bars (size : Z * Z) (bar_rgb : rgb) (progress_height : Z)
    (total_slides idx : nat) (clips : list image_clip) : list unit_clip :=
  match clips with
  | [] => []
  | c :: rest =>
      with_bar size bar_rgb progress_height total_slides idx c
      :: with_bars size bar_rgb progress_height total_slides (S idx) rest
  end.

Definition pos_map (logo_position : string) : string * string :=
  (if (logo_position =? "top-left") then ("left", "top")
   else if (logo_position =? "top-right") then ("right", "top")
   else if (logo_position =? "bottom-left") then ("left", "bottom")
   else if (logo_position =? "bottom-right") then ("right", "bottom")
   else if (logo_position =? "bottom-center") then ("center", "bottom")
   else ("center", "top"))%string.

Definition logo_margins (logo_position : string) : list (string * Z) :=
  List.app
    (if contains "bottom" logo_position
     then [("bottom"%string, 20)] else [("top"%string, 20)])
    (if contains "left" logo_position then [("left"%string, 20)]
     else if contains "right" logo_position then [("right"%string, 20)] else []).

Record Overlays : Type := {
  logo_path : option string;
  logo_position : string;
  logo_opacity : Q;
  min_duration : Q;
  enable_progress_bar : bool;
  progress_color : string;
  progress_height : Z
}.

(** The value of [final] before the fades, and what was printed. *)
Definition compose (w : World) (images : list string) (audio_dir : string)
    (bg_music : option string) (size : Z * Z) (o : Overlays)
  : vclip * list event :=
  let clips := slide_clips w audio_dir size (min_duration o) 0%nat images in
  let final := Concatenate (map Plain clips) in
  let final :=
    if given bg_music && exists_path w (path_of bg_music)
    then MixAudio final
           {| mu_path := path_of bg_music; mu_volume := Float64.lit (1 # 10);
              mu_duration := duration final |}
    else final in
  let '(final, warn1) :=
    if given (logo_path o) && exists_path w (path_of (logo_path o))
    then
      match image_open w (path_of (logo_path o)) with
      | Done _ =>
          (Overlay final
             {| lg_path := path_of (logo_path o);
                lg_width := Float64.mul (Float64.of_int (fst size)) (Float64.lit (2 # 10));
                lg_opacity := py_max 0%Q (py_min 1%Q (logo_opacity o));
                lg_margins := logo_margins (logo_position o);
                lg_duration := duration final;
                lg_position := pos_map (logo_position o) |}, [])
      | _ => (final, [Printed "[WARN] Could not overlay logo"])
      end
    else (final, []) in
  if enable_progress_bar o && negb (Nat.eqb (List.length clips) 0)
  then
    match getrgb w (progress_color o) with
    | Some bar_rgb =>
        (Concatenate
           (with_bars size bar_rgb (progress_height o) (List.length clips) 0%nat clips),
         warn1)
    | None => (final, warn1 ++ [Printed "[WARN] Could not draw progress bar"])
    end
  else (final, warn1).

Definition assemble_video (w : World) (images : list string)
    (audio_dir output_path : string) (bg_music : option string)
    (size : Z * Z) (o : Overlays) (tr : trace) : trace :=
  let '(final, warnings) := compose w images audio_dir bg_music size o in
  tr ++ warnings ++ [Written output_path (FadeOut (FadeIn final 1) 1)].

(** ** [main] *)

Record Args : Type := {
  arg_output : string;
  arg_background : option string;
  arg_music : option string;
  arg_font : string;
  arg_voice : string;
  arg_rate : string;
  arg_font_size : Z;
  arg_font_color : string;
  arg_box_color : string;
  arg_box_alpha : Q;
  arg_width : Z;
  arg_height : Z;
  arg_text_position : string;
  arg_style : string;
  arg_enable_shadow : bool;
  arg_shadow_color : string;
  arg_shadow_offset_x : Z;
  arg_shadow_offset_y : Z;
  arg_overlays : Overlays
}.

(** The preset block of [main]: [text_position], [font_color], [box_color]
    and [box_alpha] after [--style]. *)
Definition resolve_style (a : Args) : Style :=
  let base (position fcolor bcolor : string) (alpha : Q) :=
    {| font_size := arg_font_size a;
       font_color := fcolor;
       box_color := bcolor;
       box_alpha := alpha;
       text_position := position;
       enable_shadow := arg_enable_shadow a;
       shadow_color := arg_shadow_color a;
       shadow_offset_x := arg_shadow_offset_x a;
       shadow_offset_y := arg_shadow_offset_y a |} in
  if (arg_style a =? "caption")%string
  then base "top"%string "#FFFF00"%string "#000000"%string (Float64.lit (7 # 10))
  else if (arg_style a =? "subtitle")%string
  then base "bottom"%string "#FFFFFF"%string "#000000"%string (Float64.lit (7 # 10))
  else base (arg_text_position a) (arg_font_color a) (arg_box_color a)
            (arg_box_alpha a).

(** [chunks]: the stripped non-empty lines of the input file. *)
Definition chunks_of (lines : list text) : list text :=
  filter truthy (map strip lines).

(** [main] on the lines of the input file. *)
Definition main (w : World) (fuel : nat) (a : Args) (input : list text)
  : outcome unit * trace :=
  let chunks := chunks_of input in
  let tr :=
    [Printed ("[INFO] Generating TTS for " ++ dec (List.length chunks) ++ " chunks...");
     Narrated (generate_all_audios chunks (arg_voice a) (arg_rate a) "audio_chunks");
     Printed "[INFO] Rendering images..."] in
  let size := (arg_width a, arg_height a) in
  match generate_images w fuel chunks (arg_font a) "images" (arg_background a)
          (resolve_style a) size tr with
  | (Done images, tr) =>
      let tr := tr ++ [Printed "[INFO] Assembling final video..."] in
      let tr :=
        assemble_video w images "audio_chunks" (arg_output a) (arg_music a)
          size (arg_overlays a) tr in
      (Done tt, tr ++ [Printed ("[DONE] Video saved at: " ++ arg_output a)])
  | (Raised e, tr) => (Raised e, tr)
  | (OutOfFuel, tr) => (OutOfFuel, tr)
  end.

(** ** A concrete world for the examples

    A font in which every code point shapes to one glyph of advance 600 at
    1000 units per em, a directory [bg] without image files, a directory
    [photos] with two, and narration files of 3/2 and 2 seconds whose reader
    fails past their end. *)
Module Demo.

Definition files (p : string) : option fnode :=
  (if p =? "font.ttf" then Some FFont
   else if p =? "broken.ttf" then Some FOther
   else if p =? "bg" then Some (FDir ["notes.txt"; "README"])
   else if p =? "photos" then Some (FDir ["a.PNG"; "b.jpg"; "c.txt"])
   else if p =? "photos/a.PNG" then Some FImage
   else if p =? "photos/b.jpg" then Some FImage
   else if p =? "back.png" then Some FImage
   else None)%string.

Definition shape (t : text) : list glyph :=
  map (fun c => {| gid := c; x_advance := 600; x_offset := 0; y_offset := 0 |}) t.

Definition hex (s : string) : option rgb :=
  (if s =? "#FFFFFF" then Some (255, 255, 255)
   else if s =? "#000000" then Some (0, 0, 0)
   else if s =? "#FFFF00" then Some (255, 255, 0)
   else None)%string.

Definition durations (p : string) : Q :=
  (if p =? "audio_chunks/chunk_0.mp3" then 3 # 2
   else if p =? "audio_chunks/chunk_1.mp3" then 2
   else 1)%string%Q.

Definition world : World :=
  {| fs := files;
     upem := 1000;
     hb_shape := shape;
     ft_bitmap := fun _ _ => (0, 0);
     pil_getsize := fun _ _ => (15, 25);
     pil_textsize := fun _ t => (15 * Z.of_nat (List.length t), 25);
     textwrap_wrap := fun t => match t with [] => [] | _ => [t] end;
     getrgb := hex;
     random_index := fun i _ => i;
     audio_file_duration := durations;
     audio_past_end := fun _ _ => None |}.

Definition style : Style :=
  {| font_size := 60; font_color := "#FFFFFF"; box_color := "#000000";
     box_alpha := Float64.lit (6 # 10); text_position := "center";
     enable_shadow := false; shadow_color := "#000000";
     shadow_offset_x := 2; shadow_offset_y := 2 |}.

Definition overlays : Overlays :=
  {| logo_path := None; logo_position := "top-center"; logo_opacity := 1;
     min_duration := 0; enable_progress_bar := false;
     progress_color := "#FFFFFF"; progress_height := 6 |}.

Definition args : Args :=
  {| arg_output := "review_output.mp4"; arg_background := None;
     arg_music := None; arg_font := "font.ttf";
     arg_voice := "hi-IN-SwaraNeural"; arg_rate := "+10%"; arg_font_size := 60;
     arg_font_color := "#FFFFFF"; arg_box_color := "#000000";
     arg_box_alpha := Float64.lit (6 # 10);
     arg_width := 720; arg_height := 1280;
     arg_text_position := "center"; arg_style := "default";
     arg_enable_shadow := false; arg_shadow_color := "#000000";
     arg_shadow_offset_x := 2; arg_shadow_offset_y := 2;
     arg_overlays := overlays |}.

(** Devanagari words of two, three and eleven code points. *)
Definition w2 : text := [2344; 2350].
Definition w3 : text := [2360; 2381; 2340].
Definition w11 : text := [2325; 2326; 2327; 2328; 2330; 2331; 2332; 2333; 2335; 2336; 2337].
Definition w18 : text := w11 ++ [2338; 2339; 2340; 2341; 2342; 2343; 2344].

Definition progress_overlays : Overlays :=
  {| logo_path := None; logo_position := "top-center"; logo_opacity := 1;
     min_duration := 0; enable_progress_bar := true;
     progress_color := "#FFFFFF"; progress_height := 6 |}.

Definition two_images : list string :=
  ["images/img_0.png"; "images/img_1.png"]%string.

End Demo.

(** ** Vocabulary of the properties *)

(** Width of a line as [shape_line] measures it. *)
Definition line_width (w : World) (size_px : Z) (l : text) : Q :=
  snd (shape_line w l size_px).

(** The usable width: [max_width = size[0] - 100]. *)
Definition usable_width (width : Z) : Q := inject_Z (width - 100).

(** The advance of a line in pixels as a real number, before any rounding:
    the sum of the glyph advances in font units, scaled by
    [size_px / upem]. *)
Definition exact_width (w : World) (size_px : Z) (l : text) : Q :=
  (inject_Z (advance_sum (hb_shape w l)) / inject_Z (Zpos (upem w))
   * inject_Z size_px)%Q.

(** [shaped_width] computes what the kernel's doubles compute, on the
    advance sums [step], [2 * step], ..., [count * step]. *)
Definition widths_agree (step : Z) (count : nat) (units_per_em : positive)
    (size_px : Z) : bool :=
  forallb (fun k =>
             Qeq_bool (Float64Check.width_double (step * Z.of_nat k)
                         (Zpos units_per_em) size_px)
                      (shaped_width (step * Z.of_nat k) units_per_em size_px))
          (seq 1 count).

(** A word of twenty-eight letters, and a font whose glyphs advance 700 of
    1000 units: at size 50 the word is exactly 980 pixels wide. *)
Definition w28 : text := repeat 2325 28.

Definition wide_font : World :=
  {| fs := fs Demo.world;
     upem := 1000;
     hb_shape := map (fun c => {| gid := c; x_advance := 700; x_offset := 0;
                                  y_offset := 0 |});
     ft_bitmap := ft_bitmap Demo.world;
     pil_getsize := pil_getsize Demo.world;
     pil_textsize := pil_textsize Demo.world;
     textwrap_wrap := textwrap_wrap Demo.world;
     getrgb := getrgb Demo.world;
     random_index := random_index Demo.world;
     audio_file_duration := audio_file_duration Demo.world;
     audio_past_end := audio_past_end Demo.world |}.

(** The passage of the example: four words broken into two lines. *)
Definition demo_passage : text :=
  Demo.w11 ++ space ++ Demo.w2 ++ space ++ Demo.w3 ++ space ++ Demo.w11.

(** The anchor rule in the words of the specification: the top row of the
    text block from the canvas height and the height of the block.  The
    fixed top and bottom margins are 60 and the minimum margin is 30, the
    numbers of the code. *)
Definition anchor_claimed (position : string) (height : Z) (block_h : Q) : Q :=
  if (position =? "top")%string then 60%Q
  else if (position =? "bottom")%string
  then Qmax (inject_Z height - block_h - 60)%Q 30%Q
  else Qmax ((inject_Z height - block_h) / 2)%Q 30%Q.

(** The rule on whole pixels: under [bottom] the block height is truncated
    to an integer first, under [center] the half is rounded down. *)
Definition anchor_pixels (position : string) (height : Z) (block_h : Q) : Z :=
  if (position =? "top")%string then 60
  else if (position =? "bottom")%string
  then Z.max (height - Float64.to_int block_h - 60) 30
  else Z.max (Qfloor ((inject_Z height - block_h) / 2)%Q) 30.

(** What [assemble_video] guarantees of one slide clip under the floor
    [min_duration]. *)
Definition duration_floor_ok (w : World) (m : Q) (c : image_clip) : Prop :=
  let narration := audio_file_duration w (a_path (ic_audio c)) in
  ((0 < m)%Q -> (ic_duration c == Qmax narration m)%Q)
  /\ (~ (0 < m)%Q -> ic_duration c = narration)
  /\ a_duration (ic_audio c) = ic_duration c
  /\ a_file_duration (ic_audio c) = narration
  /\ (a_file_duration (ic_audio c) <= a_duration (ic_audio c))%Q.





(** The slides of a composed video, in order. *)
Fixpoint units_of (c : vclip) : list unit_clip :=
  match c with
  | Concatenate units => units
  | MixAudio c _ | Overlay c _ | FadeIn c _ | FadeOut c _ => units_of c
  end.

(** No fade has been applied anywhere in the clip. *)
Fixpoint fade_free (c : vclip) : bool :=
  match c with
  | Concatenate _ => true
  | MixAudio c _ | Overlay c _ => fade_free c
  | FadeIn _ _ | FadeOut _ _ => false
  end.

(** The videos a run has written. *)
Definition written (tr : trace) : list vclip :=
  flat_map (fun e => match e with Written _ v => [v] | _ => [] end) tr.

(** The claim of C6 read on a written video: each fade is at most half the
    duration of the timeline it is applied to. *)
Definition fades_clamped (v : vclip) : Prop :=
  match v with
  | FadeOut (FadeIn c fade_in) fade_out =>
      (fade_in <= duration c / 2)%Q /\ (fade_out <= duration c / 2)%Q
  | _ => False
  end.




(** The event is a saved frame. *)
Definition is_saved (e : event) : bool :=
  match e with Saved _ _ => true | _ => false end.

(** A folder none of whose entries has an image extension. *)
Definition no_image_files (w : World) (dir : string) : Prop :=
  isdir w dir = true
  /\ forallb (fun f => negb (endswith_any (lower f) image_exts)) (listdir w dir)
     = true.

(** A run with [--background bg]: the folder [bg] holds [notes.txt] and
    [README] only. *)
Definition empty_folder_args : Args :=
  {| arg_output := arg_output Demo.args;
     arg_background := Some "bg"%string;
     arg_music := arg_music Demo.args;
     arg_font := arg_font Demo.args;
     arg_voice := arg_voice Demo.args;
     arg_rate := arg_rate Demo.args;
     arg_font_size := arg_font_size Demo.args;
     arg_font_color := arg_font_color Demo.args;
     arg_box_color := arg_box_color Demo.args;
     arg_box_alpha := arg_box_alpha Demo.args;
     arg_width := arg_width Demo.args;
     arg_height := arg_height Demo.args;
     arg_text_position := arg_text_position Demo.args;
     arg_style := arg_style Demo.args;
     arg_enable_shadow := arg_enable_shadow Demo.args;
     arg_shadow_color := arg_shadow_color Demo.args;
     arg_shadow_offset_x := arg_shadow_offset_x Demo.args;
     arg_shadow_offset_y := arg_shadow_offset_y Demo.args;
     arg_overlays := arg_overlays Demo.args |}.

(** The fonts with which the text of a frame was drawn. *)
Definition fonts_used (f : frame) : list font :=
  flat_map (fun op => match op with DrawText _ _ _ fnt _ => [fnt] | _ => [] end)
           (fr_ops f).

(** A run with [--font broken.ttf], a file that is not a font. *)
Definition broken_font_args : Args :=
  {| arg_output := arg_output Demo.args;
     arg_background := arg_background Demo.args;
     arg_music := arg_music Demo.args;
     arg_font := "broken.ttf"%string;
     arg_voice := arg_voice Demo.args;
     arg_rate := arg_rate Demo.args;
     arg_font_size := arg_font_size Demo.args;
     arg_font_color := arg_font_color Demo.args;
     arg_box_color := arg_box_color Demo.args;
     arg_box_alpha := arg_box_alpha Demo.args;
     arg_width := arg_width Demo.args;
     arg_height := arg_height Demo.args;
     arg_text_position := arg_text_position Demo.args;
     arg_style := arg_style Demo.args;
     arg_enable_shadow := arg_enable_shadow Demo.args;
     arg_shadow_color := arg_shadow_color Demo.args;
     arg_shadow_offset_x := arg_shadow_offset_x Demo.args;
     arg_shadow_offset_y := arg_shadow_offset_y Demo.args;
     arg_overlays := arg_overlays Demo.args |}.

(** The frames a run has saved. *)
Definition saved_frames (tr : trace) : list (string * frame) :=
  flat_map (fun e => match e with Saved p f => [(p, f)] | _ => [] end) tr.

(** Widths of the foreground bars of a composed video, slide by slide. *)
Definition bar_fg_widths (c : vclip) : list Z :=
  flat_map (fun u => match u with
                     | WithBar _ _ fg => [fst (cc_size fg)]
                     | Plain _ => []
                     end)
           (units_of c).

(** Python's [round] of the exact quotient: to the nearest integer, ties to
    even. *)
Definition rounded_bar_width (width : Z) (idx n : nat) : Z :=
  Float64.rne (inject_Z width * (inject_Z (Z.of_nat idx + 1) / inject_Z (Z.of_nat n)))%Q.

(** [st] with another box alpha. *)
Definition with_box_alpha (st : Style) (alpha : Q) : Style :=
  {| font_size := font_size st;
     font_color := font_color st;
     box_color := box_color st;
     box_alpha := alpha;
     text_position := text_position st;
     enable_shadow := enable_shadow st;
     shadow_color := shadow_color st;
     shadow_offset_x := shadow_offset_x st;
     shadow_offset_y := shadow_offset_y st |}.

(** The alpha component of the box fill of a frame. *)
Definition box_fill_alpha (f : frame) : Z := snd (fr_box_fill f).

(** ** Further vocabulary *)

(** [os.path.join(image_dir, f"img_{i}.png")] and
    [os.path.join(audio_dir, f"chunk_{i}.mp3")]. *)
Definition img_path (image_dir : string) (i : nat) : string :=
  path_join image_dir ("img_" ++ dec i ++ ".png").

Definition chunk_path (audio_dir : string) (i : nat) : string :=
  path_join audio_dir ("chunk_" ++ dec i ++ ".mp3").

(** The slide of index [i] as [generate_images] renders it. *)
Definition render_slide (w : World) (fuel : nat) (font_path : string)
    (bg_img : option string) (bg_files : option (list string)) (st : Style)
    (size : Z * Z) (i : nat) (txt : text) : outcome frame :=
  render_text_image w fuel txt font_path size (chosen_bg w bg_img bg_files i) st.

(** [st] with the shadow switched on or off. *)
Definition with_shadow (st : Style) (on : bool) : Style :=
  {| font_size := font_size st;
     font_color := font_color st;
     box_color := box_color st;
     box_alpha := box_alpha st;
     text_position := text_position st;
     enable_shadow := on;
     shadow_color := shadow_color st;
     shadow_offset_x := shadow_offset_x st;
     shadow_offset_y := shadow_offset_y st |}.

(** The shadow stamp of a drawing operation: the same glyph or line, moved
    by the shadow offset and painted in the shadow colour. *)
Definition shadow_of (st : Style) (shadow_rgb : rgb) (op : draw_op) : draw_op :=
  match op with
  | Paste g _ x y =>
      Paste g shadow_rgb (x + shadow_offset_x st) (y + shadow_offset_y st)
  | DrawText x y line f _ =>
      DrawText (x + inject_Z (shadow_offset_x st))%Q
               (y + inject_Z (shadow_offset_y st))%Q line f shadow_rgb
  end.

(** Top and bottom rows of the text box of a frame. *)
Definition box_top (f : frame) : Q := snd (fst (fst (fr_box f))).
Definition box_bottom (f : frame) : Q := snd (fr_box f).
Definition box_left (f : frame) : Z := fst (fst (fst (fr_box f))).
Definition box_right (f : frame) : Z := snd (fst (fr_box f)).

(** The text block of a frame, read off its box.  The box starts 20 rows
    above the top row [y] of the block; it ends at [y + total_h] on the
    complex path and 20 rows below that on the simple path. *)
Definition block_top (f : frame) : Q := (box_top f + 20)%Q.

Definition block_height (complex : bool) (f : frame) : Q :=
  (box_bottom f - block_top f - (if complex then 0 else 20))%Q.

(** The demo style at font size 62 with another anchor, and the frames of
    the two-letter Devanagari passage under it. *)
Definition style_62 (position : string) : Style :=
  {| font_size := 62; font_color := "#FFFFFF"; box_color := "#000000";
     box_alpha := Float64.lit (6 # 10); text_position := position;
     enable_shadow := false; shadow_color := "#000000";
     shadow_offset_x := 2; shadow_offset_y := 2 |}.

Definition no_frame : frame :=
  {| fr_size := (0, 0); fr_bg := BgSolid solid_fill;
     fr_box := (0, 0%Q, 0, 0%Q); fr_box_fill := solid_fill; fr_ops := [] |}.

Definition frame_62 (position : string) : frame :=
  match render_text_image Demo.world 20 Demo.w2 "font.ttf" (720, 1280) None
          (style_62 position) with
  | Done f => f
  | _ => no_frame
  end.

Definition bottom_frame_62 : frame := Eval vm_compute in frame_62 "bottom".
Definition center_frame_62 : frame := Eval vm_compute in frame_62 "center".

(** Every break between two consecutive groups of words was forced: the
    first word of the later group did not fit behind the earlier group. *)
Fixpoint breaks_forced (w : World) (size_px max_width : Z)
    (groups : list (list text)) : bool :=
  match groups with
  | [] => true
  | g :: rest =>
      match rest with
      | (h :: _) :: _ =>
          negb (fits w size_px max_width (join_space g ++ space ++ h))
          && breaks_forced w size_px max_width rest
      | _ => breaks_forced w size_px max_width rest
      end
  end.

(** The events of saving [frames] under the names of the slides from [i]
    on. *)
Definition saved_from (image_dir : string) (i : nat) (frames : list frame)
  : list event :=
  map (fun pf => Saved (fst pf) (snd pf))
      (combine (map (img_path image_dir) (seq i (List.length frames))) frames).

(** [frames] are the rendered slides of [chunks], numbered from [i]. *)
Definition rendered_as (w : World) (fuel : nat) (font_path : string)
    (bg_img : option string) (st : Style) (size : Z * Z) (i : nat)
    (chunks : list text) (frames : list frame) : Prop :=
  Forall2 (fun k_txt f =>
             render_slide w fuel font_path bg_img (bg_files_of w bg_img) st size
               (fst k_txt) (snd k_txt) = Done f)
          (combine (seq i (List.length chunks)) chunks) frames.

(** The demo style with a shadow colour that is no colour. *)
Definition bad_shadow_style : Style :=
  {| font_size := 60; font_color := "#FFFFFF"; box_color := "#000000";
     box_alpha := Float64.lit (6 # 10); text_position := "center";
     enable_shadow := false; shadow_color := "#12";
     shadow_offset_x := 2; shadow_offset_y := 2 |}.

(** [o] with the progress bar switched off, and [o] without a logo. *)
Definition without_progress (o : Overlays) : Overlays :=
  {| logo_path := logo_path o;
     logo_position := logo_position o;
     logo_opacity := logo_opacity o;
     min_duration := min_duration o;
     enable_progress_bar := false;
     progress_color := progress_color o;
     progress_height := progress_height o |}.

Definition without_logo (o : Overlays) : Overlays :=
  {| logo_path := None;
     logo_position := logo_position o;
     logo_opacity := logo_opacity o;
     min_duration := min_duration o;
     enable_progress_bar := enable_progress_bar o;
     progress_color := progress_color o;
     progress_height := progress_height o |}.

(** The logo overlays and the music beds of a composed video. *)
Fixpoint logos_of (c : vclip) : list logo_clip :=
  match c with
  | Concatenate _ => []
  | Overlay c l => l :: logos_of c
  | MixAudio c _ | FadeIn c _ | FadeOut c _ => logos_of c
  end.

Fixpoint musics_of (c : vclip) : list music_clip :=
  match c with
  | Concatenate _ => []
  | MixAudio c m => m :: musics_of c
  | Overlay c _ | FadeIn c _ | FadeOut c _ => musics_of c
  end.

(** The slide clips [assemble_video] builds from [images]. *)
Definition clips_of (w : World) (images : list string) (audio_dir : string)
    (size : Z * Z) (o : Overlays) : list image_clip :=
  slide_clips w audio_dir size (min_duration o) 0%nat images.

(** [--logo-position] choices of [parse_args]. *)
Definition logo_positions : list string :=
  ["top-left"; "top-right"; "bottom-left"; "bottom-right"; "top-center";
   "bottom-center"]%string.

(** The demo world with a logo and a music file beside it. *)
Definition studio_files (p : string) : option fnode :=
  (if p =? "logo.png" then Some FImage
   else if p =? "music.mp3" then Some FOther
   else Demo.files p)%string.

Definition studio : World :=
  {| fs := studio_files;
     upem := upem Demo.world;
     hb_shape := hb_shape Demo.world;
     ft_bitmap := ft_bitmap Demo.world;
     pil_getsize := pil_getsize Demo.world;
     pil_textsize := pil_textsize Demo.world;
     textwrap_wrap := textwrap_wrap Demo.world;
     getrgb := getrgb Demo.world;
     random_index := random_index Demo.world;
     audio_file_duration := audio_file_duration Demo.world;
     audio_past_end := audio_past_end Demo.world |}.

(** Overlays with a floor of five seconds per slide, with a logo, with a
    logo and a progress bar, and with a progress colour that is no
    colour. *)
Definition floor_overlays : Overlays :=
  {| logo_path := None; logo_position := "top-center"; logo_opacity := 1;
     min_duration := 5; enable_progress_bar := false;
     progress_color := "#FFFFFF"; progress_height := 6 |}.

Definition logo_overlays : Overlays :=
  {| logo_path := Some "logo.png"%string; logo_position := "bottom-right";
     logo_opacity := 3 # 2; min_duration := 0; enable_progress_bar := false;
     progress_color := "#FFFFFF"; progress_height := 6 |}.

Definition logo_progress_overlays : Overlays :=
  {| logo_path := Some "logo.png"%string; logo_position := "bottom-right";
     logo_opacity := 1; min_duration := 0; enable_progress_bar := true;
     progress_color := "#FFFFFF"; progress_height := 6 |}.

Definition bad_progress_overlays : Overlays :=
  {| logo_path := None; logo_position := "top-center"; logo_opacity := 1;
     min_duration := 0; enable_progress_bar := true;
     progress_color := "#12"; progress_height := 6 |}.

(** The default canvas. *)
Definition demo_size : Z * Z := (720, 1280).

(** The frame of the two-letter Devanagari passage, without shadow. *)
Definition w2_frame : frame :=
  Eval vm_compute in
    match render_text_image Demo.world 20 Demo.w2 "font.ttf" (720, 1280) None
            (with_shadow Demo.style false) with
    | Done f => f
    | _ => {| fr_size := (0, 0); fr_bg := BgSolid solid_fill;
              fr_box := (0, 0%Q, 0, 0%Q); fr_box_fill := solid_fill;
              fr_ops := [] |}
    end.

(** First and last code point of a string are no white space. *)
Definition starts_clean (s : text) : Prop :=
  match s with c :: _ => is_space c = false | [] => True end.

Definition ends_clean (s : text) : Prop := starts_clean (rev s).

(** A line that holds nothing but white space. *)
Definition blank (s : text) : bool := forallb is_space s.

(** The task lists a run has handed to the narrator. *)
Definition narrated (tr : trace) : list (list tts_task) :=
  flat_map (fun e => match e with Narrated tasks => [tasks] | _ => [] end) tr.

(** Image and narration file of a slide clip. *)
Definition clip_files (c : image_clip) : string * string :=
  (ic_image c, a_path (ic_audio c)).

Definition is_printed (e : event) : bool :=
  match e with Printed _ => true | _ => false end.

(** ** [app.py] *)

(** [box_alpha = box_alpha_255 / 255.0], from the slider value. *)
Definition slider_alpha (k : Z) : Q := Float64.div (Float64.of_int k) 255%Q.

(** Every slider value comes back as the alpha of the box. *)
Definition slider_round_trip : bool :=
  forallb (fun k => box_alpha_255 (slider_alpha (Z.of_nat k)) =? Z.of_nat k)
          (seq 0 256).

(** The demo style with the alpha the form passes on for the slider at its
    default, 160, and the frame of a short Latin passage under it. *)
Definition slider_style : Style := with_box_alpha Demo.style (slider_alpha 160).

Definition slider_frame : frame :=
  Eval vm_compute in
    match render_text_image Demo.world 20 (of_ascii "hello") "font.ttf"
            (720, 1280) None slider_style with
    | Done f => f
    | _ => {| fr_size := (0, 0); fr_bg := BgSolid solid_fill;
              fr_box := (0, 0%Q, 0, 0%Q); fr_box_fill := solid_fill;
              fr_ops := [] |}
    end.

(** [add_arg] of [build_cli_command]: [v] is [None] for Python's [None] and
    otherwise [str(v)], which is empty only for the empty string. *)
Definition add_arg (cmd : list string) (k : string) (v : option string)
  : list string :=
  match v with
  | Some s => if (s =? "")%string then cmd else cmd ++ [k; s]
  | None => cmd
  end.

(** [build_cli_command]: interpreter and script, the six paths, the options
    in the order of the dictionary, the flags. *)
Definition build_cli_command (executable script : string)
    (review_path font_path output_path : option string)
    (background_path logo_path music_path : option string)
    (options : list (string * option string)) (flags : list string)
  : list string :=
  let cmd := [executable; script] in
  let cmd := add_arg cmd "--input" review_path in
  let cmd := add_arg cmd "--background" background_path in
  let cmd := add_arg cmd "--logo" logo_path in
  let cmd := add_arg cmd "--music" music_path in
  let cmd := add_arg cmd "--font" font_path in
  let cmd := add_arg cmd "--output" output_path in
  let cmd := fold_left (fun c kv => add_arg c (fst kv) (snd kv)) options cmd in
  cmd ++ flags.

(** The key and value an argument contributes to the command line, if
    any. *)
Definition passed (kv : string * option string) : list string :=
  match snd kv with
  | Some s => if (s =? "")%string then [] else [fst kv; s]
  | None => []
  end.

(* ================================================================== *)
(** * Part II: properties                                              *)
(* ================================================================== *)

(** ** The line breaker of the complex path *)

(** Case analysis on the width test of the hypothesis [H]. *)
Ltac case_fits H E :=
  match type of H with
  | context [fits ?w ?s ?m ?t] =>
      revert H; destruct (fits w s m t) eqn:E; intros H
  end.

Section LineBreaker.

Variable w : World.
Variables size_px max_width : Z.

#[local] Abbreviation loop := (wrap_loop w size_px max_width).
#[local] Abbreviation fit := (fits w size_px max_width).

(** A word that does not fit on an empty line is never consumed: the loop
    appends the empty [current] and tries the same word again. *)
Lemma wrap_loop_stuck (w0 : text) (rest : list text) :
  fit w0 = false ->
  forall fuel lines, loop fuel (w0 :: rest) lines [] = OutOfFuel.
Proof.
  intros Hw0 fuel. induction fuel as [|fuel IH]; intros lines.
  - reflexivity.
  - cbn [wrap_loop truthy]. rewrite Hw0. apply IH.
Qed.

(** The loop never raises. *)
Lemma wrap_loop_no_raise fuel : forall words lines current e,
  loop fuel words lines current <> Raised e.
Proof.
  induction fuel as [|fuel IH]; intros words lines current e.
  - discriminate.
  - cbn [wrap_loop]. destruct words as [|w0 rest].
    + discriminate.
    + destruct (fits w size_px max_width _); apply IH.
Qed.

(** More fuel does not change an answer. *)
Lemma wrap_loop_fuel_mono fuel : forall words lines current res,
  loop fuel words lines current = Done res ->
  loop (S fuel) words lines current = Done res.
Proof.
  induction fuel as [|fuel IH]; intros words lines current res H.
  - discriminate.
  - cbn [wrap_loop] in H.
    remember (S fuel) as n eqn:En. cbn [wrap_loop]. subst n.
    destruct words as [|w0 rest]; [exact H|].
    destruct (fits w size_px max_width _); apply IH; exact H.
Qed.

(** Every line the loop appends fits, given that [current] does. *)
Lemma wrap_loop_lines_fit fuel : forall words lines current res,
  loop fuel words lines current = Done res ->
  current = [] \/ fit current = true ->
  exists tail, res = lines ++ tail /\ Forall (fun l => fit l = true) tail.
Proof.
  induction fuel as [|fuel IH]; intros words lines current res H Hcur.
  - discriminate.
  - cbn [wrap_loop] in H. destruct words as [|w0 rest].
    + injection H as <-. destruct current as [|c cs]; cbn [truthy].
      * exists []. rewrite app_nil_r. split; [reflexivity|constructor].
      * exists [c :: cs]. split; [reflexivity|].
        constructor; [|constructor].
        destruct Hcur as [Hc|Hc]; [discriminate|exact Hc].
    + case_fits H Hfit.
      * apply IH in H; [exact H|]. right. exact Hfit.
      * destruct current as [|c cs].
        -- cbn [truthy] in Hfit.
           rewrite (wrap_loop_stuck w0 rest Hfit) in H. discriminate.
        -- apply IH in H; [|left; reflexivity].
           destruct H as (tail & -> & Htail).
           exists ((c :: cs) :: tail). rewrite <- app_assoc. split; [reflexivity|].
           constructor; [|exact Htail].
           destruct Hcur as [Hc|Hc]; [discriminate|exact Hc].
Qed.

Lemma truthy_join_space (g : list text) :
  Forall (fun x => truthy x = true) g ->
  truthy (join_space g) = match g with [] => false | _ => true end.
Proof.
  intros Hg. destruct g as [|a g]; [reflexivity|].
  inversion Hg as [|? ? Ha _]; subst.
  destruct a as [|c a]; [discriminate|]. destruct g; reflexivity.
Qed.

Lemma join_space_snoc (g : list text) (x : text) :
  g <> [] -> join_space (g ++ [x]) = join_space g ++ space ++ x.
Proof.
  induction g as [|a g IH]; intros Hne; [contradiction|].
  destruct g as [|b g].
  - reflexivity.
  - change (join_space ((a :: b :: g) ++ [x]))
      with (a ++ space ++ join_space ((b :: g) ++ [x])).
    rewrite IH by discriminate.
    change (join_space (a :: b :: g)) with (a ++ space ++ join_space (b :: g)).
    now rewrite <- !app_assoc.
Qed.

(** The lines are the words in order, cut into non-empty groups and joined
    by single spaces: nothing is dropped, repeated or cut. *)
Lemma wrap_loop_groups fuel : forall words lines g res,
  loop fuel words lines (join_space g) = Done res ->
  Forall (fun x => truthy x = true) g ->
  Forall (fun x => truthy x = true) words ->
  exists groups,
    res = lines ++ map join_space groups
    /\ List.concat groups = g ++ words
    /\ Forall (fun grp => grp <> []) groups.
Proof.
  induction fuel as [|fuel IH]; intros words lines g res H Hg Hwords.
  - discriminate.
  - cbn [wrap_loop] in H. rewrite (truthy_join_space g Hg) in H.
    destruct words as [|w0 rest].
    + injection H as <-. destruct g as [|a g].
      * exists []. split; [symmetry; apply app_nil_r|].
        split; [reflexivity|constructor].
      * exists [a :: g]. split; [reflexivity|].
        split; [cbn [List.concat]; now rewrite !app_nil_r|].
        constructor; [discriminate|constructor].
    + inversion Hwords as [|? ? Hw0 Hrest]; subst.
      destruct g as [|a g].
      * case_fits H Hfit.
        -- change w0 with (join_space [w0]) in H.
           apply IH in H; [|repeat constructor; assumption|assumption].
           exact H.
        -- cbn [join_space] in H.
           rewrite (wrap_loop_stuck w0 rest Hfit) in H. discriminate.
      * rewrite <- (join_space_snoc (a :: g) w0) in H by discriminate.
        case_fits H Hfit.
        -- apply IH in H;
             [|apply Forall_app; split; [assumption|repeat constructor; assumption]
              |assumption].
           destruct H as (groups & -> & Hcat & Hne).
           exists groups. split; [reflexivity|].
           split; [now rewrite Hcat, <- app_assoc|assumption].
        -- change (@nil Z) with (join_space []) in H.
           apply IH in H; [|constructor|assumption].
           destruct H as (groups & -> & Hcat & Hne).
           exists ((a :: g) :: groups).
           split; [cbn [map]; now rewrite <- app_assoc|].
           split; [cbn [List.concat]; now rewrite Hcat|].
           constructor; [discriminate|assumption].
Qed.

(** When every word fits on a line of its own the loop returns, within two
    tests per word and one more. *)
Lemma wrap_loop_returns fuel : forall words lines current,
  Forall (fun x => fit x = true) words ->
  (2 * List.length words + (if truthy current then 1 else 0) < fuel)%nat ->
  exists res, loop fuel words lines current = Done res.
Proof.
  induction fuel as [|fuel IH]; intros words lines current Hall Hfuel.
  - lia.
  - cbn [wrap_loop]. destruct words as [|w0 rest].
    + eexists; reflexivity.
    + inversion Hall as [|? ? Hw0 Hrest]; subst. cbn [List.length] in Hfuel.
      match goal with
      | |- context [fits ?a ?b ?c ?t] => destruct (fits a b c t) eqn:Hfit
      end.
      * apply IH; [assumption|].
        match goal with
        | |- (_ + (if truthy ?t then _ else _) < _)%nat =>
            assert ((if truthy t then 1 else 0) <= 1)%nat
              by (generalize (truthy t); intros [|]; lia)
        end.
        lia.
      * destruct current as [|c cs]; cbn [truthy] in *.
        -- congruence.
        -- apply IH; [assumption|]. cbn [truthy List.length]. lia.
Qed.

End LineBreaker.

Lemma split_from_truthy (s : text) : forall cur,
  Forall (fun x => truthy x = true) (split_from cur s).
Proof.
  induction s as [|c r IH]; intros cur; cbn [split_from].
  - destruct (truthy cur) eqn:E; repeat constructor. exact E.
  - destruct (is_space c); [|apply IH].
    destruct (truthy cur) eqn:E; [constructor; [exact E|]|]; apply IH.
Qed.

Lemma split_truthy (s : text) : Forall (fun x => truthy x = true) (split s).
Proof. apply split_from_truthy. Qed.

Lemma fits_iff (w : World) (size_px max_width : Z) (l : text) :
  fits w size_px max_width l = true
  <-> (line_width w size_px l <= inject_Z max_width)%Q.
Proof. unfold fits, line_width. apply Qle_bool_iff. Qed.

(** A word that fits neither alone nor behind any other text keeps the loop
    from returning wherever it stands in the passage. *)
Lemma wrap_loop_overwide (w : World) (size_px max_width : Z) (w0 : text) :
  fits w size_px max_width w0 = false ->
  (forall c, fits w size_px max_width (c ++ space ++ w0) = false) ->
  forall fuel words lines current,
    In w0 words ->
    wrap_loop w size_px max_width fuel words lines current = OutOfFuel.
Proof.
  intros Halone Hafter fuel.
  induction fuel as [|fuel IH]; intros words lines current Hin; [reflexivity|].
  cbn [wrap_loop]. destruct words as [|x rest]; [destruct Hin|].
  match goal with
  | |- context [fits ?a ?b ?c ?t] => destruct (fits a b c t) eqn:Hfit
  end.
  - destruct Hin as [->|Hin]; [|apply IH; exact Hin].
    destruct (truthy current); congruence.
  - apply IH. exact Hin.
Qed.

(** Fuel beyond what the loop needs changes nothing. *)
Lemma wrap_loop_fuel_le (w : World) (size_px max_width : Z) (fuel fuel' : nat)
    (words lines : list text) (current : text) (res : list text) :
  (fuel <= fuel')%nat ->
  wrap_loop w size_px max_width fuel words lines current = Done res ->
  wrap_loop w size_px max_width fuel' words lines current = Done res.
Proof.
  intros Hle H. induction Hle as [|n _ IH]; [exact H|].
  apply wrap_loop_fuel_mono. exact IH.
Qed.

(** Every line of a list the line breaker returns passed the width test. *)
Lemma complex_lines_fit_all (w : World) (size_px width : Z) (fuel : nat)
    (txt : text) (lines : list text) :
  complex_lines w size_px width fuel txt = Done lines ->
  Forall (fun l => (line_width w size_px l <= usable_width width)%Q) lines.
Proof.
  unfold complex_lines. intros H.
  destruct (wrap_loop_lines_fit w size_px (width - 100) fuel _ _ _ _ H)
    as (tail & -> & Hfit); [left; reflexivity|].
  cbn [app]. eapply Forall_impl; [|exact Hfit].
  intros l Hl. apply fits_iff. exact Hl.
Qed.

(** C7: every line the complex-path line breaker emits measures at most the
    usable width (canvas width minus 100) in the double arithmetic of the
    program, without exception; the bound comes from where the lines are
    broken, not from truncation: the lines are the words of the passage, in
    order, grouped and joined by single spaces.  And lines are emitted:
    whenever each word measures at most the usable width by itself, the
    loop returns its lines, the same for every sufficient amount of fuel. *)
Theorem complex_lines_within_usable_width
    (w : World) (size_px width : Z) (txt : text) :
  (forall (fuel : nat) (lines : list text),
      complex_lines w size_px width fuel txt = Done lines ->
      Forall (fun l => (line_width w size_px l <= usable_width width)%Q) lines
      /\ exists groups,
           lines = map join_space groups
           /\ List.concat groups = split txt
           /\ Forall (fun g => g <> []) groups)
  /\ (Forall (fun x => (line_width w size_px x <= usable_width width)%Q)
             (split txt) ->
      exists (lines : list text) (fuel0 : nat),
        forall fuel, (fuel0 <= fuel)%nat ->
          complex_lines w size_px width fuel txt = Done lines).
Proof.
  unfold complex_lines. split.
  - intros fuel lines H. split.
    + apply (complex_lines_fit_all w size_px width fuel txt lines).
      unfold complex_lines. exact H.
    + change (@nil Z) with (join_space []) in H.
      destruct (wrap_loop_groups w size_px (width - 100) fuel _ _ _ _ H)
        as (groups & -> & Hcat & Hne); [constructor|apply split_truthy|].
      exists groups. cbn [app] in *. repeat split; assumption.
  - intros Hall.
    assert (Forall (fun x => fits w size_px (width - 100) x = true) (split txt))
      as Hfits.
    { eapply Forall_impl; [|exact Hall]. intros l Hl. apply fits_iff. exact Hl. }
    destruct (wrap_loop_returns w size_px (width - 100)
                (2 * List.length (split txt) + 1) (split txt) [] [] Hfits)
      as [lines Hlines]; [cbn [truthy]; lia|].
    exists lines, (2 * List.length (split txt) + 1)%nat.
    intros fuel Hfuel.
    apply (wrap_loop_fuel_le w size_px (width - 100) _ fuel _ _ _ _ Hfuel Hlines).
Qed.

Lemma complex_lines_within_usable_width_witness :
  Forall (fun x => (line_width Demo.world 60 x <= usable_width 720)%Q)
         (split demo_passage)
  /\ complex_lines Demo.world 60 720 20 demo_passage
     = Done [Demo.w11 ++ space ++ Demo.w2; Demo.w3 ++ space ++ Demo.w11]
  /\ Forall (fun l => (line_width Demo.world 60 l <= usable_width 720)%Q)
            [Demo.w11 ++ space ++ Demo.w2; Demo.w3 ++ space ++ Demo.w11]
  /\ exists (lines : list text) (fuel0 : nat),
       forall fuel, (fuel0 <= fuel)%nat ->
         complex_lines Demo.world 60 720 fuel demo_passage = Done lines.
Proof.
  assert (Forall (fun x => (line_width Demo.world 60 x <= usable_width 720)%Q)
                 (split demo_passage)) as Hwords.
  { change (split demo_passage) with [Demo.w11; Demo.w2; Demo.w3; Demo.w11].
    repeat constructor; apply fits_iff; vm_compute; reflexivity. }
  assert (complex_lines Demo.world 60 720 20 demo_passage
          = Done [Demo.w11 ++ space ++ Demo.w2; Demo.w3 ++ space ++ Demo.w11])
    as Hrun by (vm_compute; reflexivity).
  destruct (complex_lines_within_usable_width Demo.world 60 720 demo_passage)
    as [Hsafe Hlive].
  split; [exact Hwords|]. split; [exact Hrun|].
  split; [exact (proj1 (Hsafe 20%nat _ Hrun))|].
  exact (Hlive Hwords).
Defined.

(** Whenever each word of the passage fits on a line of its own, the line
    breaker returns. *)
Lemma complex_lines_returns (w : World) (size_px width : Z) (txt : text) :
  Forall (fun x => fits w size_px (width - 100) x = true) (split txt) ->
  exists lines,
    complex_lines w size_px width (2 * List.length (split txt) + 1) txt
    = Done lines.
Proof.
  intros Hall. unfold complex_lines.
  apply wrap_loop_returns; [exact Hall|]. cbn [truthy]. lia.
Qed.

(** At the default canvas (720 wide, usable width 620) and font size 60, a
    passage that is one word of eighteen letters, each advancing 0.6 em (648
    pixels in all), keeps the loop busy whatever the fuel. *)
Lemma overwide_word_stuck : forall fuel,
  complex_lines Demo.world 60 720 fuel Demo.w18 = OutOfFuel.
Proof.
  intros fuel. unfold complex_lines.
  change (split Demo.w18) with [Demo.w18].
  apply wrap_loop_stuck. reflexivity.
Qed.

Lemma overwide_word_never_rendered : forall fuel,
  render_text_image Demo.world fuel Demo.w18 "font.ttf" (720, 1280) None
    Demo.style = OutOfFuel.
Proof.
  intros fuel. unfold render_text_image.
  change (load_background Demo.world None) with (Done (BgSolid solid_fill)).
  change (color Demo.world (box_color Demo.style)) with (@Done rgb (0, 0, 0)).
  change (color Demo.world (shadow_color Demo.style)) with (@Done rgb (0, 0, 0)).
  change (contains_complex_script Demo.w18) with true.
  change (load_face Demo.world "font.ttf") with (Done tt).
  change (color Demo.world (font_color Demo.style))
    with (@Done rgb (255, 255, 255)).
  cbn [bind font_size Demo.style].
  rewrite overwide_word_stuck. reflexivity.
Qed.

(** C1: on that passage the line-wrapping loop does not terminate: for every
    amount of fuel no list of lines is returned, so the word is not placed
    on a line of its own; the slide is never rendered and the run of [main]
    never gets past it. *)
Theorem complex_lines_overwide_word : forall fuel,
  complex_lines Demo.world 60 720 fuel Demo.w18 = OutOfFuel
  /\ main Demo.world fuel Demo.args [Demo.w18]
     = (OutOfFuel,
        [Printed "[INFO] Generating TTS for 1 chunks...";
         Narrated [{| tts_text := Demo.w18;
                      tts_out := "audio_chunks/chunk_0.mp3";
                      tts_voice := "hi-IN-SwaraNeural";
                      tts_rate := "+10%" |}];
         Printed "[INFO] Rendering images..."]).
Proof.
  intros fuel. split; [apply overwide_word_stuck|].
  unfold main. change (chunks_of [Demo.w18]) with [Demo.w18].
  unfold generate_images.
  change (bg_files_of Demo.world (arg_background Demo.args)) with (@None (list string)).
  cbn [generate_loop chosen_bg].
  change (resolve_style Demo.args) with Demo.style.
  change (arg_font Demo.args) with "font.ttf"%string.
  change (arg_background Demo.args) with (@None string).
  change (arg_width Demo.args, arg_height Demo.args) with (720, 1280).
  rewrite overwide_word_never_rendered. reflexivity.
Qed.

(** ** Vertical placement *)

Lemma to_int_nonneg (x : Q) : (0 <= x)%Q -> Float64.to_int x = Qfloor x.
Proof.
  intros Hx. unfold Float64.to_int, Qfloor. destruct x as [n d].
  apply Z.quot_div_nonneg; [|reflexivity].
  unfold Qle in Hx. cbn in Hx. lia.
Qed.

Lemma total_h_complex_pos (nlines : nat) (size_px : Z) :
  0 <= size_px -> (40 <= total_h_complex nlines size_px)%Q.
Proof.
  intros Hs. unfold total_h_complex, line_spacing.
  assert (0 <= inject_Z (Z.of_nat nlines) * inject_Z size_px)%Q as Hprod.
  { rewrite <- inject_Z_mult. change 0%Q with (inject_Z 0).
    rewrite <- Zle_Qle. apply Z.mul_nonneg_nonneg; lia. }
  set (p := (inject_Z (Z.of_nat nlines) * inject_Z size_px)%Q) in *.
  lra.
Qed.

Lemma Qfloor_half (n : Z) : Qfloor (inject_Z n / 2)%Q = n / 2.
Proof.
  unfold Qfloor, Qdiv, Qinv, Qmult, inject_Z. cbn.
  rewrite Z.mul_1_r. reflexivity.
Qed.

(** [int] of a negative number rounds up. *)
Lemma to_int_neg (x : Q) : (x <= 0)%Q -> Float64.to_int x = - Qfloor (- x).
Proof.
  intros Hx. unfold Float64.to_int, Qfloor, Qopp. destruct x as [n d].
  cbn [Qnum Qden]. unfold Qle in Hx. cbn in Hx.
  rewrite <- (Z.opp_involutive n) at 1.
  rewrite Z.quot_opp_l by discriminate.
  rewrite Z.quot_div_nonneg by lia. reflexivity.
Qed.

Lemma to_int_Qeq (x y : Q) : (x == y)%Q -> Float64.to_int x = Float64.to_int y.
Proof.
  intros E. destruct (Qlt_le_dec x 0) as [Hneg|Hpos].
  - rewrite !to_int_neg by (try rewrite <- E; apply Qlt_le_weak; exact Hneg).
    f_equal. apply Qfloor_comp. rewrite E. reflexivity.
  - rewrite !to_int_nonneg by (try rewrite <- E; exact Hpos).
    apply Qfloor_comp. exact E.
Qed.

(** [int] moves a number by less than one. *)
Lemma to_int_near (x : Q) :
  (x - 1 < inject_Z (Float64.to_int x))%Q
  /\ (inject_Z (Float64.to_int x) < x + 1)%Q.
Proof.
  destruct (Qlt_le_dec x 0) as [Hneg|Hpos].
  - rewrite to_int_neg by (apply Qlt_le_weak; exact Hneg).
    pose proof (Qfloor_le (- x)) as Hlo. pose proof (Qlt_floor (- x)) as Hhi.
    rewrite inject_Z_plus in Hhi. change (inject_Z 1) with 1%Q in Hhi.
    rewrite inject_Z_opp. set (f := inject_Z (Qfloor (- x))) in *.
    split; lra.
  - rewrite to_int_nonneg by exact Hpos.
    pose proof (Qfloor_le x) as Hlo. pose proof (Qlt_floor x) as Hhi.
    rewrite inject_Z_plus in Hhi. change (inject_Z 1) with 1%Q in Hhi.
    set (f := inject_Z (Qfloor x)) in *. split; lra.
Qed.

Lemma to_int_inject_Z (n : Z) : Float64.to_int (inject_Z n) = n.
Proof. unfold Float64.to_int, inject_Z. cbn [Qnum Qden]. apply Z.quot_1_r. Qed.

Lemma anchor_pixels_Qeq (position : string) (height : Z) (h h' : Q) :
  (h == h')%Q -> anchor_pixels position height h = anchor_pixels position height h'.
Proof.
  intros E. unfold anchor_pixels. rewrite (to_int_Qeq h h' E).
  assert (Qfloor ((inject_Z height - h) / 2) = Qfloor ((inject_Z height - h') / 2))
    as -> by (apply Qfloor_comp; rewrite E; reflexivity).
  reflexivity.
Qed.

(** The anchor of the complex path is the rule on its [total_h]. *)
Lemma anchor_complex_pixels (position : string) (height : Z) (h : Q) :
  anchor_complex position height h = inject_Z (anchor_pixels position height h).
Proof.
  unfold anchor_complex, anchor_pixels.
  destruct (position =? "top")%string; [reflexivity|].
  destruct (position =? "bottom")%string; reflexivity.
Qed.

(** The anchor of the simple path, computed on integers, is the same rule on
    its [total_h]. *)
Lemma anchor_simple_pixels (position : string) (height h : Z) :
  anchor_simple position height h = anchor_pixels position height (inject_Z h).
Proof.
  unfold anchor_simple, anchor_pixels. rewrite to_int_inject_Z.
  destruct (position =? "top")%string; [reflexivity|].
  destruct (position =? "bottom")%string; [reflexivity|].
  f_equal. rewrite <- Qfloor_half. apply Qfloor_comp.
  unfold Z.sub. rewrite inject_Z_plus, inject_Z_opp. reflexivity.
Qed.

(** A top row that follows the rule is at least the minimum margin, and less
    than one pixel away from the rule as the specification words it. *)
Lemma anchor_pixels_bounds (position : string) (height : Z) (h : Q) :
  30 <= anchor_pixels position height h
  /\ (inject_Z (anchor_pixels position height h) - 1
      < anchor_claimed position height h)%Q
  /\ (anchor_claimed position height h
      < inject_Z (anchor_pixels position height h) + 1)%Q.
Proof.
  unfold anchor_pixels, anchor_claimed.
  destruct (position =? "top")%string.
  - split; [lia|]. change (inject_Z 60) with 60%Q. split; lra.
  - destruct (position =? "bottom")%string.
    + destruct (to_int_near h) as [Hlo Hhi].
      set (t := Float64.to_int h) in *.
      assert (inject_Z (height - t - 60) == inject_Z height - inject_Z t - 60)%Q
        as Hinj.
      { unfold Z.sub. rewrite !inject_Z_plus, !inject_Z_opp. reflexivity. }
      split; [lia|].
      destruct (Z.max_spec (height - t - 60) 30) as [[Hlt ->]|[Hle ->]];
        destruct (Q.max_spec (inject_Z height - h - 60)%Q 30%Q)
          as [[Hq ->]|[Hq ->]];
        try (apply Z.lt_le_incl in Hlt);
        try (rewrite Zle_Qle in Hlt; rewrite Hinj in Hlt;
             change (inject_Z 30) with 30%Q in Hlt);
        try (rewrite Zle_Qle in Hle; rewrite Hinj in Hle;
             change (inject_Z 30) with 30%Q in Hle);
        try rewrite Hinj; change (inject_Z 30) with 30%Q;
        split; lra.
    + set (x := ((inject_Z height - h) / 2)%Q).
      pose proof (Qfloor_le x) as Hlo. pose proof (Qlt_floor x) as Hhi.
      rewrite inject_Z_plus in Hhi. change (inject_Z 1) with 1%Q in Hhi.
      set (f := Qfloor x) in *.
      split; [lia|].
      destruct (Z.max_spec f 30) as [[Hlt ->]|[Hle ->]];
        destruct (Q.max_spec x 30%Q) as [[Hq ->]|[Hq ->]];
        try (apply Z.lt_le_incl in Hlt);
        try (rewrite Zle_Qle in Hlt; change (inject_Z 30) with 30%Q in Hlt);
        try (rewrite Zle_Qle in Hle; change (inject_Z 30) with 30%Q in Hle);
        change (inject_Z 30) with 30%Q;
        split; lra.
Qed.

(** The block of a rendered frame: its top row is a whole pixel [y], and its
    height is the [total_h] of the path that drew it. *)
Lemma render_block (w : World) (fuel : nat) (txt : text) (font_path : string)
    (width height : Z) (bg_path : option string) (st : Style) (f : frame) :
  render_text_image w fuel txt font_path (width, height) bg_path st = Done f ->
  exists h : Q,
    (block_height (contains_complex_script txt) f == h)%Q
    /\ (block_top f
        == inject_Z (anchor_pixels (text_position st) height h))%Q.
Proof.
  unfold render_text_image, block_height, block_top, box_top, box_bottom.
  destruct (load_background w bg_path) as [bg| |]; cbn [bind]; try discriminate.
  destruct (color w (box_color st)) as [box_rgb| |]; cbn [bind]; try discriminate.
  destruct (color w (shadow_color st)) as [shadow_rgb| |]; cbn [bind];
    try discriminate.
  destruct (contains_complex_script txt).
  - destruct (load_face w font_path); cbn [bind]; try discriminate.
    destruct (color w (font_color st)) as [font_rgb| |]; cbn [bind];
      try discriminate.
    destruct (complex_lines w (font_size st) width fuel txt) as [lines| |];
      cbn [bind]; try discriminate.
    intros H. injection H as <-. cbn [fr_box fst snd].
    exists (total_h_complex (List.length lines) (font_size st)).
    rewrite anchor_complex_pixels. split; ring.
  - destruct (load_simple_font w font_path (font_size st)) as [fnt| |];
      cbn [bind]; try discriminate.
    destruct (color w (font_color st)) as [font_rgb| |]; cbn [bind];
      try discriminate.
    intros H. injection H as <-. cbn [fr_box fst snd].
    set (lines := match textwrap_wrap w txt with [] => [txt] | _ => textwrap_wrap w txt end).
    set (h := total_h_simple (List.length lines)
                (snd (pil_getsize w fnt (of_ascii "A")))).
    exists (inject_Z h). rewrite anchor_simple_pixels.
    set (y := anchor_pixels (text_position st) height (inject_Z h)).
    unfold Z.sub. rewrite !inject_Z_plus, !inject_Z_opp. split; ring.
Qed.

(** C8, as the program has it: on both shaping paths the top row of the text
    block follows one rule on whole pixels.  With [top] it is the fixed
    margin 60; with [bottom] it is the canvas height minus the block height
    truncated to an integer minus 60, and not less than 30; with [center] it
    is half of canvas height minus block height, rounded down, and not less
    than 30.  Hence the top row is at least 30, never negative, and less
    than one pixel away from the rule without rounding. *)
Theorem anchor_rule_both_paths (w : World) (fuel : nat) (txt : text)
    (font_path : string) (width height : Z) (bg_path : option string)
    (st : Style) (f : frame) :
  render_text_image w fuel txt font_path (width, height) bg_path st = Done f ->
  let y := block_top f in
  let h := block_height (contains_complex_script txt) f in
  (y == inject_Z (anchor_pixels (text_position st) height h))%Q
  /\ (text_position st = "top"%string -> (y == 60)%Q)
  /\ (30 <= y)%Q
  /\ (y - 1 < anchor_claimed (text_position st) height h)%Q
  /\ (anchor_claimed (text_position st) height h < y + 1)%Q.
Proof.
  intros Hrun y h.
  destruct (render_block w fuel txt font_path width height bg_path st f Hrun)
    as (h0 & Hh & Hy).
  fold h in Hh. fold y in Hy.
  assert (y == inject_Z (anchor_pixels (text_position st) height h))%Q as Hrule.
  { rewrite Hy. rewrite (anchor_pixels_Qeq _ _ h h0 Hh). reflexivity. }
  destruct (anchor_pixels_bounds (text_position st) height h) as (H30 & Hlo & Hhi).
  split; [exact Hrule|]. split.
  - intros Htop. rewrite Hrule. unfold anchor_pixels. rewrite Htop. reflexivity.
  - rewrite Hrule. split; [|split; assumption].
    change 30%Q with (inject_Z 30). rewrite <- Zle_Qle. exact H30.
Qed.

Lemma anchor_rule_both_paths_witness :
  render_text_image Demo.world 20 Demo.w2 "font.ttf" (720, 1280) None
    (style_62 "center") = Done center_frame_62
  /\ (let y := block_top center_frame_62 in
      let h := block_height (contains_complex_script Demo.w2) center_frame_62 in
      (y == inject_Z (anchor_pixels (text_position (style_62 "center")) 1280 h))%Q
      /\ (text_position (style_62 "center") = "top"%string -> (y == 60)%Q)
      /\ (30 <= y)%Q
      /\ (y - 1 < anchor_claimed (text_position (style_62 "center")) 1280 h)%Q
      /\ (anchor_claimed (text_position (style_62 "center")) 1280 h < y + 1)%Q).
Proof.
  assert (render_text_image Demo.world 20 Demo.w2 "font.ttf" (720, 1280) None
            (style_62 "center") = Done center_frame_62) as H
    by (vm_compute; reflexivity).
  split; [exact H|].
  apply (anchor_rule_both_paths Demo.world 20 Demo.w2 "font.ttf" 720 1280 None
           (style_62 "center") center_frame_62 H).
Defined.

(** One line at font size 62 on the default canvas: the block is 120.6 rows
    high.  Anchored at the bottom its top row is 1100, where the rule as
    worded gives 1099.4; centred it is 579, where the rule as worded gives
    579.7. *)
Lemma anchor_not_as_claimed :
  render_text_image Demo.world 20 Demo.w2 "font.ttf" (720, 1280) None
    (style_62 "bottom") = Done bottom_frame_62
  /\ render_text_image Demo.world 20 Demo.w2 "font.ttf" (720, 1280) None
       (style_62 "center") = Done center_frame_62
  /\ (block_height true bottom_frame_62 == 603 # 5)%Q
  /\ (block_height true center_frame_62 == 603 # 5)%Q
  /\ (block_top bottom_frame_62 == 1100)%Q
  /\ (anchor_claimed "bottom" 1280 (block_height true bottom_frame_62)
      == 5497 # 5)%Q
  /\ (block_top center_frame_62 == 579)%Q
  /\ (anchor_claimed "center" 1280 (block_height true center_frame_62)
      == 5797 # 10)%Q.
Proof. repeat split; vm_compute; reflexivity. Qed.

(** ** Slide durations *)

Lemma Qlt_bool_iff (a b : Q) : Qlt_bool a b = true <-> (a < b)%Q.
Proof.
  unfold Qlt_bool. rewrite negb_true_iff, <- not_true_iff_false, Qle_bool_iff.
  split; [apply Qnot_le_lt|apply Qlt_not_le].
Qed.

Lemma slide_clip_floor (w : World) (audio_dir : string) (size : Z * Z) (m : Q)
    (i : nat) (img : string) :
  duration_floor_ok w m (slide_clip w audio_dir size m i img).
Proof.
  unfold duration_floor_ok, slide_clip.
  set (p := path_join audio_dir _).
  destruct (Qlt_bool 0 m) eqn:Hm; cbn [andb].
  - apply Qlt_bool_iff in Hm.
    destruct (Qlt_bool (a_duration (AudioFileClip w p)) m) eqn:Hd;
      cbn [ic_duration ic_audio a_set_duration AudioFileClip a_path
           a_duration a_file_duration] in *.
    + apply Qlt_bool_iff in Hd. repeat split; try tauto.
      * intros _. symmetry. apply Q.max_r. apply Qlt_le_weak. exact Hd.
      * apply Qlt_le_weak. exact Hd.
    + assert (m <= audio_file_duration w p)%Q as Hle.
      { apply Qnot_lt_le. intros Hlt. apply Qlt_bool_iff in Hlt. congruence. }
      repeat split; try tauto.
      * intros _. symmetry. apply Q.max_l. exact Hle.
      * apply Qle_refl.
  - assert (~ (0 < m)%Q) as Hn.
    { intros Hlt. apply Qlt_bool_iff in Hlt. congruence. }
    cbn [ic_duration ic_audio AudioFileClip a_path a_duration a_file_duration].
    repeat split; try tauto. apply Qle_refl.
Qed.

Lemma slide_clips_floor (w : World) (audio_dir : string) (size : Z * Z)
    (m : Q) (images : list string) :
  forall i,
    Forall (duration_floor_ok w m) (slide_clips w audio_dir size m i images).
Proof.
  induction images as [|img rest IH]; intros i; cbn [slide_clips].
  - constructor.
  - constructor; [apply slide_clip_floor|apply IH].
Qed.

Lemma base_clip_with_bars (size : Z * Z) (bar_rgb : rgb) (ph : Z) (n : nat)
    (clips : list image_clip) :
  forall idx, map base_clip (with_bars size bar_rgb ph n idx clips) = clips.
Proof.
  induction clips as [|c rest IH]; intros idx; cbn [with_bars map].
  - reflexivity.
  - rewrite IH. reflexivity.
Qed.

Lemma base_clip_plain (clips : list image_clip) :
  map base_clip (map Plain clips) = clips.
Proof.
  induction clips as [|c rest IH]; cbn [map]; [|rewrite IH]; reflexivity.
Qed.

(** Whatever overlays are chosen, the slides of the composed video are the
    clips built by the first loop of [assemble_video]. *)
Lemma compose_units (w : World) (images : list string) (audio_dir : string)
    (bg_music : option string) (size : Z * Z) (o : Overlays) :
  map base_clip (units_of (fst (compose w images audio_dir bg_music size o)))
  = slide_clips w audio_dir size (min_duration o) 0%nat images.
Proof.
  unfold compose.
  set (clips := slide_clips w audio_dir size (min_duration o) 0%nat images).
  destruct (given bg_music && exists_path w (path_of bg_music));
    destruct (given (logo_path o) && exists_path w (path_of (logo_path o)));
    try destruct (image_open w (path_of (logo_path o)));
    destruct (enable_progress_bar o && negb (Nat.eqb (List.length clips) 0));
    try destruct (getrgb w (progress_color o));
    cbn [fst units_of];
    first [apply base_clip_with_bars | apply base_clip_plain].
Qed.






(** ** Fades *)

Lemma compose_fade_free (w : World) (images : list string)
    (audio_dir : string) (bg_music : option string) (size : Z * Z)
    (o : Overlays) :
  fade_free (fst (compose w images audio_dir bg_music size o)) = true.
Proof.
  unfold compose.
  set (clips := slide_clips w audio_dir size (min_duration o) 0%nat images).
  destruct (given bg_music && exists_path w (path_of bg_music));
    destruct (given (logo_path o) && exists_path w (path_of (logo_path o)));
    try destruct (image_open w (path_of (logo_path o)));
    destruct (enable_progress_bar o && negb (Nat.eqb (List.length clips) 0));
    try destruct (getrgb w (progress_color o));
    reflexivity.
Qed.

(** C6, as the program has it: the written video is the composed timeline,
    music, logo and progress bars included, under a fade-in of one second
    and then a fade-out of one second.  Both lengths are the constant 1,
    whatever the duration of the timeline, and the fades do not change that
    duration. *)
Theorem fades_fixed_after_mixing (w : World) (images : list string)
    (audio_dir output_path : string) (bg_music : option string)
    (size : Z * Z) (o : Overlays) (tr : trace) :
  let final := fst (compose w images audio_dir bg_music size o) in
  let warnings := snd (compose w images audio_dir bg_music size o) in
  assemble_video w images audio_dir output_path bg_music size o tr
  = tr ++ warnings ++ [Written output_path (FadeOut (FadeIn final 1) 1)]
  /\ fade_free final = true
  /\ duration (FadeOut (FadeIn final 1) 1) = duration final.
Proof.
  intros final warnings. unfold assemble_video. subst final warnings.
  destruct (compose w images audio_dir bg_music size o) as [final warnings] eqn:E.
  cbn [fst snd]. split; [reflexivity|]. split; [|reflexivity].
  pose proof (compose_fade_free w images audio_dir bg_music size o) as H.
  rewrite E in H. exact H.
Qed.

(** One slide with a narration of 3/2 seconds: both fades last one second,
    more than the 3/4 second that half the timeline would allow. *)
Lemma fades_not_clamped :
  exists v,
    written (assemble_video Demo.world ["images/img_0.png"%string]
               "audio_chunks" "out.mp4" None (720, 1280) Demo.overlays [])
    = [v]
    /\ (duration v == 3 # 2)%Q
    /\ ~ fades_clamped v.
Proof.
  eexists. split; [reflexivity|]. split; [reflexivity|].
  cbn. intros [H _]. revert H. apply Qlt_not_le. reflexivity.
Qed.

(** ** Style presets *)




(** ** Missing backgrounds and fonts *)

(** [generate_images] prints nothing: whatever the outcome, it extends the
    trace by the frames it saved and by nothing else. *)
Lemma generate_loop_trace (w : World) (fuel : nat) (font_path image_dir : string)
    (bg_img : option string) (bg_files : option (list string)) (st : Style)
    (size : Z * Z) (chunks : list text) :
  forall i paths tr,
  exists saved,
    snd (generate_loop w fuel font_path image_dir bg_img bg_files st size i
           chunks paths tr) = tr ++ saved
    /\ forallb is_saved saved = true.
Proof.
  induction chunks as [|txt rest IH]; intros i paths tr; cbn [generate_loop].
  - exists []. rewrite app_nil_r. split; reflexivity.
  - destruct (render_text_image w fuel txt font_path size _ st) as [f| |].
    + destruct (IH (S i) (paths ++ [path_join image_dir ("img_" ++ dec i ++ ".png")])
                  (tr ++ [Saved (path_join image_dir ("img_" ++ dec i ++ ".png")) f]))
        as (saved & -> & Hs).
      exists (Saved (path_join image_dir ("img_" ++ dec i ++ ".png")) f :: saved).
      rewrite <- app_assoc. split; [reflexivity|exact Hs].
    + exists []. rewrite app_nil_r. split; reflexivity.
    + exists []. rewrite app_nil_r. split; reflexivity.
Qed.

Lemma filter_none {A : Type} (p : A -> bool) (l : list A) :
  forallb (fun x => negb (p x)) l = true -> filter p l = [].
Proof.
  induction l as [|x l IH]; cbn [forallb filter]; [reflexivity|].
  intros H. apply andb_true_iff in H. destruct H as [Hx Hl].
  apply negb_true_iff in Hx. rewrite Hx. apply IH. exact Hl.
Qed.

Lemma isdir_exists (w : World) (dir : string) :
  isdir w dir = true -> exists names, fs w dir = Some (FDir names).
Proof.
  unfold isdir. destruct (fs w dir) as [[| | |names]|]; try discriminate.
  intros _. exists names. reflexivity.
Qed.

(** The folder itself, handed to [render_text_image] as [bg_path], exists,
    so [Image.open] is called on it and raises. *)
Lemma render_folder_background (w : World) (fuel : nat) (txt : text)
    (font_path dir : string) (size : Z * Z) (st : Style) :
  dir <> EmptyString -> isdir w dir = true ->
  render_text_image w fuel txt font_path size (Some dir) st
  = Raised IsADirectoryError.
Proof.
  intros Hne Hdir. destruct (isdir_exists w dir Hdir) as [names Hfs].
  unfold render_text_image, load_background, exists_path, image_open.
  destruct size as [width height]. cbn [given path_of].
  apply String.eqb_neq in Hne. rewrite Hne, Hfs. reflexivity.
Qed.

(** C2: with a background folder that holds no image file no slide falls
    back to the solid fill.  The list of candidates is dropped, as the
    comment [fallback to solid bg] says, but the folder itself is then handed
    on as the background of the slide, and [Image.open] raises
    [IsADirectoryError] on it: [generate_images] stops at the first slide,
    whatever its text and style, having saved no frame and printed nothing,
    and a run of [main] with at least one chunk ends there without a
    video. *)
Theorem empty_background_folder_aborts (w : World) (fuel : nat)
    (txt : text) (rest : list text) (font_path image_dir dir : string)
    (st : Style) (size : Z * Z) (tr : trace) :
  dir <> EmptyString ->
  no_image_files w dir ->
  bg_files_of w (Some dir) = None
  /\ render_text_image w fuel txt font_path size (Some dir) st
     = Raised IsADirectoryError
  /\ generate_images w fuel (txt :: rest) font_path image_dir (Some dir) st
       size tr
     = (Raised IsADirectoryError, tr)
  /\ (forall (a : Args) (input : list text),
        arg_background a = Some dir ->
        chunks_of input = txt :: rest ->
        fst (main w fuel a input) = Raised IsADirectoryError
        /\ written (snd (main w fuel a input)) = []
        /\ saved_frames (snd (main w fuel a input)) = []).
Proof.
  intros Hne [Hdir Hnone].
  assert (bg_files_of w (Some dir) = None) as Hfiles.
  { unfold bg_files_of. cbn [given path_of].
    apply String.eqb_neq in Hne. rewrite Hne, Hdir. cbn [negb andb].
    rewrite (filter_none _ _ Hnone). reflexivity. }
  assert (forall fp idir style sz t,
            generate_images w fuel (txt :: rest) fp idir (Some dir) style sz t
            = (Raised IsADirectoryError, t)) as Hgen.
  { intros fp idir style sz t. unfold generate_images. rewrite Hfiles.
    cbn [generate_loop chosen_bg].
    rewrite (render_folder_background w fuel txt fp dir sz style Hne Hdir).
    reflexivity. }
  split; [exact Hfiles|].
  split; [apply render_folder_background; assumption|].
  split; [apply Hgen|].
  intros a input Hbg Hchunks. unfold main.
  rewrite Hbg, Hchunks, Hgen. cbn [fst snd]. repeat split; reflexivity.
Qed.

Lemma empty_background_folder_aborts_witness :
  "bg"%string <> EmptyString
  /\ no_image_files Demo.world "bg"
  /\ arg_background empty_folder_args = Some "bg"%string
  /\ chunks_of [of_ascii "hello"] = [of_ascii "hello"]
  /\ fst (main Demo.world 20 empty_folder_args [of_ascii "hello"])
     = Raised IsADirectoryError
  /\ written (snd (main Demo.world 20 empty_folder_args [of_ascii "hello"])) = []
  /\ saved_frames (snd (main Demo.world 20 empty_folder_args [of_ascii "hello"]))
     = [].
Proof.
  assert ("bg"%string <> EmptyString) as Hne by discriminate.
  assert (no_image_files Demo.world "bg") as Hnone by (split; reflexivity).
  split; [exact Hne|]. split; [exact Hnone|].
  split; [reflexivity|]. split; [reflexivity|].
  destruct (empty_background_folder_aborts Demo.world 20 (of_ascii "hello") []
              "font.ttf" "images" "bg" Demo.style (720, 1280) [] Hne Hnone)
    as (_ & _ & _ & Hmain).
  apply (Hmain empty_folder_args [of_ascii "hello"]); reflexivity.
Defined.

Lemma draw_lines_font (w : World) (st : Style) (f : font)
    (font_rgb shadow_rgb : rgb) (width line_h : Z) (lines : list text) :
  forall y,
    Forall (eq f)
      (flat_map (fun op => match op with DrawText _ _ _ fnt _ => [fnt] | _ => [] end)
                (draw_lines w st f font_rgb shadow_rgb width line_h y lines)).
Proof.
  induction lines as [|line rest IH]; intros y; cbn [draw_lines].
  - constructor.
  - rewrite flat_map_app. apply Forall_app. split.
    + destruct (enable_shadow st); repeat constructor.
    + cbn [flat_map app]. constructor; [reflexivity|apply IH].
Qed.

(** C3, as the program has it: a font file that cannot be loaded is not
    detected before rendering.  When the slide's background and colours load,
    a passage of the complex path raises FreeType's error at that slide,
    and a passage of the simple path is rendered all the same, every line
    drawn with PIL's built-in default font. *)
Theorem unloadable_font_per_slide (w : World) (fuel : nat) (txt : text)
    (font_path : string) (size : Z * Z) (bg_path : option string) (st : Style)
    (bg : background) (box_rgb shadow_rgb font_rgb : rgb) :
  fs w font_path <> Some FFont ->
  load_background w bg_path = Done bg ->
  color w (box_color st) = Done box_rgb ->
  color w (shadow_color st) = Done shadow_rgb ->
  color w (font_color st) = Done font_rgb ->
  (contains_complex_script txt = true ->
   render_text_image w fuel txt font_path size bg_path st = Raised FT_Exception)
  /\ (contains_complex_script txt = false ->
      exists f,
        render_text_image w fuel txt font_path size bg_path st = Done f
        /\ fonts_used f <> []
        /\ Forall (eq DefaultFont) (fonts_used f)).
Proof.
  intros Hfont Hbg Hbox Hshadow Hcolor.
  unfold render_text_image. destruct size as [width height].
  rewrite Hbg, Hbox, Hshadow. cbn [bind].
  split; intros Hscript; rewrite Hscript.
  - unfold load_face.
    destruct (fs w font_path) as [[| | |names]|]; try reflexivity.
    contradiction Hfont. reflexivity.
  - assert (load_simple_font w font_path (font_size st) = Done DefaultFont) as Hf.
    { unfold load_simple_font, truetype.
      destruct (fs w font_path) as [[| | |names]|]; try reflexivity.
      contradiction Hfont. reflexivity. }
    rewrite Hf, Hcolor. cbn [bind].
    eexists. split; [reflexivity|].
    unfold fonts_used. cbn [fr_ops]. split.
    + destruct (textwrap_wrap w txt) as [|l ls]; cbn [draw_lines];
        rewrite flat_map_app; cbn [flat_map app];
        intros H; apply app_eq_nil in H; destruct H as [_ H]; discriminate.
    + apply draw_lines_font.
Qed.

Lemma unloadable_font_per_slide_witness :
  fs Demo.world "broken.ttf" <> Some FFont
  /\ load_background Demo.world None = Done (BgSolid solid_fill)
  /\ color Demo.world (box_color Demo.style) = Done (0, 0, 0)
  /\ color Demo.world (shadow_color Demo.style) = Done (0, 0, 0)
  /\ color Demo.world (font_color Demo.style) = Done (255, 255, 255)
  /\ ((contains_complex_script (of_ascii "hello") = true ->
       render_text_image Demo.world 20 (of_ascii "hello") "broken.ttf"
         (720, 1280) None Demo.style = Raised FT_Exception)
      /\ (contains_complex_script (of_ascii "hello") = false ->
          exists f,
            render_text_image Demo.world 20 (of_ascii "hello") "broken.ttf"
              (720, 1280) None Demo.style = Done f
            /\ fonts_used f <> []
            /\ Forall (eq DefaultFont) (fonts_used f))).
Proof.
  split; [discriminate|]. do 4 (split; [reflexivity|]).
  apply (unloadable_font_per_slide Demo.world 20 (of_ascii "hello") "broken.ttf"
           (720, 1280) None Demo.style (BgSolid solid_fill)
           (0, 0, 0) (0, 0, 0) (255, 255, 255));
    [discriminate|reflexivity..].
Defined.

(** With a file that is not a font, an input of one Latin line runs to the
    end: no error is raised, the slide is drawn with the default font, and
    the video is written.  With a second, Devanagari line the run aborts at
    the second slide, after the first has been rendered and saved. *)
Lemma unloadable_font_not_fatal :
  fs Demo.world (arg_font broken_font_args) = Some FOther
  /\ (fst (main Demo.world 20 broken_font_args [of_ascii "hello"]) = Done tt
      /\ map (fun pf => (fst pf, fonts_used (snd pf)))
             (saved_frames
                (snd (main Demo.world 20 broken_font_args [of_ascii "hello"])))
         = [("images/img_0.png"%string, [DefaultFont])]
      /\ List.length
           (written (snd (main Demo.world 20 broken_font_args [of_ascii "hello"])))
         = 1%nat)
  /\ (fst (main Demo.world 20 broken_font_args [of_ascii "hello"; Demo.w2])
      = Raised FT_Exception
      /\ map fst
           (saved_frames
              (snd (main Demo.world 20 broken_font_args
                      [of_ascii "hello"; Demo.w2])))
         = ["images/img_0.png"%string]
      /\ written
           (snd (main Demo.world 20 broken_font_args [of_ascii "hello"; Demo.w2]))
         = []).
Proof. repeat split; vm_compute; reflexivity. Qed.

(** ** Rounding to double precision *)

Module Float64Facts.
Import Float64.

Lemma pow2_pos k : (0 < pow2 k)%Q.
Proof. unfold pow2. apply Qpower_0_lt. reflexivity. Qed.

Lemma pow2_plus a b : (pow2 (a + b) == pow2 a * pow2 b)%Q.
Proof. unfold pow2. apply Qpower_plus. discriminate. Qed.

Lemma pow2_succ a : (pow2 (a + 1) == 2 * pow2 a)%Q.
Proof. rewrite pow2_plus. change (pow2 1) with 2%Q. ring. Qed.

Lemma pow2_Z k : 0 <= k -> (pow2 k == inject_Z (2 ^ k))%Q.
Proof. intros Hk. unfold pow2. rewrite Zpower_Qpower by exact Hk. reflexivity. Qed.

Lemma pow2_le a b : a <= b -> (pow2 a <= pow2 b)%Q.
Proof. intros H. unfold pow2. apply Qpower_le_compat_l; [exact H|]. discriminate. Qed.

(** [div_rne] is within one half of the quotient. *)
Lemma div_rne_spec (n d : Z) :
  0 < d -> 2 * d * div_rne n d - d <= 2 * n <= 2 * d * div_rne n d + d.
Proof.
  intros Hd. unfold div_rne.
  pose proof (Z.div_mod n d ltac:(lia)) as Hdm.
  pose proof (Z.mod_pos_bound n d Hd) as Hr.
  set (q := n / d) in *. set (r := n mod d) in *.
  destruct (Z.compare_spec (2 * r) d) as [E|E|E]; try destruct (Z.even q); nia.
Qed.

Lemma div_rne_exact (m d : Z) : 0 < d -> div_rne (m * d) d = m.
Proof.
  intros Hd. unfold div_rne.
  rewrite Z.div_mul by lia. rewrite Z.mod_mul by lia.
  destruct (Z.compare_spec (2 * 0) d); lia.
Qed.

Lemma rne_spec (x : Q) :
  (inject_Z (rne x) - (1 # 2) <= x /\ x <= inject_Z (rne x) + (1 # 2))%Q.
Proof.
  destruct x as [n d]. unfold rne. cbn [Qnum Qden].
  pose proof (div_rne_spec n (Zpos d) ltac:(lia)) as H.
  set (m := div_rne n (Zpos d)) in *.
  unfold Qle, Qminus, Qplus, Qopp, inject_Z. cbn. lia.
Qed.

Lemma rne_exact (x : Q) (m : Z) : (x == inject_Z m)%Q -> rne x = m.
Proof.
  destruct x as [n d]. unfold rne, Qeq, inject_Z. cbn [Qnum Qden].
  intros H. rewrite Z.mul_1_r in H. rewrite H. apply div_rne_exact. lia.
Qed.

Lemma Q_as_quotient (q : Q) : (q * inject_Z (Zpos (Qden q)) == inject_Z (Qnum q))%Q.
Proof.
  destruct q as [n d]. unfold Qeq, Qmult, inject_Z. cbn [Qnum Qden]. lia.
Qed.

Lemma log2_bounds_Q (a : Z) :
  0 < a ->
  (pow2 (Z.log2 a) <= inject_Z a /\ inject_Z a < pow2 (Z.log2 a + 1))%Q.
Proof.
  intros Ha. pose proof (Z.log2_spec a Ha) as [Hlo Hhi].
  pose proof (Z.log2_nonneg a) as Hnn.
  rewrite !pow2_Z by lia. rewrite <- Zle_Qle, <- Zlt_Qlt.
  split; [exact Hlo|]. replace (Z.log2 a + 1) with (Z.succ (Z.log2 a)) by lia.
  exact Hhi.
Qed.

(** The exponent brackets the number: [2^(s+52) <= q < 2^(s+53)]. *)
Lemma ulp_exp_spec (q : Q) :
  (0 < q)%Q ->
  (pow2 (ulp_exp q + 52) <= q /\ q < pow2 (ulp_exp q + 53))%Q.
Proof.
  intros Hq. unfold ulp_exp.
  assert (0 < Qnum q) as Hn.
  { destruct q as [n d]. unfold Qlt in Hq. cbn in *. lia. }
  destruct (log2_bounds_Q (Qnum q) Hn) as [Hn1 Hn2].
  destruct (log2_bounds_Q (Zpos (Qden q)) ltac:(lia)) as [Hd1 Hd2].
  pose proof (Q_as_quotient q) as Hqd.
  set (la := Z.log2 (Qnum q)) in *. set (ld := Z.log2 (Zpos (Qden q))) in *.
  set (dq := inject_Z (Zpos (Qden q))) in *. set (nq := inject_Z (Qnum q)) in *.
  pose proof (pow2_pos ld) as Hpld. pose proof (pow2_pos (ld + 1)) as Hpld1.
  assert (q < pow2 (la - ld + 1))%Q as Hup.
  { apply (Qmult_lt_r _ _ (pow2 ld) Hpld).
    rewrite <- pow2_plus. replace (la - ld + 1 + ld) with (la + 1) by lia.
    apply Qle_lt_trans with (q * dq)%Q.
    - apply Qmult_le_l; [exact Hq|exact Hd1].
    - rewrite Hqd. exact Hn2. }
  assert (pow2 (la - ld - 1) < q)%Q as Hdown.
  { apply (Qmult_lt_r _ _ (pow2 (ld + 1)) Hpld1).
    rewrite <- pow2_plus. replace (la - ld - 1 + (ld + 1)) with la by lia.
    apply Qle_lt_trans with (q * dq)%Q.
    - rewrite Hqd. exact Hn1.
    - apply Qmult_lt_l; [exact Hq|exact Hd2]. }
  destruct (Qle_bool (pow2 (la - ld)) q) eqn:E.
  - apply Qle_bool_iff in E.
    replace (la - ld - 52 + 52) with (la - ld) by lia.
    replace (la - ld - 52 + 53) with (la - ld + 1) by lia.
    split; assumption.
  - assert (q < pow2 (la - ld))%Q as Hlt.
    { apply Qnot_le_lt. intros H. apply Qle_bool_iff in H. congruence. }
    replace (la - ld - 1 - 52 + 52) with (la - ld - 1) by lia.
    replace (la - ld - 1 - 52 + 53) with (la - ld) by lia.
    split; [apply Qlt_le_weak; exact Hdown|exact Hlt].
Qed.

(** Relative error of rounding a positive number: at most [2^-53]. *)
Lemma rnd_pos_error (q : Q) :
  (0 < q)%Q ->
  (q * (1 - u53) <= rnd_pos q /\ rnd_pos q <= q * (1 + u53))%Q.
Proof.
  intros Hq. unfold rnd_pos.
  destruct (ulp_exp_spec q Hq) as [Hlo _].
  set (s := ulp_exp q) in *.
  pose proof (pow2_pos s) as Hps.
  destruct (rne_spec (q / pow2 s)) as [H1 H2].
  set (m := inject_Z (rne (q / pow2 s))) in *.
  assert (q == (q / pow2 s) * pow2 s)%Q as Hq'.
  { field. intros H. rewrite H in Hps. discriminate. }
  assert (pow2 s * (1 # 2) <= q * u53)%Q as Hhalf.
  { unfold u53.
    apply Qle_trans with (pow2 (s + 52) * pow2 (-53))%Q.
    - rewrite <- pow2_plus. replace (s + 52 + -53) with (s + -1) by lia.
      rewrite pow2_plus. change (pow2 (-1)) with (1 # 2)%Q. apply Qle_refl.
    - apply Qmult_le_compat_r; [exact Hlo|]. apply Qlt_le_weak, pow2_pos. }
  assert ((m - (1 # 2)) * pow2 s <= q)%Q as Ha.
  { apply Qle_trans with ((q / pow2 s) * pow2 s)%Q.
    - apply Qmult_le_compat_r; [exact H1|lra].
    - rewrite <- Hq'. apply Qle_refl. }
  assert (q <= (m + (1 # 2)) * pow2 s)%Q as Hb.
  { apply Qle_trans with ((q / pow2 s) * pow2 s)%Q.
    - rewrite <- Hq'. apply Qle_refl.
    - apply Qmult_le_compat_r; [exact H2|lra]. }
  split; lra.
Qed.

Lemma rnd_comp (p q : Q) : (p == q)%Q -> rnd p = rnd q.
Proof. intros H. unfold rnd. rewrite (Qred_complete p q H). reflexivity. Qed.

Lemma Qnum_sign (q : Q) :
  match Qnum q with
  | Z0 => (q == 0)%Q
  | Zpos _ => (0 < q)%Q
  | Zneg _ => (q < 0)%Q
  end.
Proof.
  destruct q as [[|n|n] d]; unfold Qeq, Qlt; cbn; lia.
Qed.

(** Rounding a non-negative number: relative error at most [2^-53]. *)
Lemma rnd_error (q : Q) :
  (0 <= q)%Q ->
  (q * (1 - u53) <= rnd q /\ rnd q <= q * (1 + u53))%Q.
Proof.
  intros Hq. unfold rnd.
  pose proof (Qred_correct q) as Hr. pose proof (Qnum_sign (Qred q)) as Hs.
  destruct (Qnum (Qred q)).
  - assert (q == 0)%Q as Hz by (rewrite <- Hr; exact Hs).
    rewrite Hz. split; lra.
  - rewrite Qred_correct.
    destruct (rnd_pos_error (Qred q) Hs) as [H1 H2].
    split.
    + apply Qle_trans with (Qred q * (1 - u53))%Q; [|exact H1].
      rewrite Hr. apply Qle_refl.
    + apply Qle_trans with (Qred q * (1 + u53))%Q; [exact H2|].
      rewrite Hr. apply Qle_refl.
  - rewrite Hr in Hs. lra.
Qed.

Lemma pow2_inv (k : Z) : (pow2 (- k) == / pow2 k)%Q.
Proof. unfold pow2. apply Qpower_opp. Qed.

(** Integers below [2^53] are represented exactly. *)
Lemma rnd_int (N : Z) (q : Q) :
  0 <= N < 2 ^ 53 -> (q == inject_Z N)%Q -> (rnd q == inject_Z N)%Q.
Proof.
  intros HN Hq. unfold rnd.
  pose proof (Qred_correct q) as Hr. pose proof (Qnum_sign (Qred q)) as Hs.
  rewrite <- Hr in Hq. clear Hr.
  set (r := Qred q) in *.
  destruct (Qnum r).
  - rewrite <- Hq, Hs. reflexivity.
  - rewrite Qred_correct. unfold rnd_pos.
    destruct (ulp_exp_spec r Hs) as [Hlo _].
    set (s := ulp_exp r) in *.
    assert (s <= 0) as Hs0.
    { destruct (Z_le_gt_dec s 0) as [|Hgt]; [assumption|exfalso].
      assert (pow2 53 <= pow2 (s + 52))%Q as Hmono by (apply pow2_le; lia).
      assert (inject_Z N < pow2 53)%Q as HN'.
      { rewrite pow2_Z by lia. rewrite <- Zlt_Qlt. lia. }
      rewrite Hq in Hlo. lra. }
    pose proof (pow2_pos s) as Hps. pose proof (pow2_pos (- s)) as Hpn.
    assert (pow2 s * pow2 (- s) == 1)%Q as Hinv.
    { rewrite <- pow2_plus. replace (s + - s) with 0 by lia. reflexivity. }
    assert (r / pow2 s == inject_Z (N * 2 ^ (- s)))%Q as Hx.
    { rewrite inject_Z_mult, <- pow2_Z by lia. rewrite Hq.
      rewrite pow2_inv. field. intros H. rewrite H in Hps. discriminate. }
    rewrite (rne_exact _ _ Hx).
    rewrite inject_Z_mult, <- pow2_Z by lia.
    rewrite <- Qmult_assoc, (Qmult_comm (pow2 (- s))), Hinv. ring.
  - rewrite Hq in Hs. assert (0 <= inject_Z N)%Q by (change 0%Q with (inject_Z 0); rewrite <- Zle_Qle; lia). lra.
Qed.

Lemma u53_value : u53 = (1 # 9007199254740992)%Q.
Proof. reflexivity. Qed.

(** Two roundings in a row, of a factor [t <= 1] and of its product with
    [W]: the result is within [3 * 2^-53 * W] of [W * t]. *)
Lemma two_roundings (W t x y : Q) :
  (0 <= W)%Q -> (0 <= t)%Q -> (t <= 1)%Q ->
  (t * (1 - u53) <= x)%Q -> (x <= t * (1 + u53))%Q ->
  (W * x * (1 - u53) <= y)%Q -> (y <= W * x * (1 + u53))%Q ->
  (W * t - 3 * u53 * W <= y /\ y <= W * t + 3 * u53 * W)%Q.
Proof.
  intros HW Ht0 Ht1 Hx1 Hx2 Hy1 Hy2. rewrite u53_value in *.
  assert (W * (t * (1 - (1 # 9007199254740992))) <= W * x)%Q as Ha.
  { rewrite !(Qmult_comm W). apply Qmult_le_compat_r; assumption. }
  assert (W * x <= W * (t * (1 + (1 # 9007199254740992))))%Q as Hb.
  { rewrite !(Qmult_comm W). apply Qmult_le_compat_r; assumption. }
  assert (0 <= W * t)%Q as HP by (apply Qmult_le_0_compat; assumption).
  assert (W * t <= W)%Q as HP1.
  { rewrite <- (Qmult_1_r W) at 2. rewrite !(Qmult_comm W).
    apply Qmult_le_compat_r; assumption. }
  set (P := (W * t)%Q) in *. set (X := (W * x)%Q) in *.
  assert (W * (t * (1 - (1 # 9007199254740992)))
          == P * (1 - (1 # 9007199254740992)))%Q as E1 by (subst P; ring).
  assert (W * (t * (1 + (1 # 9007199254740992)))
          == P * (1 + (1 # 9007199254740992)))%Q as E2 by (subst P; ring).
  rewrite E1 in Ha. rewrite E2 in Hb.
  split; lra.
Qed.

Lemma inject_Z_nonneg (z : Z) : 0 <= z -> (0 <= inject_Z z)%Q.
Proof. intros H. change 0%Q with (inject_Z 0). rewrite <- Zle_Qle. exact H. Qed.

Lemma Qfloor_lt_intro (y : Q) (k : Z) : (y < inject_Z (k + 1))%Q -> Qfloor y <= k.
Proof.
  intros H. pose proof (Qfloor_le y) as Hf.
  assert (inject_Z (Qfloor y) < inject_Z (k + 1))%Q as Hlt
    by (eapply Qle_lt_trans; eassumption).
  rewrite <- Zlt_Qlt in Hlt. lia.
Qed.

Lemma Qfloor_le_intro (y : Q) (k : Z) : (inject_Z k <= y)%Q -> k <= Qfloor y.
Proof.
  intros H. rewrite <- (Qfloor_Z k). apply Qfloor_resp_le. exact H.
Qed.

End Float64Facts.

(** On the canvases 720 and 1080 wide, for every slide of every run of up to
    thirty slides, and for the alpha and line-spacing literals, [Float64]
    computes the number the kernel's binary64 arithmetic computes. *)
Example float64_agrees_with_binary64 :
  Float64Check.agree_upto 720 30 = true
  /\ Float64Check.agree_upto 1080 30 = true
  /\ Qeq_bool (Float64Check.Q_of_double (PrimFloat.div 13 10))
               (Float64.lit (13 # 10)) = true
  /\ Qeq_bool (Float64Check.Q_of_double
                 (PrimFloat.mul (PrimFloat.div 6 10) 255))
               (Float64.mul (Float64.lit (6 # 10)) 255) = true
  /\ Qeq_bool (Float64Check.Q_of_double
                 (PrimFloat.mul (PrimFloat.div 7 10) 255))
               (Float64.mul (Float64.lit (7 # 10)) 255) = true.
Proof. repeat split; vm_compute; reflexivity. Qed.

(** The width of a shaped line likewise, on three fonts and sizes.  At 28
    glyphs of advance 700, 1000 units per em and size 50 the exact width is
    980, the usable width of a canvas 1080 wide, but the doubles give more:
    19.6 is not a double, and the product of its neighbour with 50 rounds
    up. *)
Example shaped_width_agrees_with_binary64 :
  widths_agree 700 40 1000 50 = true
  /\ widths_agree 600 40 1000 60 = true
  /\ widths_agree 523 40 2048 62 = true
  /\ (exact_width wide_font 50 w28 == 980)%Q
  /\ (980 < line_width wide_font 50 w28)%Q
  /\ fits wide_font 50 (1080 - 100) w28 = false
  /\ forall fuel, complex_lines wide_font 50 1080 fuel w28 = OutOfFuel.
Proof.
  do 6 (split; [vm_compute; reflexivity|]).
  intros fuel. unfold complex_lines.
  change (split w28) with [w28].
  apply wrap_loop_stuck. vm_compute. reflexivity.
Qed.

(** ** Progress bar and box alpha *)

Import Float64Facts.

(** The width the program measures is the exact width after two roundings:
    it differs from it by less than three parts in [2^53]. *)
Lemma shaped_width_near (advances : Z) (units_per_em : positive) (size_px : Z) :
  0 <= advances -> 0 <= size_px < 2 ^ 53 ->
  let exact :=
    (inject_Z advances / inject_Z (Zpos units_per_em) * inject_Z size_px)%Q in
  (exact * (1 - 3 * Float64.u53) <= shaped_width advances units_per_em size_px)%Q
  /\ (shaped_width advances units_per_em size_px
      <= exact * (1 + 3 * Float64.u53))%Q.
Proof.
  intros Ha Hs exact. unfold shaped_width, Float64.mul, Float64.div, Float64.of_int.
  set (q0 := (inject_Z advances / inject_Z (Zpos units_per_em))%Q) in *.
  assert (0 <= q0)%Q as Hq0.
  { unfold q0. apply Qle_shift_div_l; [reflexivity|].
    rewrite Qmult_0_l. apply inject_Z_nonneg. exact Ha. }
  destruct (rnd_error q0 Hq0) as [Hr1 Hr2].
  set (r1 := Float64.rnd q0) in *.
  assert (Float64.rnd (inject_Z size_px) == inject_Z size_px)%Q as Hfs
    by (apply rnd_int; [exact Hs|reflexivity]).
  assert (0 <= inject_Z size_px)%Q as Hs0 by (apply inject_Z_nonneg; lia).
  rewrite (rnd_comp (r1 * Float64.rnd (inject_Z size_px)) (r1 * inject_Z size_px))
    by (rewrite Hfs; reflexivity).
  rewrite u53_value in *.
  assert (0 <= r1)%Q as Hr0 by nra.
  assert (0 <= r1 * inject_Z size_px)%Q as Hp0 by (apply Qmult_le_0_compat; assumption).
  destruct (rnd_error (r1 * inject_Z size_px) Hp0) as [Hw1 Hw2].
  rewrite u53_value in *.
  set (y := Float64.rnd (r1 * inject_Z size_px)) in *.
  set (s := inject_Z size_px) in *.
  unfold exact. split; nra.
Qed.

Lemma to_int_comp (p q : Q) :
  (0 <= p)%Q -> (p == q)%Q -> Float64.to_int p = Float64.to_int q.
Proof.
  intros Hp Hpq.
  rewrite !to_int_nonneg by (try rewrite <- Hpq; exact Hp).
  apply Qfloor_comp. exact Hpq.
Qed.

(** The bar of the last slide spans the canvas. *)
Lemma bar_width_last (width : Z) (n : nat) :
  0 <= width < 2 ^ 53 -> 0 < Z.of_nat n < 2 ^ 53 ->
  bar_width width (n - 1) n = width.
Proof.
  intros Hw Hn. unfold bar_width, Float64.mul, Float64.div, Float64.of_int.
  replace (Z.of_nat (n - 1) + 1) with (Z.of_nat n) by lia.
  assert (Float64.rnd (inject_Z (Z.of_nat n)) == inject_Z (Z.of_nat n))%Q as Hfn
    by (apply rnd_int; [lia|reflexivity]).
  assert (Float64.rnd (inject_Z width) == inject_Z width)%Q as Hfw
    by (apply rnd_int; [lia|reflexivity]).
  assert (Float64.rnd (Float64.rnd (inject_Z (Z.of_nat n)) / Float64.rnd (inject_Z (Z.of_nat n))) == 1)%Q
    as Hone.
  { apply (rnd_int 1); [lia|]. rewrite Hfn. field.
    change 0%Q with (inject_Z 0). rewrite inject_Z_injective. lia. }
  assert (Float64.rnd (Float64.rnd (inject_Z width)
               * Float64.rnd (Float64.rnd (inject_Z (Z.of_nat n)) / Float64.rnd (inject_Z (Z.of_nat n))))
          == inject_Z width)%Q as Hres.
  { apply rnd_int; [lia|]. rewrite Hone, Hfw. ring. }
  rewrite (to_int_comp _ (inject_Z width)).
  - rewrite to_int_nonneg, Qfloor_Z; [reflexivity|].
    change 0%Q with (inject_Z 0). rewrite <- Zle_Qle. lia.
  - rewrite Hres. change 0%Q with (inject_Z 0). rewrite <- Zle_Qle. lia.
  - exact Hres.
Qed.

(** The bar width is the exact quotient [width * (idx + 1) / n] rounded
    down, or one less when the quotient is a whole number. *)
Lemma bar_width_bounds (width : Z) (idx n : nat) :
  0 <= width < 2 ^ 25 -> (idx < n)%nat -> Z.of_nat n < 2 ^ 25 ->
  let A := width * (Z.of_nat idx + 1) in
  A / Z.of_nat n - 1 <= bar_width width idx n <= A / Z.of_nat n
  /\ (A mod Z.of_nat n <> 0 -> bar_width width idx n = A / Z.of_nat n).
Proof.
  intros Hw Hidx Hn A.
  set (N := Z.of_nat n) in *. set (I := Z.of_nat idx + 1) in *.
  assert (0 < I <= N) as HI by (subst I N; lia).
  unfold bar_width, Float64.mul, Float64.div, Float64.of_int. fold N. fold I.
  set (W := inject_Z width). set (t := (inject_Z I / inject_Z N)%Q).
  assert (0 < inject_Z N)%Q as HNpos
    by (change 0%Q with (inject_Z 0); rewrite <- Zlt_Qlt; lia).
  assert (0 <= W)%Q as HW by (apply inject_Z_nonneg; lia).
  assert (0 <= t)%Q as Ht0.
  { subst t. apply Qle_shift_div_l; [exact HNpos|].
    rewrite Qmult_0_l. apply inject_Z_nonneg. lia. }
  assert (t <= 1)%Q as Ht1.
  { subst t. apply Qle_shift_div_r; [exact HNpos|].
    rewrite Qmult_1_l. rewrite <- Zle_Qle. lia. }
  assert (Float64.rnd (Float64.rnd (inject_Z I) / Float64.rnd (inject_Z N)) = Float64.rnd t) as Ex.
  { apply rnd_comp. subst t.
    rewrite (rnd_int I) by (try reflexivity; lia).
    rewrite (rnd_int N) by (try reflexivity; lia). reflexivity. }
  rewrite Ex.
  assert (Float64.rnd (Float64.rnd W * Float64.rnd t) = Float64.rnd (W * Float64.rnd t)) as Ey.
  { apply rnd_comp. subst W.
    rewrite (rnd_int width) by (try reflexivity; lia). reflexivity. }
  rewrite Ey.
  destruct (rnd_error t Ht0) as [Hx1 Hx2].
  set (x := Float64.rnd t) in *.
  assert (0 <= x)%Q as Hx0.
  { apply Qle_trans with (t * (1 - Float64.u53))%Q; [|exact Hx1].
    apply Qmult_le_0_compat; [exact Ht0|]. rewrite u53_value. lra. }
  assert (0 <= W * x)%Q as HWx by (apply Qmult_le_0_compat; assumption).
  destruct (rnd_error (W * x) HWx) as [Hy1 Hy2].
  set (y := Float64.rnd (W * x)) in *.
  destruct (two_roundings W t x y HW Ht0 Ht1 Hx1 Hx2 Hy1 Hy2) as [Hlo Hhi].
  assert (0 <= y)%Q as Hy0.
  { apply Qle_trans with (W * x * (1 - Float64.u53))%Q; [|exact Hy1].
    apply Qmult_le_0_compat; [exact HWx|]. rewrite u53_value. lra. }
  rewrite (to_int_nonneg y Hy0).
  (* scale by N *)
  assert (inject_Z N * (W * t) == inject_Z A)%Q as HA.
  { subst t W A. rewrite inject_Z_mult. field.
    intros H. rewrite H in HNpos. discriminate. }
  assert (3 * Float64.u53 * W * inject_Z N < 1)%Q as Hsmall.
  { assert (W * inject_Z N <= inject_Z (2 ^ 50))%Q as Hb.
    { subst W. rewrite <- inject_Z_mult, <- Zle_Qle.
      change (2 ^ 50) with (2 ^ 25 * 2 ^ 25). apply Z.mul_le_mono_nonneg; lia. }
    rewrite u53_value.
    change (inject_Z (2 ^ 50)) with (1125899906842624 # 1)%Q in Hb.
    set (P := (W * inject_Z N)%Q) in *.
    assert (3 * (1 # 9007199254740992) * W * inject_Z N
            == 3 * (1 # 9007199254740992) * P)%Q as E by (subst P; ring).
    rewrite E. lra. }
  assert (inject_Z N * y < inject_Z A + 1)%Q as Hup.
  { apply Qle_lt_trans with (inject_Z N * (W * t + 3 * Float64.u53 * W))%Q.
    - rewrite !(Qmult_comm (inject_Z N)).
      apply Qmult_le_compat_r; [exact Hhi|lra].
    - rewrite Qmult_plus_distr_r, HA.
      setoid_replace (inject_Z N * (3 * Float64.u53 * W))%Q
        with (3 * Float64.u53 * W * inject_Z N)%Q by ring.
      lra. }
  assert (inject_Z A - 1 < inject_Z N * y)%Q as Hdown.
  { apply Qlt_le_trans with (inject_Z N * (W * t - 3 * Float64.u53 * W))%Q.
    - setoid_replace (inject_Z N * (W * t - 3 * Float64.u53 * W))%Q
        with (inject_Z N * (W * t) - 3 * Float64.u53 * W * inject_Z N)%Q by ring.
      rewrite HA. lra.
    - rewrite !(Qmult_comm (inject_Z N)).
      apply Qmult_le_compat_r; [exact Hlo|lra]. }
  pose proof (Z.div_mod A N ltac:(lia)) as Hdm.
  pose proof (Z.mod_pos_bound A N ltac:(lia)) as Hr.
  set (k := A / N) in *. set (r := A mod N) in *.
  assert (Qfloor y <= k) as Hfk.
  { apply Qfloor_lt_intro.
    apply (Qmult_lt_l _ _ (inject_Z N) HNpos).
    apply Qlt_le_trans with (inject_Z A + 1)%Q; [exact Hup|].
    rewrite <- inject_Z_mult. change 1%Q with (inject_Z 1).
    rewrite <- inject_Z_plus, <- Zle_Qle. nia. }
  assert (k - 1 <= Qfloor y) as Hfk1.
  { apply Qfloor_le_intro.
    apply (Qmult_le_l _ _ (inject_Z N) HNpos).
    apply Qle_trans with (inject_Z A - 1)%Q; [|apply Qlt_le_weak; exact Hdown].
    rewrite <- inject_Z_mult. change 1%Q with (inject_Z 1).
    unfold Qminus. rewrite <- inject_Z_opp, <- inject_Z_plus, <- Zle_Qle. nia. }
  split; [split; assumption|].
  intros Hr0.
  assert (k <= Qfloor y); [|lia].
  apply Qfloor_le_intro.
  apply (Qmult_le_l _ _ (inject_Z N) HNpos).
  apply Qle_trans with (inject_Z A - 1)%Q; [|apply Qlt_le_weak; exact Hdown].
  rewrite <- inject_Z_mult. change 1%Q with (inject_Z 1).
  unfold Qminus. rewrite <- inject_Z_opp, <- inject_Z_plus, <- Zle_Qle. nia.
Qed.

(** [max(0.0, min(1.0, a))] lies in the unit interval. *)
Lemma clamp_unit (a : Q) : (0 <= py_max 0 (py_min 1 a) <= 1)%Q.
Proof.
  unfold py_max, py_min.
  destruct (Qle_bool 1 a) eqn:E1.
  - cbn. split; lra.
  - destruct (Qle_bool a 0) eqn:E0.
    + split; lra.
    + assert (~ (1 <= a)%Q) as N1
        by (intros H; apply Qle_bool_iff in H; congruence).
      assert (~ (a <= 0)%Q) as N0
        by (intros H; apply Qle_bool_iff in H; congruence).
      split; lra.
Qed.




Lemma with_bars_widths (size : Z * Z) (bar_rgb : rgb) (ph : Z) (n : nat)
    (clips : list image_clip) :
  forall idx,
    flat_map (fun u => match u with
                       | WithBar _ _ fg => [fst (cc_size fg)]
                       | Plain _ => []
                       end)
             (with_bars size bar_rgb ph n idx clips)
    = map (fun i => bar_width (fst size) i n) (seq idx (List.length clips)).
Proof.
  induction clips as [|c rest IH]; intros idx;
    cbn [with_bars flat_map List.length seq map]; [reflexivity|].
  rewrite IH. reflexivity.
Qed.

Lemma slide_clips_length (w : World) (audio_dir : string) (size : Z * Z)
    (m : Q) (images : list string) :
  forall i, List.length (slide_clips w audio_dir size m i images)
            = List.length images.
Proof.
  induction images as [|img rest IH]; intros i; cbn [slide_clips List.length];
    [reflexivity|]. rewrite IH. reflexivity.
Qed.

(** With the progress bar enabled and its colour valid, slide [idx] of [n]
    carries a bar of width [bar_width width idx n]. *)
Lemma compose_bar_widths (w : World) (images : list string)
    (audio_dir : string) (bg_music : option string) (size : Z * Z)
    (o : Overlays) (bar_rgb : rgb) :
  enable_progress_bar o = true ->
  getrgb w (progress_color o) = Some bar_rgb ->
  images <> [] ->
  bar_fg_widths (fst (compose w images audio_dir bg_music size o))
  = map (fun i => bar_width (fst size) i (List.length images))
        (seq 0 (List.length images)).
Proof.
  intros Hen Hrgb Hne. unfold compose, bar_fg_widths.
  pose proof (slide_clips_length w audio_dir size (min_duration o) images 0) as Hlen.
  set (clips := slide_clips w audio_dir size (min_duration o) 0%nat images) in *.
  rewrite Hen, Hrgb, Hlen.
  assert (Nat.eqb (List.length images) 0 = false) as E.
  { destruct images; [contradiction|reflexivity]. }
  rewrite E. cbn [negb andb].
  destruct (given bg_music && exists_path w (path_of bg_music));
    destruct (given (logo_path o) && exists_path w (path_of (logo_path o)));
    try destruct (image_open w (path_of (logo_path o)));
    cbn [fst units_of]; rewrite with_bars_widths, Hlen; reflexivity.
Qed.

(** C4, as the program has it: with the progress bar enabled, the bar of
    slide [idx] of [n] is [int(width * ((idx + 1) / n))] in double
    arithmetic.  That is the quotient [width * (idx + 1) / n] rounded down,
    not to the nearest integer, whenever the quotient is not a whole number;
    when it is a whole number the bar has that width or one pixel less; and
    on the last slide the bar has exactly the canvas width. *)
Theorem progress_bar_width_truncated (w : World) (images : list string)
    (audio_dir : string) (bg_music : option string) (size : Z * Z)
    (o : Overlays) (bar_rgb : rgb) (idx : nat) :
  enable_progress_bar o = true ->
  getrgb w (progress_color o) = Some bar_rgb ->
  0 <= fst size < 2 ^ 25 ->
  Z.of_nat (List.length images) < 2 ^ 25 ->
  (idx < List.length images)%nat ->
  let n := List.length images in
  let exact := fst size * (Z.of_nat idx + 1) in
  let bar :=
    nth idx (bar_fg_widths (fst (compose w images audio_dir bg_music size o))) 0 in
  bar = bar_width (fst size) idx n
  /\ exact / Z.of_nat n - 1 <= bar <= exact / Z.of_nat n
  /\ (exact mod Z.of_nat n <> 0 -> bar = exact / Z.of_nat n)
  /\ (idx = (n - 1)%nat -> bar = fst size).
Proof.
  intros Hen Hrgb Hw Hn Hidx n exact bar.
  assert (bar = bar_width (fst size) idx n) as Hbar.
  { subst bar. rewrite (compose_bar_widths w images audio_dir bg_music size o bar_rgb
                          Hen Hrgb).
    - rewrite (nth_indep _ 0 (bar_width (fst size) 0 n))
        by (rewrite length_map, length_seq; exact Hidx).
      rewrite (map_nth (fun i => bar_width (fst size) i n)).
      rewrite seq_nth by exact Hidx. reflexivity.
    - intros ->. cbn in Hidx. lia. }
  split; [exact Hbar|]. rewrite Hbar.
  destruct (bar_width_bounds (fst size) idx n Hw Hidx Hn) as [Hb Hexact].
  split; [exact Hb|]. split; [exact Hexact|].
  intros ->. apply bar_width_last; subst n; lia.
Qed.

Lemma progress_bar_width_truncated_witness :
  enable_progress_bar Demo.progress_overlays = true
  /\ getrgb Demo.world (progress_color Demo.progress_overlays)
     = Some (255, 255, 255)
  /\ 0 <= fst (720, 1280) < 2 ^ 25
  /\ Z.of_nat (List.length Demo.two_images) < 2 ^ 25
  /\ (1 < List.length Demo.two_images)%nat
  /\ (nth 1 (bar_fg_widths
               (fst (compose Demo.world Demo.two_images "audio_chunks" None
                       (720, 1280) Demo.progress_overlays))) 0
      = bar_width (fst (720, 1280)) 1 (List.length Demo.two_images)
      /\ fst (720, 1280) * (Z.of_nat 1 + 1)
           / Z.of_nat (List.length Demo.two_images) - 1
         <= nth 1 (bar_fg_widths
                     (fst (compose Demo.world Demo.two_images "audio_chunks"
                             None (720, 1280) Demo.progress_overlays))) 0
         <= fst (720, 1280) * (Z.of_nat 1 + 1)
            / Z.of_nat (List.length Demo.two_images)
      /\ (fst (720, 1280) * (Z.of_nat 1 + 1)
           mod Z.of_nat (List.length Demo.two_images) <> 0 ->
          nth 1 (bar_fg_widths
                   (fst (compose Demo.world Demo.two_images "audio_chunks"
                           None (720, 1280) Demo.progress_overlays))) 0
          = fst (720, 1280) * (Z.of_nat 1 + 1)
            / Z.of_nat (List.length Demo.two_images))
      /\ (1%nat = (List.length Demo.two_images - 1)%nat ->
          nth 1 (bar_fg_widths
                   (fst (compose Demo.world Demo.two_images "audio_chunks"
                           None (720, 1280) Demo.progress_overlays))) 0
          = fst (720, 1280))).
Proof.
  split; [reflexivity|]. split; [reflexivity|]. split; [cbn; lia|].
  split; [reflexivity|]. split; [cbn; lia|].
  apply (progress_bar_width_truncated Demo.world Demo.two_images
           "audio_chunks" None (720, 1280) Demo.progress_overlays
           (255, 255, 255) 1%nat);
    [reflexivity|reflexivity|cbn; lia|reflexivity|cbn; lia].
Defined.

(** Seven slides on a canvas 720 wide: the first bar is 102 pixels wide,
    where rounding 102.857... would give 103.  Ten slides: the seventh bar
    is 503 pixels wide, where the quotient is 504 exactly. *)
Lemma progress_bar_width_not_rounded :
  (bar_width 720 0 7 = 102 /\ rounded_bar_width 720 0 7 = 103)
  /\ (bar_width 720 6 10 = 503 /\ rounded_bar_width 720 6 10 = 504)
  /\ nth 0 (bar_fg_widths
              (fst (compose Demo.world
                      (repeat "images/img.png"%string 7) "audio_chunks" None
                      (720, 1280) Demo.progress_overlays))) 0
     <> rounded_bar_width 720 0 7.
Proof.
  split; [split; vm_compute; reflexivity|].
  split; [split; vm_compute; reflexivity|].
  vm_compute. discriminate.
Qed.





Lemma render_box_fill_alpha (w : World) (fuel : nat) (txt : text)
    (font_path : string) (size : Z * Z) (bg_path : option string)
    (st : Style) (f : frame) :
  render_text_image w fuel txt font_path size bg_path st = Done f ->
  box_fill_alpha f = box_alpha_255 (box_alpha st).
Proof.
  unfold render_text_image, box_fill_alpha. destruct size as [width height].
  destruct (load_background w bg_path) as [bg| |]; cbn [bind]; try discriminate.
  destruct (color w (box_color st)) as [box_rgb| |]; cbn [bind]; try discriminate.
  destruct (color w (shadow_color st)) as [shadow_rgb| |]; cbn [bind];
    try discriminate.
  destruct (contains_complex_script txt).
  - destruct (load_face w font_path); cbn [bind]; try discriminate.
    destruct (color w (font_color st)) as [font_rgb| |]; cbn [bind];
      try discriminate.
    destruct (complex_lines w (font_size st) width fuel txt) as [lines| |];
      cbn [bind]; try discriminate.
    intros H. injection H as <-. reflexivity.
  - destruct (load_simple_font w font_path (font_size st)) as [fnt| |];
      cbn [bind]; try discriminate.
    destruct (color w (font_color st)) as [font_rgb| |]; cbn [bind];
      try discriminate.
    intros H. injection H as <-. reflexivity.
Qed.


(** ** Greedy line breaking *)

Lemma concat_head (groups : list (list text)) (w0 : text) (rest : list text) :
  List.concat groups = w0 :: rest ->
  Forall (fun grp => grp <> []) groups ->
  exists hs tl, groups = (w0 :: hs) :: tl.
Proof.
  intros Hcat Hne. destruct groups as [|g tl]; [discriminate|].
  inversion Hne as [|? ? Hg _]; subst.
  destruct g as [|h hs]; [contradiction|].
  cbn in Hcat. injection Hcat as -> _. exists hs, tl. reflexivity.
Qed.

Lemma breaks_forced_cons (w : World) (size_px max_width : Z)
    (g : list text) (h : text) (hs : list text) (tl : list (list text)) :
  breaks_forced w size_px max_width (g :: (h :: hs) :: tl)
  = negb (fits w size_px max_width (join_space g ++ space ++ h))
    && breaks_forced w size_px max_width ((h :: hs) :: tl).
Proof. reflexivity. Qed.

(** The loop closes a line only when the next word does not fit behind
    it. *)
Lemma wrap_loop_forced (w : World) (size_px max_width : Z) (fuel : nat) :
  forall words lines g res,
  wrap_loop w size_px max_width fuel words lines (join_space g) = Done res ->
  Forall (fun x => truthy x = true) g ->
  Forall (fun x => truthy x = true) words ->
  exists groups,
    res = lines ++ map join_space groups
    /\ List.concat groups = g ++ words
    /\ Forall (fun grp => grp <> []) groups
    /\ breaks_forced w size_px max_width groups = true.
Proof.
  induction fuel as [|fuel IH]; intros words lines g res H Hg Hwords.
  - discriminate.
  - cbn [wrap_loop] in H. rewrite (truthy_join_space g Hg) in H.
    destruct words as [|w0 rest].
    + injection H as <-. destruct g as [|a g].
      * exists []. split; [symmetry; apply app_nil_r|].
        split; [reflexivity|]. split; [constructor|reflexivity].
      * exists [a :: g]. split; [reflexivity|].
        split; [cbn [List.concat]; now rewrite !app_nil_r|].
        split; [constructor; [discriminate|constructor]|reflexivity].
    + inversion Hwords as [|? ? Hw0 Hrest]; subst.
      destruct g as [|a g].
      * case_fits H Hfit.
        -- change w0 with (join_space [w0]) in H.
           apply IH in H; [|repeat constructor; assumption|assumption].
           exact H.
        -- cbn [join_space] in H.
           rewrite (wrap_loop_stuck w size_px max_width w0 rest Hfit) in H.
           discriminate.
      * rewrite <- (join_space_snoc (a :: g) w0) in H by discriminate.
        case_fits H Hfit.
        -- apply IH in H;
             [|apply Forall_app; split; [assumption|repeat constructor; assumption]
              |assumption].
           destruct H as (groups & -> & Hcat & Hne & Hforced).
           exists groups. split; [reflexivity|].
           split; [now rewrite Hcat, <- app_assoc|]. split; assumption.
        -- change (@nil Z) with (join_space []) in H.
           apply IH in H; [|constructor|assumption].
           destruct H as (groups & -> & Hcat & Hne & Hforced).
           cbn [app] in Hcat.
           destruct (concat_head groups w0 rest Hcat Hne) as (hs & tl & ->).
           exists ((a :: g) :: (w0 :: hs) :: tl).
           split; [cbn [map]; now rewrite <- app_assoc|].
           split; [cbn [List.concat] in *; now rewrite Hcat|].
           split; [constructor; [discriminate|assumption]|].
           rewrite breaks_forced_cons.
           rewrite <- (join_space_snoc (a :: g) w0) by discriminate.
           rewrite Hfit, Hforced. reflexivity.
Qed.

Lemma groups_length (groups : list (list text)) :
  Forall (fun grp => grp <> []) groups ->
  (List.length groups <= List.length (List.concat groups))%nat.
Proof.
  induction 1 as [|g tl Hg _ IH]; cbn [List.concat List.length]; [lia|].
  rewrite length_app. destruct g; [contradiction|]. cbn [List.length]. lia.
Qed.

Lemma join_space_truthy (g : list text) :
  g <> [] -> Forall (fun x => truthy x = true) g -> truthy (join_space g) = true.
Proof.
  intros Hne Hg. rewrite (truthy_join_space g Hg). destruct g; [contradiction|].
  reflexivity.
Qed.

Lemma joined_groups_nonempty (groups : list (list text)) :
  Forall (fun grp => grp <> []) groups ->
  Forall (fun x => truthy x = true) (List.concat groups) ->
  Forall (fun l => l <> []) (map join_space groups).
Proof.
  induction 1 as [|g tl Hg _ IH]; cbn [map List.concat]; intros Htr;
    [constructor|].
  apply Forall_app in Htr. destruct Htr as [Hg' Htl'].
  constructor; [|apply IH; exact Htl'].
  pose proof (join_space_truthy g Hg Hg') as Ht.
  intros E. rewrite E in Ht. discriminate.
Qed.

(** X2: the line breaker is greedy.  The lines it returns are the words of
    the passage in order, and a line ends only where the next word would not
    have fitted behind it; no line is empty and there are at most as many
    lines as words. *)
Theorem complex_lines_greedy (w : World) (size_px width : Z) (fuel : nat)
    (txt : text) (lines : list text) :
  complex_lines w size_px width fuel txt = Done lines ->
  (exists groups,
     lines = map join_space groups
     /\ List.concat groups = split txt
     /\ breaks_forced w size_px (width - 100) groups = true)
  /\ Forall (fun l => l <> []) lines
  /\ (List.length lines <= List.length (split txt))%nat.
Proof.
  unfold complex_lines. intros H.
  change (@nil Z) with (join_space []) in H.
  destruct (wrap_loop_forced w size_px (width - 100) fuel _ _ _ _ H)
    as (groups & -> & Hcat & Hne & Hforced); [constructor|apply split_truthy|].
  cbn [app] in *. split; [exists groups; repeat split; assumption|].
  pose proof (split_truthy txt) as Htr. rewrite <- Hcat in Htr.
  split.
  - apply joined_groups_nonempty; assumption.
  - rewrite length_map, <- Hcat. apply groups_length. exact Hne.
Qed.

Lemma complex_lines_greedy_witness :
  complex_lines Demo.world 60 720 20 demo_passage
  = Done [Demo.w11 ++ space ++ Demo.w2; Demo.w3 ++ space ++ Demo.w11]
  /\ ((exists groups,
         [Demo.w11 ++ space ++ Demo.w2; Demo.w3 ++ space ++ Demo.w11]
         = map join_space groups
         /\ List.concat groups = split demo_passage
         /\ breaks_forced Demo.world 60 (720 - 100) groups = true)
      /\ Forall (fun l => l <> [])
           [Demo.w11 ++ space ++ Demo.w2; Demo.w3 ++ space ++ Demo.w11]
      /\ (List.length [Demo.w11 ++ space ++ Demo.w2; Demo.w3 ++ space ++ Demo.w11]
          <= List.length (split demo_passage))%nat).
Proof.
  split; [reflexivity|].
  apply (complex_lines_greedy Demo.world 60 720 20 demo_passage). reflexivity.
Defined.

(** X3: when every word of the passage fits on a line of its own, the
    line breaker returns: after two tests of the loop condition per word and
    one more it has its lines, and any further fuel gives the same lines. *)
Theorem line_breaker_terminates (w : World) (size_px width : Z) (txt : text) :
  Forall (fun x => fits w size_px (width - 100) x = true) (split txt) ->
  exists lines,
    forall fuel,
      (2 * List.length (split txt) + 1 <= fuel)%nat ->
      complex_lines w size_px width fuel txt = Done lines.
Proof.
  intros Hall. unfold complex_lines.
  destruct (wrap_loop_returns w size_px (width - 100)
              (2 * List.length (split txt) + 1) (split txt) [] [] Hall)
    as [lines Hlines]; [cbn [truthy]; lia|].
  exists lines. intros fuel Hfuel.
  induction Hfuel as [|fuel Hle IH]; [exact Hlines|].
  apply wrap_loop_fuel_mono. exact IH.
Qed.

Lemma line_breaker_terminates_witness :
  Forall (fun x => fits Demo.world 60 (720 - 100) x = true) (split demo_passage)
  /\ exists lines,
       forall fuel,
         (2 * List.length (split demo_passage) + 1 <= fuel)%nat ->
         complex_lines Demo.world 60 720 fuel demo_passage = Done lines.
Proof.
  assert (Forall (fun x => fits Demo.world 60 (720 - 100) x = true)
            (split demo_passage)) as H
    by (repeat constructor).
  split; [exact H|].
  apply (line_breaker_terminates Demo.world 60 720 demo_passage). exact H.
Defined.

(** ** What [generate_images] returns and saves *)

Lemma generate_loop_done (w : World) (fuel : nat) (font_path image_dir : string)
    (bg_img : option string) (st : Style) (size : Z * Z) (chunks : list text) :
  forall i paths tr res tr',
  generate_loop w fuel font_path image_dir bg_img (bg_files_of w bg_img) st
    size i chunks paths tr = (Done res, tr') ->
  exists frames,
    rendered_as w fuel font_path bg_img st size i chunks frames
    /\ res = paths ++ map (img_path image_dir) (seq i (List.length chunks))
    /\ tr' = tr ++ saved_from image_dir i frames.
Proof.
  induction chunks as [|txt rest IH]; intros i paths tr res tr' H;
    cbn [generate_loop] in H.
  - injection H as <- <-. exists []. split; [constructor|].
    cbn. rewrite !app_nil_r. split; reflexivity.
  - destruct (render_text_image w fuel txt font_path size
                (chosen_bg w bg_img (bg_files_of w bg_img) i) st)
      as [f| |] eqn:Hr; try discriminate.
    apply IH in H. destruct H as (frames & Hren & -> & ->).
    assert (List.length frames = List.length rest) as Hlen.
    { unfold rendered_as in Hren. apply Forall2_length in Hren.
      rewrite length_combine, length_seq, Nat.min_id in Hren. lia. }
    exists (f :: frames). split; [|split].
    + unfold rendered_as. cbn [List.length seq combine].
      constructor; [exact Hr|exact Hren].
    + cbn [List.length seq map]. rewrite <- app_assoc. reflexivity.
    + unfold saved_from. cbn [List.length seq map combine].
      rewrite <- app_assoc. reflexivity.
Qed.

Lemma generate_loop_raised (w : World) (fuel : nat)
    (font_path image_dir : string) (bg_img : option string) (st : Style)
    (size : Z * Z) (e : exn) (chunks : list text) :
  forall i paths tr tr',
  generate_loop w fuel font_path image_dir bg_img (bg_files_of w bg_img) st
    size i chunks paths tr = (Raised e, tr') ->
  exists pre bad post frames,
    chunks = pre ++ bad :: post
    /\ rendered_as w fuel font_path bg_img st size i pre frames
    /\ render_slide w fuel font_path bg_img (bg_files_of w bg_img) st size
         (i + List.length pre) bad = Raised e
    /\ tr' = tr ++ saved_from image_dir i frames.
Proof.
  induction chunks as [|txt rest IH]; intros i paths tr tr' H;
    cbn [generate_loop] in H; [discriminate|].
  destruct (render_text_image w fuel txt font_path size
              (chosen_bg w bg_img (bg_files_of w bg_img) i) st)
    as [f| |] eqn:Hr; try discriminate.
  - apply IH in H. destruct H as (pre & bad & post & frames & -> & Hren & Hbad & ->).
    exists (txt :: pre), bad, post, (f :: frames).
    split; [reflexivity|]. split; [|split].
    + unfold rendered_as. cbn [List.length seq combine].
      constructor; [exact Hr|exact Hren].
    + cbn [List.length]. rewrite Nat.add_succ_r. exact Hbad.
    + unfold saved_from. cbn [List.length seq map combine].
      rewrite <- app_assoc. reflexivity.
  - injection H as <- <-.
    exists [], txt, rest, []. split; [reflexivity|]. split; [constructor|].
    split; [cbn [List.length]; rewrite Nat.add_0_r; exact Hr|].
    cbn. rewrite app_nil_r. reflexivity.
Qed.

(** X4: when [generate_images] succeeds it has rendered every chunk, in
    order, saved frame [i] as [img_i.png] in the image folder, and returns
    exactly those paths: one per chunk, none for anything else. *)
Theorem generate_images_done (w : World) (fuel : nat) (chunks : list text)
    (font_path image_dir : string) (bg_img : option string) (st : Style)
    (size : Z * Z) (tr tr' : trace) (paths : list string) :
  generate_images w fuel chunks font_path image_dir bg_img st size tr
  = (Done paths, tr') ->
  paths = map (img_path image_dir) (seq 0 (List.length chunks))
  /\ exists frames,
       rendered_as w fuel font_path bg_img st size 0 chunks frames
       /\ List.length frames = List.length chunks
       /\ tr' = tr ++ saved_from image_dir 0 frames.
Proof.
  unfold generate_images. intros H.
  apply generate_loop_done in H. destruct H as (frames & Hren & -> & ->).
  split; [reflexivity|]. exists frames. split; [exact Hren|].
  split; [|reflexivity].
  unfold rendered_as in Hren. apply Forall2_length in Hren.
  rewrite length_combine, length_seq, Nat.min_id in Hren. lia.
Qed.

(** X5: [generate_images] stops at the first slide that raises.  The slides
    before it have been rendered and saved, the exception is the one of that
    slide, and no later chunk is rendered. *)
Theorem generate_images_raised (w : World) (fuel : nat) (chunks : list text)
    (font_path image_dir : string) (bg_img : option string) (st : Style)
    (size : Z * Z) (tr tr' : trace) (e : exn) :
  generate_images w fuel chunks font_path image_dir bg_img st size tr
  = (Raised e, tr') ->
  exists pre bad post frames,
    chunks = pre ++ bad :: post
    /\ rendered_as w fuel font_path bg_img st size 0 pre frames
    /\ render_slide w fuel font_path bg_img (bg_files_of w bg_img) st size
         (List.length pre) bad = Raised e
    /\ tr' = tr ++ saved_from image_dir 0 frames
    /\ List.length frames = List.length pre.
Proof.
  unfold generate_images. intros H.
  apply generate_loop_raised in H.
  destruct H as (pre & bad & post & frames & -> & Hren & Hbad & ->).
  exists pre, bad, post, frames. cbn [Nat.add] in Hbad.
  repeat split; try assumption.
  unfold rendered_as in Hren. apply Forall2_length in Hren.
  rewrite length_combine, length_seq, Nat.min_id in Hren. lia.
Qed.

Lemma generate_images_done_witness :
  generate_images Demo.world 20 [of_ascii "hello"; Demo.w2] "font.ttf" "images"
    None Demo.style (720, 1280) []
  = (Done ["images/img_0.png"; "images/img_1.png"]%string,
     snd (generate_images Demo.world 20 [of_ascii "hello"; Demo.w2] "font.ttf"
            "images" None Demo.style (720, 1280) []))
  /\ (["images/img_0.png"; "images/img_1.png"]%string
      = map (img_path "images") (seq 0 (List.length [of_ascii "hello"; Demo.w2]))
      /\ exists frames,
           rendered_as Demo.world 20 "font.ttf" None Demo.style (720, 1280) 0
             [of_ascii "hello"; Demo.w2] frames
           /\ List.length frames = List.length [of_ascii "hello"; Demo.w2]
           /\ snd (generate_images Demo.world 20 [of_ascii "hello"; Demo.w2]
                     "font.ttf" "images" None Demo.style (720, 1280) [])
              = [] ++ saved_from "images" 0 frames).
Proof.
  assert (generate_images Demo.world 20 [of_ascii "hello"; Demo.w2] "font.ttf"
            "images" None Demo.style (720, 1280) []
          = (Done ["images/img_0.png"; "images/img_1.png"]%string,
             snd (generate_images Demo.world 20 [of_ascii "hello"; Demo.w2]
                    "font.ttf" "images" None Demo.style (720, 1280) []))) as H
    by (vm_compute; reflexivity).
  split; [exact H|].
  apply (generate_images_done Demo.world 20 [of_ascii "hello"; Demo.w2]
           "font.ttf" "images" None Demo.style (720, 1280) [] _ _ H).
Defined.

Lemma generate_images_raised_witness :
  generate_images Demo.world 20 [of_ascii "hello"; Demo.w2] "broken.ttf"
    "images" None Demo.style (720, 1280) []
  = (Raised FT_Exception,
     snd (generate_images Demo.world 20 [of_ascii "hello"; Demo.w2]
            "broken.ttf" "images" None Demo.style (720, 1280) []))
  /\ exists pre bad post frames,
       [of_ascii "hello"; Demo.w2] = pre ++ bad :: post
       /\ rendered_as Demo.world 20 "broken.ttf" None Demo.style (720, 1280) 0
            pre frames
       /\ render_slide Demo.world 20 "broken.ttf" None
            (bg_files_of Demo.world None) Demo.style (720, 1280)
            (List.length pre) bad = Raised FT_Exception
       /\ snd (generate_images Demo.world 20 [of_ascii "hello"; Demo.w2]
                 "broken.ttf" "images" None Demo.style (720, 1280) [])
          = [] ++ saved_from "images" 0 frames
       /\ List.length frames = List.length pre.
Proof.
  assert (generate_images Demo.world 20 [of_ascii "hello"; Demo.w2] "broken.ttf"
            "images" None Demo.style (720, 1280) []
          = (Raised FT_Exception,
             snd (generate_images Demo.world 20 [of_ascii "hello"; Demo.w2]
                    "broken.ttf" "images" None Demo.style (720, 1280) []))) as H
    by (vm_compute; reflexivity).
  split; [exact H|].
  apply (generate_images_raised Demo.world 20 [of_ascii "hello"; Demo.w2]
           "broken.ttf" "images" None Demo.style (720, 1280) [] _ _ H).
Defined.

(** ** Backgrounds *)

(** X6: a background path that names nothing is no error: the slide is
    rendered exactly as without a background, on the solid fill.  A path
    that exists but is no image aborts the slide, whatever its text. *)
Theorem background_missing_or_unreadable (w : World) (fuel : nat) (txt : text)
    (font_path : string) (size : Z * Z) (p : string) (st : Style) :
  (fs w p = None ->
   render_text_image w fuel txt font_path size (Some p) st
   = render_text_image w fuel txt font_path size None st)
  /\ (p <> EmptyString -> fs w p = Some FOther ->
      render_text_image w fuel txt font_path size (Some p) st
      = Raised UnidentifiedImageError)
  /\ (forall f,
        render_text_image w fuel txt font_path size None st = Done f ->
        fr_bg f = BgSolid (40, 40, 40, 255)).
Proof.
  unfold render_text_image. destruct size as [width height].
  split; [|split].
  - intros Hp. unfold load_background, exists_path. cbn [path_of].
    rewrite Hp, andb_false_r. reflexivity.
  - intros Hne Hp. unfold load_background, exists_path, image_open.
    cbn [given path_of]. apply String.eqb_neq in Hne.
    rewrite Hne, Hp. reflexivity.
  - intros f. unfold load_background. cbn [given andb bind].
    destruct (color w (box_color st)); cbn [bind]; try discriminate.
    destruct (color w (shadow_color st)); cbn [bind]; try discriminate.
    destruct (contains_complex_script txt).
    + destruct (load_face w font_path); cbn [bind]; try discriminate.
      destruct (color w (font_color st)); cbn [bind]; try discriminate.
      destruct (complex_lines w (font_size st) width fuel txt); cbn [bind];
        try discriminate.
      intros H. injection H as <-. reflexivity.
    + destruct (load_simple_font w font_path (font_size st)); cbn [bind];
        try discriminate.
      destruct (color w (font_color st)); cbn [bind]; try discriminate.
      intros H. injection H as <-. reflexivity.
Qed.

Lemma background_missing_or_unreadable_witness :
  fs Demo.world "nowhere.png" = None
  /\ "broken.ttf"%string <> EmptyString
  /\ fs Demo.world "broken.ttf" = Some FOther
  /\ render_text_image Demo.world 20 Demo.w2 "font.ttf" (720, 1280)
       (Some "nowhere.png"%string) Demo.style
     = render_text_image Demo.world 20 Demo.w2 "font.ttf" (720, 1280) None
         Demo.style
  /\ render_text_image Demo.world 20 Demo.w2 "font.ttf" (720, 1280)
       (Some "broken.ttf"%string) Demo.style
     = Raised UnidentifiedImageError.
Proof.
  split; [reflexivity|]. split; [discriminate|]. split; [reflexivity|].
  split.
  - apply (background_missing_or_unreadable Demo.world 20 Demo.w2 "font.ttf"
             (720, 1280) "nowhere.png" Demo.style). reflexivity.
  - apply (background_missing_or_unreadable Demo.world 20 Demo.w2 "font.ttf"
             (720, 1280) "broken.ttf" Demo.style); [discriminate|reflexivity].
Defined.

Lemma in_filter_map_join (dir : string) (p : string -> bool)
    (names : list string) (f : string) :
  In f (map (path_join dir) (filter p names)) ->
  exists name, In name names /\ p name = true /\ f = path_join dir name.
Proof.
  intros H. apply in_map_iff in H. destruct H as (name & <- & Hin).
  apply filter_In in Hin. destruct Hin as [Hin Hp].
  exists name. repeat split; assumption.
Qed.

(** X7: when the background is a folder with image files, every slide gets
    one of them: the path chosen is the folder joined with one of its
    entries, and that entry ends, case ignored, in one of the five image
    extensions.  Other entries of the folder are never chosen. *)
Theorem background_folder_choice (w : World) (dir : string)
    (files : list string) (i : nat) :
  bg_files_of w (Some dir) = Some files ->
  files <> []
  /\ exists name,
       chosen_bg w (Some dir) (Some files) i = Some (path_join dir name)
       /\ In (path_join dir name) files
       /\ In name (listdir w dir)
       /\ endswith_any (lower name) image_exts = true.
Proof.
  unfold bg_files_of. cbn [path_of].
  destruct (given (Some dir) && isdir w dir); [|discriminate].
  destruct (map (path_join dir)
              (filter (fun f => endswith_any (lower f) image_exts) (listdir w dir)))
    as [|f0 fl] eqn:Hfiles; [discriminate|].
  intros H. injection H as <-. split; [discriminate|].
  cbn [chosen_bg].
  set (k := (random_index w i (List.length (f0 :: fl)) mod List.length (f0 :: fl))%nat).
  assert (k < List.length (f0 :: fl))%nat as Hk
    by (apply Nat.mod_upper_bound; discriminate).
  pose proof (nth_In (f0 :: fl) EmptyString Hk) as Hin.
  assert (In (nth k (f0 :: fl) EmptyString)
             (map (path_join dir)
                (filter (fun f => endswith_any (lower f) image_exts)
                        (listdir w dir)))) as Hin'
    by (rewrite Hfiles; exact Hin).
  clear Hin. rename Hin' into Hin.
  apply in_filter_map_join in Hin.
  destruct Hin as (name & Hname & Hext & Heq).
  exists name. rewrite <- Heq. split; [reflexivity|].
  split; [apply nth_In; exact Hk|]. split; assumption.
Qed.

Lemma background_folder_choice_witness :
  bg_files_of Demo.world (Some "photos"%string)
  = Some ["photos/a.PNG"; "photos/b.jpg"]%string
  /\ (["photos/a.PNG"; "photos/b.jpg"]%string <> []
      /\ exists name,
           chosen_bg Demo.world (Some "photos"%string)
             (Some ["photos/a.PNG"; "photos/b.jpg"]%string) 1
           = Some (path_join "photos" name)
           /\ In (path_join "photos" name)
                ["photos/a.PNG"; "photos/b.jpg"]%string
           /\ In name (listdir Demo.world "photos")
           /\ endswith_any (lower name) image_exts = true).
Proof.
  split; [reflexivity|].
  apply (background_folder_choice Demo.world "photos"
           ["photos/a.PNG"; "photos/b.jpg"]%string 1).
  reflexivity.
Defined.

(** ** Colours *)

(** X8: a box or shadow colour that [ImageColor.getrgb] rejects raises
    [ValueError] on every slide whose background loads, whatever the text
    and on either path; in [main] that is the first slide, after the
    narration has been generated and before any image is saved. *)
Theorem malformed_colour_raises (w : World) (fuel : nat) (txt : text)
    (font_path : string) (size : Z * Z) (bg_path : option string) (st : Style)
    (bg : background) :
  load_background w bg_path = Done bg ->
  getrgb w (box_color st) = None \/ getrgb w (shadow_color st) = None ->
  render_text_image w fuel txt font_path size bg_path st = Raised ValueError.
Proof.
  intros Hbg Hcol. unfold render_text_image. destruct size as [width height].
  rewrite Hbg. cbn [bind]. unfold color at 1.
  destruct (getrgb w (box_color st)) as [b|]; [|reflexivity].
  destruct Hcol as [Hc|Hc]; [discriminate|].
  cbn [bind]. unfold color at 1. rewrite Hc. reflexivity.
Qed.

Lemma malformed_colour_raises_witness :
  load_background Demo.world None = Done (BgSolid solid_fill)
  /\ (getrgb Demo.world (box_color bad_shadow_style) = None
      \/ getrgb Demo.world (shadow_color bad_shadow_style) = None)
  /\ render_text_image Demo.world 20 Demo.w2 "font.ttf" (720, 1280) None
       bad_shadow_style
     = Raised ValueError.
Proof.
  split; [reflexivity|]. split; [right; reflexivity|].
  apply (malformed_colour_raises Demo.world 20 Demo.w2 "font.ttf" (720, 1280)
           None bad_shadow_style (BgSolid solid_fill));
    [reflexivity|right; reflexivity].
Defined.

(** ** The timeline *)

Lemma Qsum_plain (clips : list image_clip) :
  Qsum (map unit_duration (map Plain clips)) = Qsum (map ic_duration clips).
Proof.
  induction clips as [|c rest IH]; cbn [map Qsum fold_right]; [reflexivity|].
  unfold Qsum in IH. rewrite IH. reflexivity.
Qed.

Lemma Qsum_with_bars (size : Z * Z) (bar_rgb : rgb) (ph : Z) (n : nat)
    (clips : list image_clip) :
  forall idx,
    Qsum (map unit_duration (with_bars size bar_rgb ph n idx clips))
    = Qsum (map ic_duration clips).
Proof.
  induction clips as [|c rest IH]; intros idx;
    cbn [with_bars map Qsum fold_right]; [reflexivity|].
  specialize (IH (S idx)). unfold Qsum in IH. rewrite IH. reflexivity.
Qed.

Lemma compose_duration (w : World) (images : list string) (audio_dir : string)
    (bg_music : option string) (size : Z * Z) (o : Overlays) :
  duration (fst (compose w images audio_dir bg_music size o))
  = Qsum (map ic_duration (clips_of w images audio_dir size o)).
Proof.
  unfold compose, clips_of.
  set (clips := slide_clips w audio_dir size (min_duration o) 0%nat images).
  destruct (given bg_music && exists_path w (path_of bg_music));
    destruct (given (logo_path o) && exists_path w (path_of (logo_path o)));
    try destruct (image_open w (path_of (logo_path o)));
    destruct (enable_progress_bar o && negb (Nat.eqb (List.length clips) 0));
    try destruct (getrgb w (progress_color o));
    cbn [fst duration];
    first [apply Qsum_with_bars | apply Qsum_plain].
Qed.

Lemma Qsum_floor (w : World) (m : Q) (clips : list image_clip) :
  Forall (duration_floor_ok w m) clips ->
  (Qsum (map (fun c => a_file_duration (ic_audio c)) clips)
   <= Qsum (map ic_duration clips))%Q
  /\ ((0 < m)%Q ->
      (inject_Z (Z.of_nat (List.length clips)) * m
       <= Qsum (map ic_duration clips))%Q)
  /\ (~ (0 < m)%Q ->
      Qsum (map ic_duration clips)
      = Qsum (map (fun c => a_file_duration (ic_audio c)) clips)).
Proof.
  induction 1 as [|c rest Hc _ IH]; cbn [map Qsum fold_right List.length].
  - split; [apply Qle_refl|]. split; [intros _|reflexivity].
    cbn. rewrite Qmult_0_l. apply Qle_refl.
  - destruct IH as (IH1 & IH2 & IH3).
    destruct Hc as (Hmax & Hraw & Haud & Hfile & Hle).
    fold (Qsum (map ic_duration rest)) in *.
    fold (Qsum (map (fun c => a_file_duration (ic_audio c)) rest)) in *.
    split; [|split].
    + rewrite Haud in Hle. lra.
    + intros Hm. specialize (IH2 Hm). specialize (Hmax Hm).
      rewrite Nat2Z.inj_succ. unfold Z.succ. rewrite inject_Z_plus.
      pose proof (Q.le_max_r (audio_file_duration w (a_path (ic_audio c))) m) as Hr.
      rewrite <- Hmax in Hr.
      change (inject_Z 1) with 1%Q. lra.
    + intros Hm. rewrite (IH3 Hm), (Hraw Hm), Hfile. reflexivity.
Qed.

(** X9: the length of the assembled timeline is the sum of the slide
    durations, whatever music, logo or progress bar is laid over it.  It is
    never shorter than the narration, it is at least [min_duration] per
    slide when [min_duration > 0], and it is exactly the narration
    otherwise. *)
Theorem timeline_duration (w : World) (images : list string)
    (audio_dir : string) (bg_music : option string) (size : Z * Z)
    (o : Overlays) :
  images <> [] ->
  let clips := clips_of w images audio_dir size o in
  let total := duration (fst (compose w images audio_dir bg_music size o)) in
  let narration := Qsum (map (fun c => a_file_duration (ic_audio c)) clips) in
  total = Qsum (map ic_duration clips)
  /\ List.length clips = List.length images
  /\ (narration <= total)%Q
  /\ ((0 < min_duration o)%Q ->
      (inject_Z (Z.of_nat (List.length images)) * min_duration o <= total)%Q)
  /\ (~ (0 < min_duration o)%Q -> total = narration).
Proof.
  intros _ clips total narration. subst total narration.
  rewrite compose_duration. fold clips.
  assert (List.length clips = List.length images) as Hlen
    by (apply slide_clips_length).
  destruct (Qsum_floor w (min_duration o) clips) as (H1 & H2 & H3).
  { apply slide_clips_floor. }
  rewrite <- Hlen. repeat split; assumption.
Qed.

Lemma timeline_duration_witness :
  Demo.two_images <> []
  /\ (duration (fst (compose Demo.world Demo.two_images "audio_chunks" None
                       demo_size floor_overlays))
      = Qsum (map ic_duration
                (clips_of Demo.world Demo.two_images "audio_chunks" demo_size
                   floor_overlays))
      /\ List.length (clips_of Demo.world Demo.two_images "audio_chunks"
                        demo_size floor_overlays)
         = List.length Demo.two_images
      /\ (Qsum (map (fun c => a_file_duration (ic_audio c))
                  (clips_of Demo.world Demo.two_images "audio_chunks"
                     demo_size floor_overlays))
          <= duration (fst (compose Demo.world Demo.two_images "audio_chunks"
                              None demo_size floor_overlays)))%Q
      /\ ((0 < min_duration floor_overlays)%Q ->
          (inject_Z (Z.of_nat (List.length Demo.two_images))
           * min_duration floor_overlays
           <= duration (fst (compose Demo.world Demo.two_images "audio_chunks"
                               None demo_size floor_overlays)))%Q)
      /\ (~ (0 < min_duration floor_overlays)%Q ->
          duration (fst (compose Demo.world Demo.two_images "audio_chunks" None
                           demo_size floor_overlays))
          = Qsum (map (fun c => a_file_duration (ic_audio c))
                    (clips_of Demo.world Demo.two_images "audio_chunks"
                       demo_size floor_overlays)))).
Proof.
  split; [discriminate|].
  apply (timeline_duration Demo.world Demo.two_images "audio_chunks" None
           demo_size floor_overlays).
  discriminate.
Defined.

(** ** Overlays *)

Lemma clips_nonempty (w : World) (images : list string) (audio_dir : string)
    (size : Z * Z) (o : Overlays) :
  images <> [] ->
  Nat.eqb (List.length (clips_of w images audio_dir size o)) 0 = false.
Proof.
  intros Hne. unfold clips_of. rewrite slide_clips_length.
  destruct images; [contradiction|reflexivity].
Qed.

(** X10: a progress bar replaces the overlays made before it.  With the bar
    enabled and its colour valid, the composed video is the concatenation of
    the slides with their bars and nothing else: background music and logo,
    though given and present, are in it no more. *)
Theorem progress_bar_drops_music_and_logo (w : World) (images : list string)
    (audio_dir : string) (bg_music : option string) (size : Z * Z)
    (o : Overlays) (bar_rgb : rgb) :
  images <> [] ->
  enable_progress_bar o = true ->
  getrgb w (progress_color o) = Some bar_rgb ->
  let final := fst (compose w images audio_dir bg_music size o) in
  final
  = Concatenate
      (with_bars size bar_rgb (progress_height o) (List.length images) 0
         (clips_of w images audio_dir size o))
  /\ musics_of final = []
  /\ logos_of final = []
  /\ final = fst (compose w images audio_dir None size (without_logo o)).
Proof.
  intros Hne Hen Hrgb final.
  pose proof (clips_nonempty w images audio_dir size o Hne) as Hc.
  assert (forall music o',
            enable_progress_bar o' = true ->
            progress_color o' = progress_color o ->
            progress_height o' = progress_height o ->
            min_duration o' = min_duration o ->
            fst (compose w images audio_dir music size o')
            = Concatenate
                (with_bars size bar_rgb (progress_height o)
                   (List.length images) 0 (clips_of w images audio_dir size o)))
    as Hform.
  { intros music o' Hen' Hcol' Hph' Hmin'. unfold compose, clips_of in *.
    rewrite Hmin', Hen', Hcol', Hph', Hrgb, Hc, slide_clips_length.
    cbn [negb andb].
    destruct (given music && exists_path w (path_of music));
      destruct (given (logo_path o') && exists_path w (path_of (logo_path o')));
      try destruct (image_open w (path_of (logo_path o')));
      reflexivity. }
  subst final. rewrite (Hform bg_music o Hen eq_refl eq_refl eq_refl).
  repeat split.
  symmetry. apply Hform; [exact Hen|reflexivity..].
Qed.

Lemma progress_bar_drops_music_and_logo_witness :
  Demo.two_images <> []
  /\ enable_progress_bar logo_progress_overlays = true
  /\ getrgb studio (progress_color logo_progress_overlays)
     = Some (255, 255, 255)
  /\ (fst (compose studio Demo.two_images "audio_chunks"
             (Some "music.mp3"%string) (720, 1280) logo_progress_overlays)
      = Concatenate
          (with_bars (720, 1280) (255, 255, 255)
             (progress_height logo_progress_overlays)
             (List.length Demo.two_images) 0
             (clips_of studio Demo.two_images "audio_chunks" (720, 1280)
                logo_progress_overlays))
      /\ musics_of
           (fst (compose studio Demo.two_images "audio_chunks"
                   (Some "music.mp3"%string) (720, 1280) logo_progress_overlays))
         = []
      /\ logos_of
           (fst (compose studio Demo.two_images "audio_chunks"
                   (Some "music.mp3"%string) (720, 1280) logo_progress_overlays))
         = []
      /\ fst (compose studio Demo.two_images "audio_chunks"
                (Some "music.mp3"%string) (720, 1280) logo_progress_overlays)
         = fst (compose studio Demo.two_images "audio_chunks" None
                  (720, 1280) (without_logo logo_progress_overlays))).
Proof.
  split; [discriminate|]. split; [reflexivity|]. split; [reflexivity|].
  apply (progress_bar_drops_music_and_logo studio Demo.two_images
           "audio_chunks" (Some "music.mp3"%string) (720, 1280)
           logo_progress_overlays (255, 255, 255));
    [discriminate|reflexivity|reflexivity].
Defined.

(** X11: a progress colour that [ImageColor.getrgb] rejects is not fatal:
    the video is composed as with the bar switched off, and one warning line
    is printed after the warnings of that composition. *)
Theorem bad_progress_colour_warns (w : World) (images : list string)
    (audio_dir : string) (bg_music : option string) (size : Z * Z)
    (o : Overlays) :
  images <> [] ->
  enable_progress_bar o = true ->
  getrgb w (progress_color o) = None ->
  compose w images audio_dir bg_music size o
  = (fst (compose w images audio_dir bg_music size (without_progress o)),
     snd (compose w images audio_dir bg_music size (without_progress o))
     ++ [Printed "[WARN] Could not draw progress bar"]).
Proof.
  intros Hne Hen Hrgb.
  pose proof (clips_nonempty w images audio_dir size o Hne) as Hc.
  unfold compose, clips_of in *.
  cbn [without_progress min_duration logo_path logo_position logo_opacity
       enable_progress_bar andb].
  rewrite Hen, Hrgb, Hc. cbn [negb andb].
  destruct (given bg_music && exists_path w (path_of bg_music));
    destruct (given (logo_path o) && exists_path w (path_of (logo_path o)));
    try destruct (image_open w (path_of (logo_path o)));
    reflexivity.
Qed.

Lemma bad_progress_colour_warns_witness :
  Demo.two_images <> []
  /\ enable_progress_bar bad_progress_overlays = true
  /\ getrgb Demo.world (progress_color bad_progress_overlays) = None
  /\ compose Demo.world Demo.two_images "audio_chunks" None (720, 1280)
       bad_progress_overlays
     = (fst (compose Demo.world Demo.two_images "audio_chunks" None (720, 1280)
               (without_progress bad_progress_overlays)),
        snd (compose Demo.world Demo.two_images "audio_chunks" None (720, 1280)
               (without_progress bad_progress_overlays))
        ++ [Printed "[WARN] Could not draw progress bar"]).
Proof.
  split; [discriminate|]. split; [reflexivity|]. split; [reflexivity|].
  apply (bad_progress_colour_warns Demo.world Demo.two_images "audio_chunks"
           None (720, 1280) bad_progress_overlays);
    [discriminate|reflexivity|reflexivity].
Defined.

(** X12: the logo.  A logo path that is absent or names nothing leaves the
    video as without a logo, silently; a logo file that cannot be opened as
    an image leaves it so too, after one warning line.  A logo that is laid
    over the video has its opacity clamped into [[0, 1]], a width of 0.2
    times the canvas width, the anchor of [pos_map], and lasts as long as
    the timeline. *)
Theorem logo_overlay (w : World) (images : list string) (audio_dir : string)
    (bg_music : option string) (size : Z * Z) (o : Overlays) :
  images <> [] ->
  let final := fst (compose w images audio_dir bg_music size o) in
  (given (logo_path o) && exists_path w (path_of (logo_path o)) = false ->
   compose w images audio_dir bg_music size o
   = compose w images audio_dir bg_music size (without_logo o))
  /\ (given (logo_path o) && exists_path w (path_of (logo_path o)) = true ->
      image_open w (path_of (logo_path o)) <> Done tt ->
      compose w images audio_dir bg_music size o
      = (fst (compose w images audio_dir bg_music size (without_logo o)),
         Printed "[WARN] Could not overlay logo"
         :: snd (compose w images audio_dir bg_music size (without_logo o))))
  /\ Forall (fun l =>
               Some (lg_path l) = logo_path o
               /\ (0 <= lg_opacity l <= 1)%Q
               /\ lg_width l
                  = Float64.mul (Float64.of_int (fst size)) (Float64.lit (2 # 10))
               /\ lg_position l = pos_map (logo_position o)
               /\ lg_duration l = duration final)
            (logos_of final).
Proof.
  intros _ final. split; [|split].
  - intros Hno. unfold compose.
    cbn [without_logo logo_path given andb min_duration enable_progress_bar
         progress_color progress_height].
    rewrite Hno. reflexivity.
  - intros Hyes Hbad. unfold compose.
    cbn [without_logo logo_path given andb min_duration enable_progress_bar
         progress_color progress_height].
    rewrite Hyes.
    destruct (image_open w (path_of (logo_path o))) as [[]| |];
      [contradiction Hbad; reflexivity|..];
      destruct (enable_progress_bar o && _);
      try destruct (getrgb w (progress_color o)); reflexivity.
  - subst final. rewrite compose_duration. unfold compose, clips_of.
    set (clips := slide_clips w audio_dir size (min_duration o) 0%nat images).
    assert (forall c, duration c = Qsum (map ic_duration clips) ->
                      forall l, l = {| lg_path := path_of (logo_path o);
                          lg_width := Float64.mul (Float64.of_int (fst size))
                                        (Float64.lit (2 # 10));
                          lg_opacity := py_max 0%Q (py_min 1%Q (logo_opacity o));
                          lg_margins := logo_margins (logo_position o);
                          lg_duration := duration c;
                          lg_position := pos_map (logo_position o) |} ->
                      given (logo_path o) = true ->
                      Some (lg_path l) = logo_path o
                      /\ (0 <= lg_opacity l <= 1)%Q
                      /\ lg_width l
                         = Float64.mul (Float64.of_int (fst size))
                             (Float64.lit (2 # 10))
                      /\ lg_position l = pos_map (logo_position o)
                      /\ lg_duration l = Qsum (map ic_duration clips)) as Hl.
    { intros c Hc l -> Hg. cbn [lg_path lg_opacity lg_width lg_position lg_duration].
      split; [destruct (logo_path o); [reflexivity|discriminate]|].
      split; [apply clamp_unit|]. repeat split. exact Hc. }
    destruct (given bg_music && exists_path w (path_of bg_music));
      destruct (given (logo_path o)) eqn:Hg; cbn [andb];
      try destruct (exists_path w (path_of (logo_path o)));
      try destruct (image_open w (path_of (logo_path o)));
      destruct (enable_progress_bar o && negb (Nat.eqb (List.length clips) 0));
      try destruct (getrgb w (progress_color o));
      cbn [fst logos_of];
      lazymatch goal with
      | |- Forall _ [] => constructor
      | |- Forall _ [_] =>
          constructor; [|constructor];
          eapply Hl; [|reflexivity|reflexivity];
          cbn [duration]; apply Qsum_plain
      end.
Qed.

Lemma logo_overlay_witness :
  Demo.two_images <> []
  /\ ((given (logo_path logo_overlays)
       && exists_path studio (path_of (logo_path logo_overlays)) = false ->
       compose studio Demo.two_images "audio_chunks" None demo_size
         logo_overlays
       = compose studio Demo.two_images "audio_chunks" None demo_size
           (without_logo logo_overlays))
      /\ (given (logo_path logo_overlays)
          && exists_path studio (path_of (logo_path logo_overlays)) = true ->
          image_open studio (path_of (logo_path logo_overlays)) <> Done tt ->
          compose studio Demo.two_images "audio_chunks" None demo_size
            logo_overlays
          = (fst (compose studio Demo.two_images "audio_chunks" None
                    demo_size (without_logo logo_overlays)),
             Printed "[WARN] Could not overlay logo"
             :: snd (compose studio Demo.two_images "audio_chunks" None
                       demo_size (without_logo logo_overlays))))
      /\ Forall (fun l =>
                   Some (lg_path l) = logo_path logo_overlays
                   /\ (0 <= lg_opacity l <= 1)%Q
                   /\ lg_width l
                      = Float64.mul (Float64.of_int (fst demo_size))
                          (Float64.lit (2 # 10))
                   /\ lg_position l = pos_map (logo_position logo_overlays)
                   /\ lg_duration l
                      = duration (fst (compose studio Demo.two_images
                                         "audio_chunks" None demo_size
                                         logo_overlays)))
                (logos_of (fst (compose studio Demo.two_images
                                  "audio_chunks" None demo_size logo_overlays)))).
Proof.
  split; [discriminate|].
  apply (logo_overlay studio Demo.two_images "audio_chunks" None demo_size
           logo_overlays).
  discriminate.
Defined.

(** X13: the margin of the logo is on the edges its anchor touches: for each
    of the six positions [--logo-position] admits, a margin of 20 on the
    side of the vertical anchor, and one of 20 on the side of the horizontal
    anchor unless that is the centre. *)
Theorem logo_margin_matches_anchor (p : string) :
  In p logo_positions ->
  logo_margins p
  = (snd (pos_map p), 20)
    :: (if (fst (pos_map p) =? "center")%string then []
        else [(fst (pos_map p), 20)]).
Proof.
  intros Hin. unfold logo_positions in Hin. cbn [In] in Hin.
  repeat (destruct Hin as [<-|Hin]; [reflexivity|]). contradiction.
Qed.

Lemma logo_margin_matches_anchor_witness :
  In "bottom-left"%string logo_positions
  /\ logo_margins "bottom-left"
     = (snd (pos_map "bottom-left"), 20)
       :: (if (fst (pos_map "bottom-left") =? "center")%string then []
           else [(fst (pos_map "bottom-left"), 20)]).
Proof.
  split; [cbn; tauto|].
  apply (logo_margin_matches_anchor "bottom-left"). cbn. tauto.
Defined.

(** X14: background music.  A music path that is absent or names nothing
    leaves the video without music, silently.  Music that is mixed in plays
    at the volume 0.1 under the narration and is looped to exactly the
    length of the slide timeline. *)
Theorem music_bed (w : World) (images : list string) (audio_dir : string)
    (bg_music : option string) (size : Z * Z) (o : Overlays) :
  images <> [] ->
  let final := fst (compose w images audio_dir bg_music size o) in
  (given bg_music && exists_path w (path_of bg_music) = false ->
   compose w images audio_dir bg_music size o
   = compose w images audio_dir None size o)
  /\ Forall (fun m =>
               Some (mu_path m) = bg_music
               /\ mu_volume m = Float64.lit (1 # 10)
               /\ mu_duration m = duration final)
            (musics_of final).
Proof.
  intros _ final. split.
  - intros Hno. unfold compose. rewrite Hno. reflexivity.
  - subst final. rewrite compose_duration. unfold compose, clips_of.
    set (clips := slide_clips w audio_dir size (min_duration o) 0%nat images).
    destruct (given bg_music) eqn:Hg; cbn [andb];
      try destruct (exists_path w (path_of bg_music));
      destruct (given (logo_path o) && exists_path w (path_of (logo_path o)));
      try destruct (image_open w (path_of (logo_path o)));
      destruct (enable_progress_bar o && negb (Nat.eqb (List.length clips) 0));
      try destruct (getrgb w (progress_color o));
      cbn [fst musics_of];
      lazymatch goal with
      | |- Forall _ [] => constructor
      | |- Forall _ [_] =>
          constructor; [|constructor];
          cbn [mu_path mu_volume mu_duration duration];
          (split; [destruct bg_music; [reflexivity|discriminate]|]);
          (split; [reflexivity|apply Qsum_plain])
      end.
Qed.

Lemma music_bed_witness :
  Demo.two_images <> []
  /\ ((given (Some "music.mp3"%string)
       && exists_path studio (path_of (Some "music.mp3"%string)) = false ->
       compose studio Demo.two_images "audio_chunks"
         (Some "music.mp3"%string) demo_size Demo.overlays
       = compose studio Demo.two_images "audio_chunks" None demo_size
           Demo.overlays)
      /\ Forall (fun m =>
                   Some (mu_path m) = Some "music.mp3"%string
                   /\ mu_volume m = Float64.lit (1 # 10)
                   /\ mu_duration m
                      = duration (fst (compose studio Demo.two_images
                                         "audio_chunks" (Some "music.mp3"%string)
                                         demo_size Demo.overlays)))
                (musics_of (fst (compose studio Demo.two_images
                                   "audio_chunks" (Some "music.mp3"%string)
                                   demo_size Demo.overlays)))).
Proof.
  split; [discriminate|].
  apply (music_bed studio Demo.two_images "audio_chunks"
           (Some "music.mp3"%string) demo_size Demo.overlays).
  discriminate.
Defined.

(** ** Shadows *)

Lemma inject_Z_plus_eq (a b : Z) : inject_Z (a + b) = (inject_Z a + inject_Z b)%Q.
Proof.
  unfold inject_Z, Qplus. cbn [Qnum Qden]. rewrite !Z.mul_1_r. reflexivity.
Qed.

Lemma stamp_glyphs_shadow (w : World) (st : Style) (font_rgb shadow_rgb : rgb)
    (y : Q) (buf : list glyph) :
  forall x,
    stamp_glyphs w (with_shadow st true) font_rgb shadow_rgb y x buf
    = flat_map (fun op => [shadow_of st shadow_rgb op; op])
        (stamp_glyphs w (with_shadow st false) font_rgb shadow_rgb y x buf).
Proof.
  induction buf as [|g rest IH]; intros x; cbn [stamp_glyphs]; [reflexivity|].
  cbn [with_shadow font_size enable_shadow shadow_offset_x shadow_offset_y].
  destruct (ft_bitmap w (font_size st) (gid g)) as [bl bt].
  cbn [app flat_map shadow_of]. rewrite IH. reflexivity.
Qed.

Lemma stamp_lines_shadow (w : World) (st : Style) (font_rgb shadow_rgb : rgb)
    (width : Z) (lines : list text) :
  forall y,
    stamp_lines w (with_shadow st true) font_rgb shadow_rgb width y lines
    = flat_map (fun op => [shadow_of st shadow_rgb op; op])
        (stamp_lines w (with_shadow st false) font_rgb shadow_rgb width y lines).
Proof.
  induction lines as [|l rest IH]; intros y; cbn [stamp_lines]; [reflexivity|].
  cbn [with_shadow font_size].
  destruct (shape_line w l (font_size st)) as [buf lw].
  rewrite flat_map_app, <- IH, <- stamp_glyphs_shadow. reflexivity.
Qed.

Lemma draw_lines_shadow (w : World) (st : Style) (f : font)
    (font_rgb shadow_rgb : rgb) (width line_h : Z) (lines : list text) :
  forall y,
    draw_lines w (with_shadow st true) f font_rgb shadow_rgb width line_h y lines
    = flat_map (fun op => [shadow_of st shadow_rgb op; op])
        (draw_lines w (with_shadow st false) f font_rgb shadow_rgb width line_h
           y lines).
Proof.
  induction lines as [|l rest IH]; intros y; cbn [draw_lines]; [reflexivity|].
  cbn [with_shadow enable_shadow shadow_offset_x shadow_offset_y].
  cbn [app flat_map shadow_of]. rewrite IH, inject_Z_plus_eq. reflexivity.
Qed.

(** X15: the shadow.  With [--enable-shadow] every glyph of the complex path
    and every line of the simple path is painted twice: first the shadow
    stamp, moved by the shadow offset and in the shadow colour, then the
    stamp itself, which is where and as it is without the shadow.  Nothing
    else of the frame changes. *)
Theorem shadow_painted_first (w : World) (fuel : nat) (txt : text)
    (font_path : string) (size : Z * Z) (bg_path : option string) (st : Style)
    (plain : frame) :
  render_text_image w fuel txt font_path size bg_path (with_shadow st false)
  = Done plain ->
  exists shadow_rgb,
    color w (shadow_color st) = Done shadow_rgb
    /\ render_text_image w fuel txt font_path size bg_path (with_shadow st true)
       = Done {| fr_size := fr_size plain;
                 fr_bg := fr_bg plain;
                 fr_box := fr_box plain;
                 fr_box_fill := fr_box_fill plain;
                 fr_ops := flat_map (fun op => [shadow_of st shadow_rgb op; op])
                             (fr_ops plain) |}.
Proof.
  unfold render_text_image. destruct size as [width height].
  cbn [with_shadow font_size font_color box_color box_alpha text_position
       shadow_color].
  destruct (load_background w bg_path) as [bg| |]; cbn [bind]; try discriminate.
  destruct (color w (box_color st)) as [box_rgb| |]; cbn [bind]; try discriminate.
  destruct (color w (shadow_color st)) as [shadow_rgb| |]; cbn [bind];
    try discriminate.
  destruct (contains_complex_script txt).
  - destruct (load_face w font_path); cbn [bind]; try discriminate.
    destruct (color w (font_color st)) as [font_rgb| |]; cbn [bind];
      try discriminate.
    destruct (complex_lines w (font_size st) width fuel txt) as [lines| |];
      cbn [bind]; try discriminate.
    intros H. injection H as <-. exists shadow_rgb. split; [reflexivity|].
    cbn [fr_size fr_bg fr_box fr_box_fill fr_ops].
    rewrite stamp_lines_shadow. reflexivity.
  - destruct (load_simple_font w font_path (font_size st)) as [f| |];
      cbn [bind]; try discriminate.
    destruct (color w (font_color st)) as [font_rgb| |]; cbn [bind];
      try discriminate.
    intros H. injection H as <-. exists shadow_rgb. split; [reflexivity|].
    cbn [fr_size fr_bg fr_box fr_box_fill fr_ops].
    rewrite draw_lines_shadow. reflexivity.
Qed.

Lemma shadow_painted_first_witness :
  render_text_image Demo.world 20 Demo.w2 "font.ttf" (720, 1280) None
    (with_shadow Demo.style false) = Done w2_frame
  /\ exists shadow_rgb,
       color Demo.world (shadow_color Demo.style) = Done shadow_rgb
       /\ render_text_image Demo.world 20 Demo.w2 "font.ttf" (720, 1280) None
            (with_shadow Demo.style true)
          = Done {| fr_size := fr_size w2_frame;
                    fr_bg := fr_bg w2_frame;
                    fr_box := fr_box w2_frame;
                    fr_box_fill := fr_box_fill w2_frame;
                    fr_ops :=
                      flat_map (fun op => [shadow_of Demo.style shadow_rgb op; op])
                               (fr_ops w2_frame) |}.
Proof.
  assert (render_text_image Demo.world 20 Demo.w2 "font.ttf" (720, 1280) None
            (with_shadow Demo.style false) = Done w2_frame) as H
    by (vm_compute; reflexivity).
  split; [exact H|].
  apply (shadow_painted_first Demo.world 20 Demo.w2 "font.ttf" (720, 1280) None
           Demo.style w2_frame H).
Defined.

(** ** The chunks of the input file *)

Lemma lstrip_starts_clean (s : text) : starts_clean (lstrip s).
Proof.
  induction s as [|c r IH]; cbn [lstrip]; [exact I|].
  destruct (is_space c) eqn:E; [exact IH|exact E].
Qed.

Lemma lstrip_snoc_clean (a : text) (c : Z) :
  is_space c = false -> exists a', lstrip (a ++ [c]) = a' ++ [c].
Proof.
  intros Hc. induction a as [|x a IH]; cbn [app lstrip].
  - rewrite Hc. exists []. reflexivity.
  - destruct (is_space x); [exact IH|]. exists (x :: a). reflexivity.
Qed.

Lemma strip_clean (s : text) : starts_clean (strip s) /\ ends_clean (strip s).
Proof.
  unfold strip, ends_clean. rewrite rev_involutive.
  split; [|apply lstrip_starts_clean].
  pose proof (lstrip_starts_clean s) as Hs.
  destruct (lstrip s) as [|c r]; [exact I|].
  cbn [starts_clean] in Hs. cbn [rev].
  destruct (lstrip_snoc_clean (rev r) c Hs) as (a' & ->).
  rewrite rev_app_distr. exact Hs.
Qed.

Lemma lstrip_blank (s : text) : blank s = true -> lstrip s = [].
Proof.
  induction s as [|c r IH]; cbn [blank forallb lstrip]; [reflexivity|].
  intros H. apply andb_true_iff in H. destruct H as [Hc Hr].
  rewrite Hc. apply IH. exact Hr.
Qed.

Lemma lstrip_not_blank (s : text) :
  blank s = false -> lstrip s <> [] /\ blank (lstrip s) = false.
Proof.
  induction s as [|c r IH]; cbn [blank forallb lstrip]; [discriminate|].
  destruct (is_space c) eqn:Hc; cbn [andb].
  - exact IH.
  - intros _. split; [discriminate|]. cbn [blank forallb]. rewrite Hc. reflexivity.
Qed.

Lemma blank_rev (s : text) : blank (rev s) = blank s.
Proof.
  unfold blank. induction s as [|c r IH]; [reflexivity|].
  cbn [rev forallb]. rewrite forallb_app, IH. cbn [forallb].
  rewrite andb_true_r. apply andb_comm.
Qed.

(** [line.strip()] is empty exactly for the blank lines. *)
Lemma strip_truthy (s : text) : truthy (strip s) = negb (blank s).
Proof.
  unfold strip. destruct (blank s) eqn:Hb; cbn [negb].
  - rewrite (lstrip_blank s Hb). reflexivity.
  - destruct (lstrip_not_blank s Hb) as [_ Hl].
    rewrite <- blank_rev in Hl.
    destruct (lstrip_not_blank _ Hl) as [Hne _].
    destruct (lstrip (rev (lstrip s))) as [|c r]; [contradiction|].
    cbn [rev]. destruct (rev r); reflexivity.
Qed.

Lemma filter_map_commute {A B : Type} (f : B -> bool) (g : A -> B) (l : list A) :
  filter f (map g l) = map g (filter (fun x => f (g x)) l).
Proof.
  induction l as [|x l IH]; cbn [map filter]; [reflexivity|].
  rewrite IH. destruct (f (g x)); reflexivity.
Qed.

(** X16: the chunks are exactly the lines of the input file that are not
    blank, in the order of the file, each with the white space at both ends
    removed.  So no chunk is empty, none starts or ends with white space,
    each comes from a line of the file, every line that is not blank gives
    a chunk, and a file of blank lines gives none. *)
Theorem chunks_are_stripped_lines (input : list text) :
  chunks_of input = map strip (filter (fun line => negb (blank line)) input)
  /\ Forall (fun c => c <> [] /\ starts_clean c /\ ends_clean c
                      /\ exists line, In line input /\ c = strip line)
            (chunks_of input)
  /\ (forall line, In line input -> blank line = false ->
        In (strip line) (chunks_of input))
  /\ (List.length (chunks_of input) <= List.length input)%nat
  /\ (Forall (fun line => strip line = []) input -> chunks_of input = []).
Proof.
  assert (chunks_of input
          = map strip (filter (fun line => negb (blank line)) input)) as Hchunks.
  { unfold chunks_of. rewrite filter_map_commute. f_equal.
    apply filter_ext. intros line. apply strip_truthy. }
  split; [exact Hchunks|]. split; [|split; [|split]].
  - unfold chunks_of. apply Forall_forall. intros c Hc. apply filter_In in Hc.
    destruct Hc as [Hin Htr]. apply in_map_iff in Hin.
    destruct Hin as (line & <- & Hline).
    split; [intros E; rewrite E in Htr; discriminate|].
    destruct (strip_clean line) as [H1 H2].
    split; [exact H1|]. split; [exact H2|]. exists line. split; [assumption|reflexivity].
  - intros line Hin Hb. rewrite Hchunks. apply in_map. apply filter_In.
    split; [exact Hin|]. rewrite Hb. reflexivity.
  - unfold chunks_of. rewrite <- (length_map strip input). apply filter_length_le.
  - clear Hchunks. unfold chunks_of.
    induction 1 as [|line rest Hl _ IH]; cbn [map filter]; [reflexivity|].
    rewrite Hl. cbn [truthy]. exact IH.
Qed.

(** ** Slides and their narration *)

Lemma tts_tasks_files (voice rate out_dir : string) (chunks : list text) :
  forall i,
    map (fun t => (tts_text t, tts_out t)) (tts_tasks voice rate out_dir i chunks)
    = combine chunks (map (chunk_path out_dir) (seq i (List.length chunks))).
Proof.
  induction chunks as [|txt rest IH]; intros i;
    cbn [tts_tasks map List.length seq combine]; [reflexivity|].
  rewrite IH. reflexivity.
Qed.

Lemma slide_clips_files (w : World) (audio_dir : string) (size : Z * Z) (m : Q)
    (images : list string) :
  forall i,
    map clip_files (slide_clips w audio_dir size m i images)
    = combine images (map (chunk_path audio_dir) (seq i (List.length images))).
Proof.
  induction images as [|img rest IH]; intros i;
    cbn [slide_clips map List.length seq combine]; [reflexivity|].
  rewrite IH. unfold slide_clip.
  destruct (Qlt_bool 0 m && Qlt_bool _ m); reflexivity.
Qed.

Lemma combine_map_seq {A B : Type} (f : nat -> A) (g : nat -> B) (n : nat) :
  forall i,
    combine (map f (seq i n)) (map g (seq i n))
    = map (fun k => (f k, g k)) (seq i n).
Proof.
  induction n as [|n IH]; intros i; cbn [seq map combine]; [reflexivity|].
  rewrite IH. reflexivity.
Qed.

Lemma compose_warnings (w : World) (images : list string) (audio_dir : string)
    (bg_music : option string) (size : Z * Z) (o : Overlays) :
  forallb is_printed (snd (compose w images audio_dir bg_music size o)) = true.
Proof.
  unfold compose.
  set (clips := slide_clips w audio_dir size (min_duration o) 0%nat images).
  destruct (given bg_music && exists_path w (path_of bg_music));
    destruct (given (logo_path o) && exists_path w (path_of (logo_path o)));
    try destruct (image_open w (path_of (logo_path o)));
    destruct (enable_progress_bar o && negb (Nat.eqb (List.length clips) 0));
    try destruct (getrgb w (progress_color o));
    reflexivity.
Qed.

Lemma written_printed (l : list event) :
  forallb is_printed l = true -> written l = [] /\ saved_frames l = [].
Proof.
  induction l as [|e l IH]; cbn [forallb]; [split; reflexivity|].
  intros H. apply andb_true_iff in H. destruct H as [He Hl].
  destruct e; try discriminate. exact (IH Hl).
Qed.

Lemma saved_from_events (image_dir : string) (frames : list frame) :
  forall i,
    written (saved_from image_dir i frames) = []
    /\ map fst (saved_frames (saved_from image_dir i frames))
       = map (img_path image_dir) (seq i (List.length frames)).
Proof.
  unfold saved_from.
  induction frames as [|f rest IH]; intros i;
    cbn [List.length seq map combine]; [split; reflexivity|].
  destruct (IH (S i)) as [H1 H2]. split.
  - exact H1.
  - cbn [saved_frames flat_map app map fst] in *.
    unfold saved_frames in H2. rewrite H2. reflexivity.
Qed.

Lemma narrated_printed (l : list event) :
  forallb is_printed l = true -> narrated l = [].
Proof.
  induction l as [|e l IH]; cbn [forallb]; [reflexivity|].
  intros H. apply andb_true_iff in H. destruct H as [He Hl].
  destruct e; try discriminate. exact (IH Hl).
Qed.

Lemma saved_from_frames (image_dir : string) (frames : list frame) :
  forall i,
    narrated (saved_from image_dir i frames) = []
    /\ saved_frames (saved_from image_dir i frames)
       = combine (map (img_path image_dir) (seq i (List.length frames))) frames.
Proof.
  unfold saved_from.
  induction frames as [|f rest IH]; intros i;
    cbn [List.length seq map combine]; [split; reflexivity|].
  destruct (IH (S i)) as [H1 H2]. split.
  - exact H1.
  - cbn [saved_frames flat_map app fst snd] in *.
    unfold saved_frames in H2. rewrite H2. reflexivity.
Qed.

Lemma tts_tasks_voice (voice rate out_dir : string) (chunks : list text) :
  forall i,
    Forall (fun t => tts_voice t = voice /\ tts_rate t = rate)
           (tts_tasks voice rate out_dir i chunks).
Proof.
  induction chunks as [|txt rest IH]; intros i; cbn [tts_tasks];
    constructor; [split; reflexivity|apply IH].
Qed.

(** X17: order is kept from the input file to the video.  When [main] runs
    to the end, the narrator has been handed one list of tasks, task [i]
    speaking chunk [i] into [audio_chunks/chunk_i.mp3] with the voice and
    rate of the command line; the frames saved are, in order, the slides
    rendered from chunk [i] under the name [images/img_i.png]; and one video
    has been written, whose slide [i] shows [images/img_i.png] and carries
    [audio_chunks/chunk_i.mp3]; there is one slide per chunk. *)
Theorem main_keeps_order (w : World) (fuel : nat) (a : Args)
    (input : list text) :
  fst (main w fuel a input) = Done tt ->
  let chunks := chunks_of input in
  let n := List.length chunks in
  let tr := snd (main w fuel a input) in
  exists (tasks : list tts_task) (frames : list frame) (final : vclip),
    narrated tr = [tasks]
    /\ map (fun t => (tts_text t, tts_out t)) tasks
       = combine chunks (map (chunk_path "audio_chunks") (seq 0 n))
    /\ Forall (fun t => tts_voice t = arg_voice a /\ tts_rate t = arg_rate a)
              tasks
    /\ rendered_as w fuel (arg_font a) (arg_background a) (resolve_style a)
         (arg_width a, arg_height a) 0 chunks frames
    /\ saved_frames tr = combine (map (img_path "images") (seq 0 n)) frames
    /\ written tr = [FadeOut (FadeIn final 1) 1]
    /\ map clip_files (map base_clip (units_of final))
       = map (fun i => (img_path "images" i, chunk_path "audio_chunks" i))
             (seq 0 n).
Proof.
  intros Hdone chunks n tr. subst chunks n tr. unfold main in *.
  unfold generate_images in *.
  destruct (generate_loop w fuel (arg_font a) "images" (arg_background a)
              (bg_files_of w (arg_background a)) (resolve_style a)
              (arg_width a, arg_height a) 0 (chunks_of input) [] _)
    as [[images| |] tr1] eqn:Hgen; cbn [fst snd] in *; try discriminate.
  apply generate_loop_done in Hgen.
  destruct Hgen as (frames & Hren & -> & ->).
  assert (List.length frames = List.length (chunks_of input)) as Hlen.
  { unfold rendered_as in Hren. apply Forall2_length in Hren.
    rewrite length_combine, length_seq, Nat.min_id in Hren. lia. }
  cbn [app]. unfold assemble_video.
  destruct (compose w (map (img_path "images") (seq 0 (List.length (chunks_of input))))
              "audio_chunks" (arg_music a) (arg_width a, arg_height a)
              (arg_overlays a)) as [final warnings] eqn:Hc.
  pose proof (compose_warnings w
                (map (img_path "images") (seq 0 (List.length (chunks_of input))))
                "audio_chunks" (arg_music a) (arg_width a, arg_height a)
                (arg_overlays a)) as Hw.
  pose proof (compose_units w
                (map (img_path "images") (seq 0 (List.length (chunks_of input))))
                "audio_chunks" (arg_music a) (arg_width a, arg_height a)
                (arg_overlays a)) as Hu.
  rewrite Hc in Hw, Hu. cbn [fst snd] in Hw, Hu.
  destruct (written_printed warnings Hw) as [Hw1 Hw2].
  pose proof (narrated_printed warnings Hw) as Hw3.
  destruct (saved_from_events "images" frames 0) as [Hs1 _].
  destruct (saved_from_frames "images" frames 0) as [Hs3 Hs2].
  rewrite Hlen in Hs2.
  exists (generate_all_audios (chunks_of input) (arg_voice a) (arg_rate a)
            "audio_chunks"), frames, final.
  split; [|split; [|split; [|split; [|split; [|split]]]]].
  - unfold narrated in *. cbn [flat_map app].
    rewrite !flat_map_app. cbn [flat_map app].
    rewrite Hs3, Hw3. reflexivity.
  - apply tts_tasks_files.
  - apply tts_tasks_voice.
  - exact Hren.
  - unfold saved_frames in *. cbn [flat_map app].
    rewrite !flat_map_app. cbn [flat_map app].
    rewrite Hw2, !app_nil_r, Hs2. reflexivity.
  - unfold written in *. cbn [flat_map app].
    rewrite !flat_map_app. cbn [flat_map app].
    rewrite Hs1, Hw1. reflexivity.
  - rewrite Hu, slide_clips_files, length_map, length_seq.
    apply combine_map_seq.
Qed.

Lemma main_keeps_order_witness :
  fst (main Demo.world 20 Demo.args [of_ascii "hello"; Demo.w2]) = Done tt
  /\ (let chunks := chunks_of [of_ascii "hello"; Demo.w2] in
      let n := List.length chunks in
      let tr := snd (main Demo.world 20 Demo.args [of_ascii "hello"; Demo.w2]) in
      exists (tasks : list tts_task) (frames : list frame) (final : vclip),
        narrated tr = [tasks]
        /\ map (fun t => (tts_text t, tts_out t)) tasks
           = combine chunks (map (chunk_path "audio_chunks") (seq 0 n))
        /\ Forall (fun t => tts_voice t = arg_voice Demo.args
                            /\ tts_rate t = arg_rate Demo.args) tasks
        /\ rendered_as Demo.world 20 (arg_font Demo.args)
             (arg_background Demo.args) (resolve_style Demo.args)
             (arg_width Demo.args, arg_height Demo.args) 0 chunks frames
        /\ saved_frames tr = combine (map (img_path "images") (seq 0 n)) frames
        /\ written tr = [FadeOut (FadeIn final 1) 1]
        /\ map clip_files (map base_clip (units_of final))
           = map (fun i => (img_path "images" i, chunk_path "audio_chunks" i))
                 (seq 0 n)).
Proof.
  assert (fst (main Demo.world 20 Demo.args [of_ascii "hello"; Demo.w2])
          = Done tt) as H by (vm_compute; reflexivity).
  split; [exact H|].
  apply (main_keeps_order Demo.world 20 Demo.args [of_ascii "hello"; Demo.w2] H).
Defined.

(** ** File names *)

Lemma list_ascii_app (a b : string) :
  list_ascii_of_string (a ++ b) = list_ascii_of_string a ++ list_ascii_of_string b.
Proof.
  induction a as [|c a IH]; cbn; [reflexivity|]. rewrite IH. reflexivity.
Qed.

Lemma list_ascii_inj (a b : string) :
  list_ascii_of_string a = list_ascii_of_string b -> a = b.
Proof.
  intros H. rewrite <- (string_of_list_ascii_of_string a),
    <- (string_of_list_ascii_of_string b), H. reflexivity.
Qed.

Lemma string_app_inv_head (a x y : string) :
  (a ++ x = a ++ y)%string -> x = y.
Proof.
  intros H. apply list_ascii_inj. apply (f_equal list_ascii_of_string) in H.
  rewrite !list_ascii_app in H. apply app_inv_head in H. exact H.
Qed.

Lemma string_app_inv_tail (b x y : string) :
  (x ++ b = y ++ b)%string -> x = y.
Proof.
  intros H. apply list_ascii_inj. apply (f_equal list_ascii_of_string) in H.
  rewrite !list_ascii_app in H. apply app_inv_tail in H. exact H.
Qed.

Lemma dec_inj (i j : nat) : dec i = dec j -> i = j.
Proof.
  unfold dec. intros H.
  apply (f_equal NilEmpty.uint_of_string) in H. rewrite !NilEmpty.usu in H.
  injection H as H. apply (f_equal Nat.of_uint) in H.
  rewrite !DecimalNat.Unsigned.of_to in H. exact H.
Qed.

Lemma path_join_inj (d x y : string) : path_join d x = path_join d y -> x = y.
Proof.
  unfold path_join. destruct (endswith d "/" || (d =? "")%string); intros H.
  - apply string_app_inv_head in H. exact H.
  - apply string_app_inv_head in H. apply string_app_inv_head in H. exact H.
Qed.

Lemma numbered_inj (d pre post : string) (i j : nat) :
  path_join d (pre ++ dec i ++ post) = path_join d (pre ++ dec j ++ post) ->
  i = j.
Proof.
  intros H. apply path_join_inj in H. apply string_app_inv_head in H.
  apply string_app_inv_tail in H. apply dec_inj. exact H.
Qed.

(** X18: no two slides share a file.  For any folder and any number of
    slides the image names [img_i.png] are pairwise different, and so are
    the narration names [chunk_i.mp3]: a slide never overwrites the image
    or the narration of another one. *)
Theorem slide_files_distinct (dir : string) (n : nat) :
  NoDup (map (img_path dir) (seq 0 n))
  /\ NoDup (map (chunk_path dir) (seq 0 n))
  /\ (forall i j, img_path dir i = img_path dir j -> i = j)
  /\ (forall i j, chunk_path dir i = chunk_path dir j -> i = j).
Proof.
  assert (forall i j, img_path dir i = img_path dir j -> i = j) as Himg
    by (intros i j; apply numbered_inj).
  assert (forall i j, chunk_path dir i = chunk_path dir j -> i = j) as Hchunk
    by (intros i j; apply numbered_inj).
  split; [|split; [|split; assumption]].
  - apply Injective_map_NoDup; [exact Himg|apply seq_NoDup].
  - apply Injective_map_NoDup; [exact Hchunk|apply seq_NoDup].
Qed.

(** ** The alpha slider of the web form *)

Lemma slider_round_trip_holds : slider_round_trip = true.
Proof. vm_compute. reflexivity. Qed.

(** X19: the alpha slider of the web form survives the division by 255.0 in
    [app.py] and the multiplication by 255 in [render_text_image]: for every
    slider value from 0 to 255, a frame rendered with the box alpha the form
    passes on has exactly that value as the alpha of its box. *)
Theorem slider_alpha_round_trip (w : World) (fuel : nat) (txt : text)
    (font_path : string) (size : Z * Z) (bg_path : option string)
    (st : Style) (k : Z) (f : frame) :
  0 <= k <= 255 ->
  box_alpha st = slider_alpha k ->
  render_text_image w fuel txt font_path size bg_path st = Done f ->
  box_alpha_255 (slider_alpha k) = k /\ box_fill_alpha f = k.
Proof.
  intros Hk Halpha Hf.
  assert (box_alpha_255 (slider_alpha k) = k) as Hrt.
  { pose proof slider_round_trip_holds as H. unfold slider_round_trip in H.
    rewrite forallb_forall in H.
    specialize (H (Z.to_nat k)).
    rewrite Z2Nat.id in H by lia. apply Z.eqb_eq. apply H.
    apply in_seq. lia. }
  split; [exact Hrt|].
  rewrite (render_box_fill_alpha _ _ _ _ _ _ _ _ Hf), Halpha. exact Hrt.
Qed.

Lemma slider_alpha_round_trip_witness :
  0 <= 160 <= 255
  /\ box_alpha slider_style = slider_alpha 160
  /\ render_text_image Demo.world 20 (of_ascii "hello") "font.ttf" (720, 1280)
       None slider_style = Done slider_frame
  /\ (box_alpha_255 (slider_alpha 160) = 160 /\ box_fill_alpha slider_frame = 160).
Proof.
  assert (render_text_image Demo.world 20 (of_ascii "hello") "font.ttf"
            (720, 1280) None slider_style = Done slider_frame) as H
    by (vm_compute; reflexivity).
  split; [lia|]. split; [reflexivity|]. split; [exact H|].
  apply (slider_alpha_round_trip Demo.world 20 (of_ascii "hello") "font.ttf"
           (720, 1280) None slider_style 160 slider_frame);
    [lia|reflexivity|exact H].
Defined.

(** ** The text box on the canvas *)

Lemma to_int_floor_pos (h : Q) : (0 <= h)%Q -> (inject_Z (Float64.to_int h) <= h)%Q
                                 /\ (h < inject_Z (Float64.to_int h) + 1)%Q.
Proof.
  intros Hh. rewrite (to_int_nonneg h Hh). split; [apply Qfloor_le|].
  pose proof (Qlt_floor h) as H. rewrite inject_Z_plus in H. exact H.
Qed.

Lemma anchor_complex_box (position : string) (height : Z) (h : Q) :
  (0 <= h)%Q ->
  (30 <= anchor_complex position height h)%Q
  /\ ((h <= inject_Z height - 60)%Q ->
      (anchor_complex position height h + h <= inject_Z height)%Q).
Proof.
  intros Hh. unfold anchor_complex.
  destruct (to_int_floor_pos h Hh) as [Hf1 Hf2].
  set (t := Float64.to_int h) in *.
  destruct (position =? "top")%string; [split; intros; lra|].
  destruct (position =? "bottom")%string.
  - destruct (Z.max_spec (height - t - 60) 30) as [[Hlt ->]|[Hle ->]].
    + split; [change (inject_Z 30) with 30%Q; lra|].
      change (inject_Z 30) with 30%Q. intros; lra.
    + assert (inject_Z (height - t - 60) == inject_Z height - inject_Z t - 60)%Q
        as E by (unfold Z.sub; rewrite !inject_Z_plus, !inject_Z_opp; reflexivity).
      rewrite Zle_Qle in Hle. change (inject_Z 30) with 30%Q in Hle.
      rewrite E in *. split; [lra|intros; lra].
  - pose proof (Qfloor_le ((inject_Z height - h) / 2)) as Hx.
    set (x := Qfloor ((inject_Z height - h) / 2)) in *.
    change ((inject_Z height - h) / 2)%Q
      with ((inject_Z height - h) * (1 # 2))%Q in Hx.
    destruct (Z.max_spec x 30) as [[Hlt ->]|[Hle ->]].
    + change (inject_Z 30) with 30%Q. split; [lra|intros; lra].
    + rewrite Zle_Qle in Hle. change (inject_Z 30) with 30%Q in Hle.
      split; [lra|intros; lra].
Qed.

Lemma anchor_simple_box (position : string) (height h : Z) :
  30 <= anchor_simple position height h
  /\ (h <= height - 80 -> anchor_simple position height h + h + 20 <= height).
Proof.
  unfold anchor_simple.
  destruct (position =? "top")%string; [lia|].
  destruct (position =? "bottom")%string; [lia|].
  pose proof (Z.div_mod (height - h) 2 ltac:(lia)) as Hd.
  pose proof (Z.mod_pos_bound (height - h) 2 ltac:(lia)) as Hm.
  lia.
Qed.

(** X20: the text box on the canvas.  In every frame the box reaches from
    column 30 to column [width - 30] and starts at row 10 or below it; and
    when the box is at most [height - 40] rows high, it ends on the canvas,
    wherever the text is anchored and on either path. *)
Theorem text_box_on_canvas (w : World) (fuel : nat) (txt : text)
    (font_path : string) (width height : Z) (bg_path : option string)
    (st : Style) (f : frame) :
  0 <= font_size st ->
  render_text_image w fuel txt font_path (width, height) bg_path st = Done f ->
  box_left f = 30
  /\ box_right f = width - 30
  /\ (10 <= box_top f)%Q
  /\ ((box_bottom f - box_top f <= inject_Z height - 40)%Q ->
      (box_bottom f <= inject_Z height)%Q).
Proof.
  intros Hsize. unfold render_text_image, box_left, box_right, box_top, box_bottom.
  destruct (load_background w bg_path) as [bg| |]; cbn [bind]; try discriminate.
  destruct (color w (box_color st)) as [box_rgb| |]; cbn [bind]; try discriminate.
  destruct (color w (shadow_color st)) as [shadow_rgb| |]; cbn [bind];
    try discriminate.
  destruct (contains_complex_script txt).
  - destruct (load_face w font_path); cbn [bind]; try discriminate.
    destruct (color w (font_color st)) as [font_rgb| |]; cbn [bind];
      try discriminate.
    destruct (complex_lines w (font_size st) width fuel txt) as [lines| |];
      cbn [bind]; try discriminate.
    intros H. injection H as <-. cbn [fr_box fst snd].
    pose proof (total_h_complex_pos (List.length lines) (font_size st) Hsize) as Hh.
    set (h := total_h_complex (List.length lines) (font_size st)) in *.
    destruct (anchor_complex_box (text_position st) height h) as [Hy Hfit];
      [lra|].
    set (y := anchor_complex (text_position st) height h) in *.
    split; [reflexivity|]. split; [reflexivity|]. split; [lra|].
    intros Hbox. apply Hfit. lra.
  - destruct (load_simple_font w font_path (font_size st)) as [fnt| |];
      cbn [bind]; try discriminate.
    destruct (color w (font_color st)) as [font_rgb| |]; cbn [bind];
      try discriminate.
    intros H. injection H as <-. cbn [fr_box fst snd].
    set (lines := match textwrap_wrap w txt with [] => [txt] | _ => textwrap_wrap w txt end).
    set (h := total_h_simple (List.length lines)
                (snd (pil_getsize w fnt (of_ascii "A")))).
    destruct (anchor_simple_box (text_position st) height h) as [Hy Hfit].
    set (y := anchor_simple (text_position st) height h) in *.
    split; [reflexivity|]. split; [reflexivity|].
    split.
    + change 10%Q with (inject_Z 10). rewrite <- Zle_Qle. lia.
    + intros Hbox. rewrite <- Zle_Qle. apply Hfit.
      assert (inject_Z (y + h + 20) - inject_Z (y - 20) == inject_Z (h + 40))%Q as E.
      { unfold Z.sub. rewrite !inject_Z_plus, !inject_Z_opp. ring. }
      rewrite E in Hbox.
      assert (inject_Z (h + 40) <= inject_Z (height - 40))%Q as Hz.
      { eapply Qle_trans; [exact Hbox|]. unfold Z.sub.
        rewrite inject_Z_plus, inject_Z_opp. apply Qle_refl. }
      rewrite <- Zle_Qle in Hz. lia.
Qed.

Lemma text_box_on_canvas_witness :
  0 <= font_size slider_style
  /\ render_text_image Demo.world 20 (of_ascii "hello") "font.ttf" (720, 1280)
       None slider_style = Done slider_frame
  /\ (box_left slider_frame = 30
      /\ box_right slider_frame = 720 - 30
      /\ (10 <= box_top slider_frame)%Q
      /\ ((box_bottom slider_frame - box_top slider_frame <= inject_Z 1280 - 40)%Q ->
          (box_bottom slider_frame <= inject_Z 1280)%Q)).
Proof.
  assert (render_text_image Demo.world 20 (of_ascii "hello") "font.ttf"
            (720, 1280) None slider_style = Done slider_frame) as H
    by (vm_compute; reflexivity).
  split; [cbn; lia|]. split; [exact H|].
  apply (text_box_on_canvas Demo.world 20 (of_ascii "hello") "font.ttf" 720 1280
           None slider_style slider_frame); [cbn; lia|exact H].
Defined.

(** ** The command line the web form builds *)

Lemma add_arg_passed (cmd : list string) (k : string) (v : option string) :
  add_arg cmd k v = cmd ++ passed (k, v).
Proof.
  unfold add_arg, passed. cbn [fst snd].
  destruct v as [s|]; [destruct (s =? "")%string|]; try reflexivity;
    symmetry; apply app_nil_r.
Qed.

Lemma fold_add_arg (options : list (string * option string)) :
  forall cmd,
    fold_left (fun c kv => add_arg c (fst kv) (snd kv)) options cmd
    = cmd ++ flat_map passed options.
Proof.
  induction options as [|[k v] rest IH]; intros cmd; cbn [fold_left flat_map].
  - symmetry. apply app_nil_r.
  - rewrite IH, add_arg_passed, <- app_assoc. reflexivity.
Qed.

Lemma passed_shape (kv : string * option string) :
  passed kv = []
  \/ exists s, snd kv = Some s /\ s <> EmptyString /\ passed kv = [fst kv; s].
Proof.
  unfold passed. destruct (snd kv) as [s|]; [|left; reflexivity].
  destruct (String.eqb_spec s ""); [left; reflexivity|].
  right. exists s. repeat split. assumption.
Qed.

(** X21: the command line of the web form.  It is the interpreter, the
    script, then a key followed by its value for each path and option that
    is neither [None] nor the empty string, paths first and options in
    their order, then the flags; an absent path or option contributes
    nothing, so the program's own default applies. *)
Theorem build_cli_command_shape (executable script : string)
    (review_path font_path output_path : option string)
    (background_path logo_path music_path : option string)
    (options : list (string * option string)) (flags : list string) :
  let args :=
    [("--input"%string, review_path); ("--background"%string, background_path);
     ("--logo"%string, logo_path); ("--music"%string, music_path);
     ("--font"%string, font_path); ("--output"%string, output_path)]
    ++ options in
  build_cli_command executable script review_path font_path output_path
    background_path logo_path music_path options flags
  = [executable; script] ++ flat_map passed args ++ flags
  /\ Nat.Even (List.length (flat_map passed args))
  /\ (Forall (fun kv => snd kv = None \/ snd kv = Some EmptyString) args ->
      build_cli_command executable script review_path font_path output_path
        background_path logo_path music_path options flags
      = [executable; script] ++ flags).
Proof.
  intros args.
  assert (build_cli_command executable script review_path font_path output_path
            background_path logo_path music_path options flags
          = [executable; script] ++ flat_map passed args ++ flags) as Hshape.
  { unfold build_cli_command. rewrite fold_add_arg, !add_arg_passed.
    subst args. rewrite flat_map_app. cbn [flat_map].
    rewrite <- !app_assoc. reflexivity. }
  split; [exact Hshape|]. revert Hshape. generalize args. clear args.
  intros args Hshape. split.
  - clear Hshape.
    induction args as [|kv rest IH]; cbn [flat_map]; [exists 0%nat; reflexivity|].
    rewrite length_app. destruct IH as [m Hm]. rewrite Hm.
    destruct (passed_shape kv) as [->|(s & _ & _ & ->)]; cbn [List.length].
    + exists m. lia.
    + exists (S m). lia.
  - intros Hnone. rewrite Hshape. f_equal.
    assert (flat_map passed args = []) as ->; [|reflexivity].
    clear Hshape. induction Hnone as [|kv rest Hkv _ IH]; cbn [flat_map];
      [reflexivity|].
    rewrite IH, app_nil_r. unfold passed.
    destruct Hkv as [->| ->]; reflexivity.
Qed.

(** ** Measured and exact width *)

Lemma advance_sum_nonneg (buf : list glyph) :
  Forall (fun g => 0 <= x_advance g) buf -> 0 <= advance_sum buf.
Proof.
  unfold advance_sum. induction 1 as [|g rest Hg _ IH]; cbn [map fold_right]; lia.
Qed.

(** X22: the line breaker tests the width after two roundings, which is
    within three parts in [2^53] of the exact advance.  So for a font size
    below [2^53] and glyphs that do not advance backwards, the exact width
    of an emitted line exceeds the usable width by at most that fraction,
    and a line whose exact width is that fraction below the usable width
    passes the test. *)
Theorem emitted_lines_exact_width (w : World) (size_px width : Z)
    (fuel : nat) (txt : text) (lines : list text) :
  0 <= size_px < 2 ^ 53 ->
  (forall l, Forall (fun g => 0 <= x_advance g) (hb_shape w l)) ->
  complex_lines w size_px width fuel txt = Done lines ->
  Forall (fun l =>
            (exact_width w size_px l * (1 - 3 * Float64.u53)
             <= usable_width width)%Q)
         lines
  /\ (forall l,
        (exact_width w size_px l * (1 + 3 * Float64.u53) <= usable_width width)%Q ->
        fits w size_px (width - 100) l = true).
Proof.
  intros Hs Hadv Hrun.
  assert (forall l,
            (exact_width w size_px l * (1 - 3 * Float64.u53)
             <= line_width w size_px l)%Q
            /\ (line_width w size_px l
                <= exact_width w size_px l * (1 + 3 * Float64.u53))%Q) as Hnear.
  { intros l. unfold exact_width, line_width, shape_line. cbn [snd].
    apply shaped_width_near; [apply advance_sum_nonneg; apply Hadv|exact Hs]. }
  split.
  - pose proof (complex_lines_fit_all w size_px width fuel txt lines Hrun) as Hfit.
    eapply Forall_impl; [|exact Hfit]. intros l Hl. cbn beta in Hl.
    eapply Qle_trans; [exact (proj1 (Hnear l))|exact Hl].
  - intros l Hl. apply fits_iff.
    eapply Qle_trans; [exact (proj2 (Hnear l))|exact Hl].
Qed.

Lemma emitted_lines_exact_width_witness :
  0 <= 60 < 2 ^ 53
  /\ (forall l, Forall (fun g => 0 <= x_advance g) (hb_shape Demo.world l))
  /\ complex_lines Demo.world 60 720 20 demo_passage
     = Done [Demo.w11 ++ space ++ Demo.w2; Demo.w3 ++ space ++ Demo.w11]
  /\ Forall (fun l =>
               (exact_width Demo.world 60 l * (1 - 3 * Float64.u53)
                <= usable_width 720)%Q)
            [Demo.w11 ++ space ++ Demo.w2; Demo.w3 ++ space ++ Demo.w11]
  /\ (forall l,
        (exact_width Demo.world 60 l * (1 + 3 * Float64.u53) <= usable_width 720)%Q ->
        fits Demo.world 60 (720 - 100) l = true).
Proof.
  assert (0 <= 60 < 2 ^ 53) as Hs by lia.
  assert (forall l, Forall (fun g => 0 <= x_advance g) (hb_shape Demo.world l))
    as Hadv.
  { intros l. cbn [hb_shape Demo.world]. unfold Demo.shape.
    induction l as [|c l IH]; cbn [map]; constructor; [cbn; lia|exact IH]. }
  assert (complex_lines Demo.world 60 720 20 demo_passage
          = Done [Demo.w11 ++ space ++ Demo.w2; Demo.w3 ++ space ++ Demo.w11])
    as Hrun by (vm_compute; reflexivity).
  split; [exact Hs|]. split; [exact Hadv|]. split; [exact Hrun|].
  apply (emitted_lines_exact_width Demo.world 60 720 20 demo_passage _ Hs Hadv Hrun).
Defined.
